(** * Skeletal animation editor: skeleton model, picking and keyframe playback

    A shallow embedding of the skinning sources ([Scene.ts], [Gui.ts] and the
    draw loop of [App.ts]).  JavaScript numbers are idealised as real numbers;
    the value [NaN], where the sources use it as a sentinel, is the [None] of
    an option.  Objects of the vector library (Vec3, Quat, Mat4) live in an
    object store and bones hold references into it, so that aliasing between
    the live skeleton and captured keyframes is visible. *)

From Stdlib Require Import Reals Lra Lia Psatz List ZArith Bool.
Import ListNotations.
Local Open Scope R_scope.

(** ** The vector library (TSM) *)

Module TSM.

Record Vec3 : Type := mkVec3 { vx : R; vy : R; vz : R }.

Record Quat : Type := mkQuat { qx : R; qy : R; qz : R; qw : R }.

(** A 4x4 matrix in column-major order: [m0..m3] is the first column and
    [m12..m14] is the translation part. *)
Record Mat4 : Type := mkMat4 {
  m0 : R; m1 : R; m2 : R; m3 : R;
  m4 : R; m5 : R; m6 : R; m7 : R;
  m8 : R; m9 : R; m10 : R; m11 : R;
  m12 : R; m13 : R; m14 : R; m15 : R }.

Definition Vec3_zero : Vec3 := mkVec3 0 0 0.

(** Modelled from the spec: the library's [Vec3.difference(a, b)], a new
    vector [a - b]; neither argument is modified. *)
Definition Vec3_difference (a b : Vec3) : Vec3 :=
  mkVec3 (vx a - vx b) (vy a - vy b) (vz a - vz b).

(** Modelled from the spec: [Vec3.squaredDistance] / [Vec3.distance]. *)
Definition Vec3_squaredDistance (a b : Vec3) : R :=
  (vx a - vx b) * (vx a - vx b) + (vy a - vy b) * (vy a - vy b)
  + (vz a - vz b) * (vz a - vz b).

Definition Vec3_distance (a b : Vec3) : R := sqrt (Vec3_squaredDistance a b).

(** Modelled from the spec: [new Quat().setIdentity()]. *)
Definition Quat_identity : Quat := mkQuat 0 0 0 1.

(** Modelled from the spec: the library's quaternion composition
    [Quat.product(q1, q2)] (Hamilton product, [q1] on the left); the in-place
    [q1.multiply(q2)] computes the same value into [q1]. *)
Definition Quat_product (q1 q2 : Quat) : Quat :=
  mkQuat
    (qx q1 * qw q2 + qw q1 * qx q2 + qy q1 * qz q2 - qz q1 * qy q2)
    (qy q1 * qw q2 + qw q1 * qy q2 + qz q1 * qx q2 - qx q1 * qz q2)
    (qz q1 * qw q2 + qw q1 * qz q2 + qx q1 * qy q2 - qy q1 * qx q2)
    (qw q1 * qw q2 - qx q1 * qx q2 - qy q1 * qy q2 - qz q1 * qz q2).

(** Modelled from the spec: axis-angle construction [Quat.fromAxisAngle];
    the axis is used as given (it is not normalised). *)
Definition Quat_fromAxisAngle (axis : Vec3) (angle : R) : Quat :=
  mkQuat (vx axis * sin (angle * / 2)) (vy axis * sin (angle * / 2))
         (vz axis * sin (angle * / 2)) (cos (angle * / 2)).

Definition Quat_norm2 (q : Quat) : R :=
  qx q * qx q + qy q * qy q + qz q * qz q + qw q * qw q.

Definition unitQuat (q : Quat) : Prop := Quat_norm2 q = 1.

(** Modelled from the spec: [new Mat4().setIdentity()]. *)
Definition Mat4_identity : Mat4 :=
  mkMat4 1 0 0 0  0 1 0 0  0 0 1 0  0 0 0 1.

(** Modelled from the spec: [m.translate(v)], which multiplies [m] on the
    right by the translation by [v]; the vector is only read. *)
Definition Mat4_translate (m : Mat4) (v : Vec3) : Mat4 :=
  mkMat4 (m0 m) (m1 m) (m2 m) (m3 m)
         (m4 m) (m5 m) (m6 m) (m7 m)
         (m8 m) (m9 m) (m10 m) (m11 m)
         (m12 m + (m0 m * vx v + m4 m * vy v + m8 m * vz v))
         (m13 m + (m1 m * vx v + m5 m * vy v + m9 m * vz v))
         (m14 m + (m2 m * vx v + m6 m * vy v + m10 m * vz v))
         (m15 m + (m3 m * vx v + m7 m * vy v + m11 m * vz v)).

(** Modelled from the spec: matrix composition [Mat4.product(a, b)], the
    matrix of "apply [b], then [a]". *)
Definition Mat4_product (a b : Mat4) : Mat4 :=
  mkMat4
    (m0 a * m0 b + m4 a * m1 b + m8 a * m2 b + m12 a * m3 b)
    (m1 a * m0 b + m5 a * m1 b + m9 a * m2 b + m13 a * m3 b)
    (m2 a * m0 b + m6 a * m1 b + m10 a * m2 b + m14 a * m3 b)
    (m3 a * m0 b + m7 a * m1 b + m11 a * m2 b + m15 a * m3 b)
    (m0 a * m4 b + m4 a * m5 b + m8 a * m6 b + m12 a * m7 b)
    (m1 a * m4 b + m5 a * m5 b + m9 a * m6 b + m13 a * m7 b)
    (m2 a * m4 b + m6 a * m5 b + m10 a * m6 b + m14 a * m7 b)
    (m3 a * m4 b + m7 a * m5 b + m11 a * m6 b + m15 a * m7 b)
    (m0 a * m8 b + m4 a * m9 b + m8 a * m10 b + m12 a * m11 b)
    (m1 a * m8 b + m5 a * m9 b + m9 a * m10 b + m13 a * m11 b)
    (m2 a * m8 b + m6 a * m9 b + m10 a * m10 b + m14 a * m11 b)
    (m3 a * m8 b + m7 a * m9 b + m11 a * m10 b + m15 a * m11 b)
    (m0 a * m12 b + m4 a * m13 b + m8 a * m14 b + m12 a * m15 b)
    (m1 a * m12 b + m5 a * m13 b + m9 a * m14 b + m13 a * m15 b)
    (m2 a * m12 b + m6 a * m13 b + m10 a * m14 b + m14 a * m15 b)
    (m3 a * m12 b + m7 a * m13 b + m11 a * m14 b + m15 a * m15 b).

(** Modelled from the spec: [m.multiplyPt3(v)], the matrix applied to the
    point [v] (homogeneous coordinate 1). *)
Definition Mat4_multiplyPt3 (m : Mat4) (v : Vec3) : Vec3 :=
  mkVec3 (m0 m * vx v + m4 m * vy v + m8 m * vz v + m12 m)
         (m1 m * vx v + m5 m * vy v + m9 m * vz v + m13 m)
         (m2 m * vx v + m6 m * vy v + m10 m * vz v + m14 m).

(** Modelled from the spec: [q.toMat4()], the rotation matrix of a
    quaternion. *)
Definition Quat_toMat4 (q : Quat) : Mat4 :=
  let x := qx q in let y := qy q in let z := qz q in let w := qw q in
  let x2 := x + x in let y2 := y + y in let z2 := z + z in
  let xx := x * x2 in let xy := x * y2 in let xz := x * z2 in
  let yy := y * y2 in let yz := y * z2 in let zz := z * z2 in
  let wx := w * x2 in let wy := w * y2 in let wz := w * z2 in
  mkMat4 (1 - (yy + zz)) (xy + wz) (xz - wy) 0
         (xy - wz) (1 - (xx + zz)) (yz + wx) 0
         (xz + wy) (yz - wx) (1 - (xx + yy)) 0
         0 0 0 1.

(** A matrix is rigid when its bottom row is [0 0 0 1] and it preserves
    distances between points. *)
Definition affine (m : Mat4) : Prop :=
  m3 m = 0 /\ m7 m = 0 /\ m11 m = 0 /\ m15 m = 1.

Definition rigid (m : Mat4) : Prop :=
  affine m /\
  forall u v, Vec3_squaredDistance (Mat4_multiplyPt3 m u) (Mat4_multiplyPt3 m v)
              = Vec3_squaredDistance u v.

(** A 3x3 matrix in column-major order. *)
Record Mat3 : Type := mkMat3 {
  n0 : R; n1 : R; n2 : R;
  n3 : R; n4 : R; n5 : R;
  n6 : R; n7 : R; n8 : R }.

(** Modelled from the spec: [Vec3.dot] and [Vec3.cross], new values. *)
Definition Vec3_dot (a b : Vec3) : R :=
  vx a * vx b + vy a * vy b + vz a * vz b.

Definition Vec3_cross (a b : Vec3) : Vec3 :=
  mkVec3 (vy a * vz b - vz a * vy b)
         (vz a * vx b - vx a * vz b)
         (vx a * vy b - vy a * vx b).

(** Modelled from the spec: [v.length()]. *)
Definition Vec3_length (a : Vec3) : R := sqrt (Vec3_dot a a).

(** Modelled from the spec: [v.normalize()]; the zero vector is left at
    zero. *)
Definition Vec3_normalize (a : Vec3) : Vec3 :=
  if Req_EM_T (Vec3_length a) 0 then Vec3_zero
  else mkVec3 (vx a * / Vec3_length a) (vy a * / Vec3_length a)
              (vz a * / Vec3_length a).

(** Modelled from the spec: [m.multiplyVec3(v)]. *)
Definition Mat3_multiplyVec3 (m : Mat3) (v : Vec3) : Vec3 :=
  mkVec3 (n0 m * vx v + n3 m * vy v + n6 m * vz v)
         (n1 m * vx v + n4 m * vy v + n7 m * vz v)
         (n2 m * vx v + n5 m * vy v + n8 m * vz v).

(** Modelled from the spec: [m.determinant()]. *)
Definition Mat3_det (m : Mat3) : R :=
  n0 m * (n8 m * n4 m - n5 m * n7 m)
  + n1 m * (- n8 m * n3 m + n5 m * n6 m)
  + n2 m * (n7 m * n3 m - n4 m * n6 m).

(** Modelled from the spec: the inverse of a 3x3 matrix ("invert"), by
    cofactors.  The spec does not say what the library returns for a matrix
    that has no inverse; here that case is [None], and the picking pass takes
    the inversion as a parameter so that nothing proved about it depends on
    this choice. *)
Definition Mat3_inverse (m : Mat3) : option Mat3 :=
  let det := Mat3_det m in
  if Req_EM_T det 0 then None
  else Some (mkMat3
    ((n8 m * n4 m - n5 m * n7 m) * / det)
    ((- n8 m * n1 m + n2 m * n7 m) * / det)
    ((n5 m * n1 m - n2 m * n4 m) * / det)
    ((- n8 m * n3 m + n5 m * n6 m) * / det)
    ((n8 m * n0 m - n2 m * n6 m) * / det)
    ((- n5 m * n0 m + n2 m * n3 m) * / det)
    ((n7 m * n3 m - n4 m * n6 m) * / det)
    ((- n7 m * n0 m + n1 m * n6 m) * / det)
    ((n4 m * n0 m - n1 m * n3 m) * / det)).

End TSM.

Import TSM.

(** ** Results of JavaScript computations

    A property access on [undefined] raises a [TypeError]; recursion is
    modelled with fuel. *)

Inductive res (A : Type) : Type :=
| Ok (a : A)
| TypeError
| OutOfFuel.

Arguments Ok {A} a.
Arguments TypeError {A}.
Arguments OutOfFuel {A}.

Definition bind {A B : Type} (r : res A) (k : A -> res B) : res B :=
  match r with
  | Ok a => k a
  | TypeError => TypeError
  | OutOfFuel => OutOfFuel
  end.

Notation "x <- r ;; k" := (bind r (fun x => k))
  (at level 61, r at next level, right associativity).

(** ** Object store *)

Module Store.

Definition ref : Type := nat.

(** One array of cells per class of the vector library; a reference is an
    index into the array of its class. *)
Record Heap : Type := mkHeap {
  vec3s : list Vec3;
  quats : list Quat;
  mat4s : list Mat4 }.

Definition empty : Heap := mkHeap [] [] [].

(** [new Vec3(..)], [v.copy()] and every static operation without a
    destination create a fresh object. *)
Definition newVec3 (h : Heap) (v : Vec3) : ref * Heap :=
  (length (vec3s h), mkHeap (vec3s h ++ [v]) (quats h) (mat4s h)).

Definition newQuat (h : Heap) (q : Quat) : ref * Heap :=
  (length (quats h), mkHeap (vec3s h) (quats h ++ [q]) (mat4s h)).

Definition newMat4 (h : Heap) (m : Mat4) : ref * Heap :=
  (length (mat4s h), mkHeap (vec3s h) (quats h) (mat4s h ++ [m])).

Definition getVec3 (h : Heap) (r : ref) : Vec3 := nth r (vec3s h) Vec3_zero.
Definition getQuat (h : Heap) (r : ref) : Quat := nth r (quats h) Quat_identity.
Definition getMat4 (h : Heap) (r : ref) : Mat4 := nth r (mat4s h) Mat4_identity.

Fixpoint list_set {A : Type} (n : nat) (x : A) (l : list A) : list A :=
  match l, n with
  | [], _ => []
  | _ :: t, O => x :: t
  | y :: t, S n' => y :: list_set n' x t
  end.

(** In-place mutation of an object: every holder of the reference sees the
    new value. *)
Definition setVec3 (h : Heap) (r : ref) (v : Vec3) : Heap :=
  mkHeap (list_set r v (vec3s h)) (quats h) (mat4s h).

Definition setQuat (h : Heap) (r : ref) (q : Quat) : Heap :=
  mkHeap (vec3s h) (list_set r q (quats h)) (mat4s h).

Definition setMat4 (h : Heap) (r : ref) (m : Mat4) : Heap :=
  mkHeap (vec3s h) (quats h) (list_set r m (mat4s h)).

End Store.

Import Store.

(** ** Bones *)

(** What the scene loader supplies for one bone. *)
Record BoneLoader : Type := mkBoneLoader {
  l_parent : Z;
  l_children : list Z;
  l_position : Vec3;
  l_endpoint : Vec3;
  l_rotation : Quat }.

(** [class Bone]: the numeric fields and the references to the bone's
    vector, quaternion and matrix objects. *)
Record Bone : Type := mkBone {
  parent : Z;
  children : list Z;
  position : ref;
  endpoint : ref;
  rotation : ref;
  isHighlight : bool;
  T_ij : ref;
  R_i : ref;
  initPosition : ref;
  initEndpoint : ref }.

(** [class Mesh]: the bone array, together with the object store. *)
Record Mesh : Type := mkMesh {
  heap : Heap;
  bones : list Bone }.

(** [bones[i]] for a number [i]: [undefined] outside the array. *)
Definition bone_at (bs : list Bone) (i : Z) : option Bone :=
  if (i <? 0)%Z then None else nth_error bs (Z.to_nat i).

Definition set_bone (bs : list Bone) (i : Z) (b : Bone) : list Bone :=
  list_set (Z.to_nat i) b bs.

(** The values a bone's references point to. *)
Record BoneValues : Type := mkBoneValues {
  v_position : Vec3;
  v_endpoint : Vec3;
  v_rotation : Quat;
  v_T_ij : Mat4;
  v_R_i : Quat;
  v_initPosition : Vec3;
  v_initEndpoint : Vec3 }.

Definition values (h : Heap) (b : Bone) : BoneValues :=
  mkBoneValues (getVec3 h (position b)) (getVec3 h (endpoint b))
               (getQuat h (rotation b)) (getMat4 h (T_ij b))
               (getQuat h (R_i b)) (getVec3 h (initPosition b))
               (getVec3 h (initEndpoint b)).

(** ** The skeleton model, later revision of [Scene.ts] (with keyframes) *)

Module Scene.

(** [new Bone(bone)] for [bone : BoneLoader | Bone].  Position, endpoint,
    rotation and the two bind-pose points are copied; for a [Bone] argument
    [T_ij] and [R_i] are taken over as they are, that is, by reference. *)
Definition Bone_constructor (h : Heap) (bone : BoneLoader + Bone) : Bone * Heap :=
  let '(pos, h) :=
    newVec3 h (match bone with
               | inl l => l_position l
               | inr b => getVec3 h (position b) end) in
  let '(endp, h) :=
    newVec3 h (match bone with
               | inl l => l_endpoint l
               | inr b => getVec3 h (endpoint b) end) in
  let '(rot, h) :=
    newQuat h (match bone with
               | inl l => l_rotation l
               | inr b => getQuat h (rotation b) end) in
  let '(initPos, h) :=
    newVec3 h (match bone with
               | inl _ => getVec3 h pos
               | inr b => getVec3 h (initPosition b) end) in
  let '(initEnd, h) :=
    newVec3 h (match bone with
               | inl _ => getVec3 h endp
               | inr b => getVec3 h (initEndpoint b) end) in
  let '(tij, h) :=
    match bone with
    | inl _ => newMat4 h Mat4_identity
    | inr b => (T_ij b, h)
    end in
  let '(ri, h) :=
    match bone with
    | inl _ => newQuat h Quat_identity
    | inr b => (R_i b, h)
    end in
  (mkBone (match bone with inl l => l_parent l | inr b => parent b end)
          (match bone with inl l => l_children l | inr b => children b end)
          pos endp rot false tij ri initPos initEnd,
   h).

(** [bone.rotateBone(axis, angle)]: the field [R_i] is replaced by a new
    quaternion object. *)
Definition rotateBone (h : Heap) (b : Bone) (axis : Vec3) (angle : R) : Bone * Heap :=
  let '(ri, h) :=
    newQuat h (Quat_product (getQuat h (R_i b)) (Quat_fromAxisAngle axis angle)) in
  (mkBone (parent b) (children b) (position b) (endpoint b) (rotation b)
          (isHighlight b) (T_ij b) ri (initPosition b) (initEndpoint b),
   h).

(** First loop of the [Mesh] constructor. *)
Fixpoint pushBones (h : Heap) (ls : list BoneLoader) : list Bone * Heap :=
  match ls with
  | [] => ([], h)
  | l :: ls' =>
      let '(b, h) := Bone_constructor h (inl l) in
      let '(bs, h) := pushBones h ls' in
      (b :: bs, h)
  end.

(** Body of the second loop of the [Mesh] constructor, for one bone: the
    translation is a fresh vector when the bone has a parent, and only the
    bone's matrix [T_ij] is mutated. *)
Definition initT_ij (all : list Bone) (h : Heap) (bone : Bone) : res Heap :=
  translation <-
    (if (parent bone =? -1)%Z then Ok (getVec3 h (initPosition bone))
     else match bone_at all (parent bone) with
          | None => TypeError
          | Some p => Ok (Vec3_difference (getVec3 h (initPosition bone))
                                          (getVec3 h (initPosition p)))
          end) ;;
  Ok (setMat4 h (T_ij bone) (Mat4_translate (getMat4 h (T_ij bone)) translation)).

Fixpoint initT_ij_loop (all : list Bone) (h : Heap) (todo : list Bone) : res Heap :=
  match todo with
  | [] => Ok h
  | bone :: todo' => h' <- initT_ij all h bone ;; initT_ij_loop all h' todo'
  end.

Definition Mesh_constructor (h : Heap) (ls : list BoneLoader) : res Mesh :=
  let '(bs, h) := pushBones h ls in
  h' <- initT_ij_loop bs h bs ;;
  Ok (mkMesh h' bs).

Fixpoint getU_i (fuel : nat) (m : Mesh) (bone : Z) : res Mat4 :=
  match fuel with
  | O => OutOfFuel
  | S fuel' =>
      match bone_at (bones m) bone with
      | None => TypeError
      | Some curBone =>
          if (parent curBone =? -1)%Z
          then Ok (Mat4_translate Mat4_identity
                     (getVec3 (heap m) (initPosition curBone)))
          else U_parent <- getU_i fuel' m (parent curBone) ;;
               Ok (Mat4_product U_parent (getMat4 (heap m) (T_ij curBone)))
      end
  end.

Fixpoint getD_i (fuel : nat) (m : Mesh) (bone : Z) : res Mat4 :=
  match fuel with
  | O => OutOfFuel
  | S fuel' =>
      match bone_at (bones m) bone with
      | None => TypeError
      | Some curBone =>
          if (parent curBone =? -1)%Z
          then Ok (Mat4_product (getMat4 (heap m) (T_ij curBone))
                     (Quat_toMat4 (getQuat (heap m) (R_i curBone))))
          else D_parent <- getD_i fuel' m (parent curBone) ;;
               Ok (Mat4_product D_parent
                     (Mat4_product (getMat4 (heap m) (T_ij curBone))
                        (Quat_toMat4 (getQuat (heap m) (R_i curBone)))))
      end
  end.

Fixpoint getR_i (fuel : nat) (m : Mesh) (bone : Z) : res Quat :=
  match fuel with
  | O => OutOfFuel
  | S fuel' =>
      match bone_at (bones m) bone with
      | None => TypeError
      | Some curBone =>
          if (parent curBone =? -1)%Z
          then Ok (getQuat (heap m) (R_i curBone))
          else R_parent <- getR_i fuel' m (parent curBone) ;;
               Ok (Quat_product R_parent (getQuat (heap m) (R_i curBone)))
      end
  end.

(** The tail of [calculateD_iAndTranslate] and of [updateMesh]: the bone's
    position and endpoint are replaced by new vectors computed from [D_i]. *)
Definition storePose (m : Mesh) (bone : Z) (D_i : Mat4) : res Mesh :=
  match bone_at (bones m) bone with
  | None => TypeError
  | Some b =>
      let '(pos, h) := newVec3 (heap m) (Mat4_multiplyPt3 D_i (mkVec3 0 0 0)) in
      let '(endp, h) :=
        newVec3 h (Mat4_multiplyPt3 D_i
                     (Vec3_difference (getVec3 h (initEndpoint b))
                                      (getVec3 h (initPosition b)))) in
      Ok (mkMesh h
            (set_bone (bones m) bone
               (mkBone (parent b) (children b) pos endp (rotation b)
                       (isHighlight b) (T_ij b) (R_i b)
                       (initPosition b) (initEndpoint b))))
  end.

Definition storeRotation (m : Mesh) (bone : Z) (rotation_i : Quat) : res Mesh :=
  match bone_at (bones m) bone with
  | None => TypeError
  | Some b =>
      let '(rot, h) := newQuat (heap m) rotation_i in
      Ok (mkMesh h
            (set_bone (bones m) bone
               (mkBone (parent b) (children b) (position b) (endpoint b) rot
                       (isHighlight b) (T_ij b) (R_i b)
                       (initPosition b) (initEndpoint b))))
  end.

Fixpoint calculateD_iAndTranslate (fuel : nat) (m : Mesh) (bone : Z)
    (D_parent : option Mat4) : res Mesh :=
  match fuel with
  | O => OutOfFuel
  | S fuel' =>
      match bone_at (bones m) bone with
      | None => TypeError
      | Some boneInstance =>
          D_i <- match D_parent with
                 | None => getD_i fuel m bone
                 | Some D =>
                     Ok (Mat4_product D
                           (Mat4_product (getMat4 (heap m) (T_ij boneInstance))
                              (Quat_toMat4 (getQuat (heap m) (R_i boneInstance)))))
                 end ;;
          m1 <- fold_left
                  (fun acc child =>
                     m' <- acc ;; calculateD_iAndTranslate fuel' m' child (Some D_i))
                  (children boneInstance) (Ok m) ;;
          storePose m1 bone D_i
      end
  end.

Fixpoint updateMesh (fuel : nat) (m : Mesh) (bone : Z)
    (D_parent : option Mat4) (rot_parent : option Quat) : res Mesh :=
  match fuel with
  | O => OutOfFuel
  | S fuel' =>
      match bone_at (bones m) bone with
      | None => TypeError
      | Some boneInstance =>
          Dr <- match D_parent, rot_parent with
                | Some D, Some rot =>
                    Ok (Mat4_product D
                          (Mat4_product (getMat4 (heap m) (T_ij boneInstance))
                             (Quat_toMat4 (getQuat (heap m) (R_i boneInstance)))),
                        Quat_product rot (getQuat (heap m) (R_i boneInstance)))
                | _, _ =>
                    D <- getD_i fuel m bone ;;
                    r <- getR_i fuel m bone ;;
                    Ok (D, r)
                end ;;
          m1 <- fold_left
                  (fun acc child =>
                     m' <- acc ;;
                     updateMesh fuel' m' child (Some (fst Dr)) (Some (snd Dr)))
                  (children boneInstance) (Ok m) ;;
          m2 <- storePose m1 bone (fst Dr) ;;
          storeRotation m2 bone (snd Dr)
      end
  end.

(** [mesh.bones[i].rotateBone(axis, angle)]. *)
Definition Mesh_rotateBone (m : Mesh) (i : Z) (axis : Vec3) (angle : R) : res Mesh :=
  match bone_at (bones m) i with
  | None => TypeError
  | Some b =>
      let '(b', h) := rotateBone (heap m) b axis angle in
      Ok (mkMesh h (set_bone (bones m) i b'))
  end.

(** *** The arrays handed to the shaders *)

(** A [Float32Array] is a list of numbers of a fixed length, its numbers
    idealised as real numbers like all others; a store at an index outside
    the array has no effect. *)
Definition Float32Array_new (n : nat) : list R := repeat 0 n.

(** Modelled from the spec: the accessors [v.xyz] and [q.xyzw] of the vector
    library, the coordinates as an array. *)
Definition xyz (v : Vec3) : list R := [vx v; vy v; vz v].

Definition xyzw (q : Quat) : list R := [qx q; qy q; qz q; qw q].

(** The loop [for (i = 0; i < res.length; i++) trans[base + i] = res[i]]
    from index [i] on, [res] being what is left of the coordinates. *)
Fixpoint copyInto (trans : list R) (base i : nat) (res : list R) : list R :=
  match res with
  | [] => trans
  | x :: rest => copyInto (list_set (base + i) x trans) base (S i) rest
  end.

(** [this.bones.forEach((bone, index) => ..)] for a callback that writes its
    results into an array. *)
Fixpoint forEachBone (f : list R -> Bone -> nat -> list R)
    (bs : list Bone) (index : nat) (arr : list R) : list R :=
  match bs with
  | [] => arr
  | bone :: bs' => forEachBone f bs' (S index) (f arr bone index)
  end.

Definition getBoneTranslations (m : Mesh) : list R :=
  forEachBone
    (fun trans bone index =>
       copyInto trans (3 * index) 0 (xyz (getVec3 (heap m) (position bone))))
    (bones m) 0 (Float32Array_new (3 * length (bones m))).

Definition getBoneRotations (m : Mesh) : list R :=
  forEachBone
    (fun trans bone index =>
       copyInto trans (4 * index) 0 (xyzw (getQuat (heap m) (rotation bone))))
    (bones m) 0 (Float32Array_new (4 * length (bones m))).

Definition getBoneColors (m : Mesh) : list R :=
  forEachBone
    (fun color bone index =>
       if isHighlight bone then
         list_set (index * 4 + 3) 1
           (list_set (index * 4 + 2) 0
              (list_set (index * 4 + 1) 1
                 (list_set (index * 4) 0 color)))
       else
         list_set (index * 4 + 3) 1
           (list_set (index * 4 + 2) 0
              (list_set (index * 4 + 1) 0
                 (list_set (index * 4) 1 color))))
    (bones m) 0 (Float32Array_new (4 * length (bones m))).

End Scene.

(** ** The skeleton model of [src/skinning/Scene.ts] (earlier revision) *)

Module SceneTs.

(** [new Bone(bone)] for a [BoneLoader]. *)
Definition Bone_constructor (h : Heap) (l : BoneLoader) : Bone * Heap :=
  let '(pos, h) := newVec3 h (l_position l) in
  let '(endp, h) := newVec3 h (l_endpoint l) in
  let '(rot, h) := newQuat h (l_rotation l) in
  let '(initPos, h) := newVec3 h (getVec3 h pos) in
  let '(initEnd, h) := newVec3 h (getVec3 h endp) in
  let '(tij, h) := newMat4 h Mat4_identity in
  let '(ri, h) := newQuat h Quat_identity in
  (mkBone (l_parent l) (l_children l) pos endp rot false tij ri initPos initEnd,
   h).

(** [bone.rotateBone(axis, angle)]: [this.R_i.multiply(..)] mutates the
    quaternion object in place. *)
Definition rotateBone (h : Heap) (b : Bone) (axis : Vec3) (angle : R) : Heap :=
  setQuat h (R_i b)
    (Quat_product (getQuat h (R_i b)) (Quat_fromAxisAngle axis angle)).

Fixpoint pushBones (h : Heap) (ls : list BoneLoader) : list Bone * Heap :=
  match ls with
  | [] => ([], h)
  | l :: ls' =>
      let '(b, h) := Bone_constructor h l in
      let '(bs, h) := pushBones h ls' in
      (b :: bs, h)
  end.

(** Body of the second loop of the [Mesh] constructor: [translation] is the
    bone's own [initPosition] object, and [translation.subtract(..)] mutates
    it in place. *)
Definition initT_ij (all : list Bone) (h : Heap) (bone : Bone) : res Heap :=
  let translation := initPosition bone in
  h1 <-
    (if (parent bone =? -1)%Z then Ok h
     else match bone_at all (parent bone) with
          | None => TypeError
          | Some p =>
              Ok (setVec3 h translation
                    (Vec3_difference (getVec3 h translation)
                                     (getVec3 h (initPosition p))))
          end) ;;
  Ok (setMat4 h1 (T_ij bone)
        (Mat4_translate (getMat4 h1 (T_ij bone)) (getVec3 h1 translation))).

Fixpoint initT_ij_loop (all : list Bone) (h : Heap) (todo : list Bone) : res Heap :=
  match todo with
  | [] => Ok h
  | bone :: todo' => h' <- initT_ij all h bone ;; initT_ij_loop all h' todo'
  end.

Definition Mesh_constructor (h : Heap) (ls : list BoneLoader) : res Mesh :=
  let '(bs, h) := pushBones h ls in
  h' <- initT_ij_loop bs h bs ;;
  Ok (mkMesh h' bs).

Definition Mesh_rotateBone (m : Mesh) (i : Z) (axis : Vec3) (angle : R) : res Mesh :=
  match bone_at (bones m) i with
  | None => TypeError
  | Some b => Ok (mkMesh (rotateBone (heap m) b axis angle) (bones m))
  end.

(** [getD_i(bone)]: for a root the matrix is built in place from the
    identity, translated by [initPosition] and multiplied by the rotation. *)
Fixpoint getD_i (fuel : nat) (m : Mesh) (bone : Z) : res Mat4 :=
  match fuel with
  | O => OutOfFuel
  | S fuel' =>
      match bone_at (bones m) bone with
      | None => TypeError
      | Some curBone =>
          if (parent curBone =? -1)%Z
          then Ok (Mat4_product
                     (Mat4_translate Mat4_identity
                        (getVec3 (heap m) (initPosition curBone)))
                     (Quat_toMat4 (getQuat (heap m) (R_i curBone))))
          else D_parent <- getD_i fuel' m (parent curBone) ;;
               Ok (Mat4_product D_parent
                     (Mat4_product (getMat4 (heap m) (T_ij curBone))
                        (Quat_toMat4 (getQuat (heap m) (R_i curBone)))))
      end
  end.

(** [updateMesh(bone, D_parent, rot_parent)].  Without a parent transform
    [rotation_i] is the bone's own object [R_i], not a copy of it, and the
    field [rotation] receives that very object; with one, [rotation_i] is a
    new quaternion.  The bone is stored before its children are visited.
    [rot_parent] is an object, given by its reference; [D_parent] is a
    matrix that nothing writes to, given by its value. *)
Fixpoint updateMesh (fuel : nat) (m : Mesh) (bone : Z)
    (D_parent : option Mat4) (rot_parent : option ref) : res Mesh :=
  match fuel with
  | O => OutOfFuel
  | S fuel' =>
      match bone_at (bones m) bone with
      | None => TypeError
      | Some boneInstance =>
          Drh <- match D_parent, rot_parent with
                 | Some D, Some rot =>
                     let '(rotation_i, h) :=
                       newQuat (heap m)
                         (Quat_product (getQuat (heap m) rot)
                                       (getQuat (heap m) (R_i boneInstance))) in
                     Ok (Mat4_product D
                           (Mat4_product (getMat4 (heap m) (T_ij boneInstance))
                              (Quat_toMat4 (getQuat (heap m) (R_i boneInstance)))),
                         rotation_i, h)
                 | _, _ =>
                     D <- getD_i fuel m bone ;;
                     Ok (D, R_i boneInstance, heap m)
                 end ;;
          let '(D_i, rotation_i, h) := Drh in
          let '(pos, h) := newVec3 h (Mat4_multiplyPt3 D_i (mkVec3 0 0 0)) in
          let '(endp, h) :=
            newVec3 h (Mat4_multiplyPt3 D_i
                         (Vec3_difference (getVec3 h (initEndpoint boneInstance))
                                          (getVec3 h (initPosition boneInstance)))) in
          fold_left
            (fun acc child =>
               m' <- acc ;; updateMesh fuel' m' child (Some D_i) (Some rotation_i))
            (children boneInstance)
            (Ok (mkMesh h
                   (set_bone (bones m) bone
                      (mkBone (parent boneInstance) (children boneInstance)
                              pos endp rotation_i (isHighlight boneInstance)
                              (T_ij boneInstance) (R_i boneInstance)
                              (initPosition boneInstance)
                              (initEndpoint boneInstance)))))
      end
  end.

End SceneTs.

(** ** The controller, later revision of [Gui.ts] *)

Module Gui.

Inductive Mode : Type := playback | edit.

(** [class KeyFrame]. *)
Record KeyFrame : Type := mkKeyFrame { kf_bones : list Bone }.

Fixpoint copyBones (h : Heap) (bs : list Bone) : list Bone * Heap :=
  match bs with
  | [] => ([], h)
  | bone :: bs' =>
      let '(b, h) := Scene.Bone_constructor h (inr bone) in
      let '(rest, h) := copyBones h bs' in
      (b :: rest, h)
  end.

Definition KeyFrame_constructor (h : Heap) (bs : list Bone) : KeyFrame * Heap :=
  let '(copies, h) := copyBones h bs in (mkKeyFrame copies, h).

(** Calls made on the camera, which is external; they are recorded. *)
Inductive CameraAxis : Type := forwardAxis | rightAxis | upAxis.

Inductive CameraCall : Type :=
| roll (speed : R) (cw : bool)
| orbitTarget (speed : R)
| offsetDist (up : bool)
| offset (axis : CameraAxis) (negated : bool) (dist : R).

Definition rotationSpeed : R := 5 / 100.
Definition rollSpeed : R := 1 / 10.
Definition zoomSpeed : R := 1 / 10.

(** The fields of [GUI] and the scene's first mesh.  [selectedBone] is a
    number in the source, [NaN] when no bone is selected. *)
Record State : Type := mkState {
  mesh : Mesh;
  keyFrames : list KeyFrame;
  selectedBone : option Z;
  boneDragging : bool;
  dragging : bool;
  prevX : R;
  prevY : R;
  time : R;
  mode : Mode;
  camera : list CameraCall }.

Definition NaN : option Z := None.

Definition getNumKeyFrames (s : State) : nat := length (keyFrames s).

Definition getMaxTime (s : State) : R := INR (length (keyFrames s)) - 1.

Definition with_mesh (s : State) (m : Mesh) : State :=
  mkState m (keyFrames s) (selectedBone s) (boneDragging s) (dragging s)
          (prevX s) (prevY s) (time s) (mode s) (camera s).

Definition with_time_mode (s : State) (t : R) (md : Mode) : State :=
  mkState (mesh s) (keyFrames s) (selectedBone s) (boneDragging s) (dragging s)
          (prevX s) (prevY s) t md (camera s).

Definition with_camera (s : State) (c : CameraCall) : State :=
  mkState (mesh s) (keyFrames s) (selectedBone s) (boneDragging s) (dragging s)
          (prevX s) (prevY s) (time s) (mode s) (camera s ++ [c]).

Definition incrementTime (s : State) (dT : R) : State :=
  match mode s with
  | playback =>
      if Rle_dec (getMaxTime s) (time s + dT)
      then with_time_mode s 0 edit
      else with_time_mode s (time s + dT) playback
  | edit => s
  end.

(** [mesh.bones[this.selectedBone]]: [undefined] when the selection is
    [NaN]. *)
Definition selected_bone (s : State) : option Bone :=
  match selectedBone s with
  | None => None
  | Some i => bone_at (bones (mesh s)) i
  end.

(** The key codes [onKeydown] reacts to, except those that have the external
    loader replace the scene (the digits and [KeyR]). *)
Inductive KeyCode : Type :=
| KeyW | KeyA | KeyS | KeyD
| ArrowLeft | ArrowRight | ArrowUp | ArrowDown
| KeyK | KeyP.

(** The two arrow-key cases of [onKeydown]; they differ in the sign of the
    angle. *)
Definition arrowKey (fuel : nat) (s : State) (angle : R) : res State :=
  match selected_bone s with
  | None => TypeError
  | Some b =>
      let rotationAxis :=
        Vec3_difference (getVec3 (heap (mesh s)) (initEndpoint b))
                        (getVec3 (heap (mesh s)) (initPosition b)) in
      match selectedBone s with
      | Some i =>
          m1 <- Scene.Mesh_rotateBone (mesh s) i rotationAxis angle ;;
          m2 <- Scene.updateMesh fuel m1 i None None ;;
          Ok (with_mesh s m2)
      | None => Ok (with_camera s (roll rollSpeed false))
      end
  end.

Definition onKeydown (fuel : nat) (s : State) (key : KeyCode) : res State :=
  match key with
  | KeyW => Ok (with_camera s (offset forwardAxis true zoomSpeed))
  | KeyA => Ok (with_camera s (offset rightAxis true zoomSpeed))
  | KeyS => Ok (with_camera s (offset forwardAxis false zoomSpeed))
  | KeyD => Ok (with_camera s (offset rightAxis false zoomSpeed))
  | ArrowUp => Ok (with_camera s (offset upAxis false zoomSpeed))
  | ArrowDown => Ok (with_camera s (offset upAxis true zoomSpeed))
  | ArrowLeft => arrowKey fuel s rotationSpeed
  | ArrowRight => arrowKey fuel s (- rotationSpeed)
  | KeyK =>
      match mode s with
      | edit =>
          let '(kf, h) := KeyFrame_constructor (heap (mesh s)) (bones (mesh s)) in
          Ok (mkState (mkMesh h (bones (mesh s))) (keyFrames s ++ [kf])
                (selectedBone s) (boneDragging s) (dragging s)
                (prevX s) (prevY s) (time s) (mode s) (camera s))
      | playback => Ok s
      end
  | KeyP =>
      match mode s with
      | edit =>
          if (1 <? getNumKeyFrames s)%nat then Ok (with_time_mode s 0 playback)
          else Ok s
      | playback => Ok (with_time_mode s (time s) edit)
      end
  end.

(** [dragStart]: a drag rotates the selected bone, if there is one. *)
Record MouseEvent : Type := mkMouseEvent {
  offsetX : R; offsetY : R; screenX : R; screenY : R; buttons : Z }.

(** What the external camera and projection supply to [drag]: the camera's
    forward vector and position, the unprojected mouse direction, and the
    angle between the on-screen bone and the on-screen vector from the joint
    to the pointer. *)
Record View : Type := mkView {
  forward : Vec3;
  pos : Vec3;
  mouse_dir : Vec3;
  screenAngle : Vec3 -> Vec3 -> R -> R -> R }.

Definition dragStart (s : State) (mouse : MouseEvent) : State :=
  if Rlt_dec 600 (offsetY mouse) then s
  else mkState (mesh s) (keyFrames s) (selectedBone s)
         (match selectedBone s with Some _ => true | None => boneDragging s end)
         true (screenX mouse) (screenY mouse) (time s) (mode s) (camera s).

Definition dragEnd (s : State) : State :=
  mkState (mesh s) (keyFrames s) (selectedBone s) false false 0 0
          (time s) (mode s) (camera s).

Definition RADIUS_BONE : R := 1 / 10.

Definition MAX_SAFE_INTEGER : R := IZR 9007199254740991.

Definition MAX_VALUE_Z : Z := Eval vm_compute in (2 ^ 1024 - 2 ^ 971)%Z.

Definition MAX_VALUE : R := IZR MAX_VALUE_Z.

Definition Rleb (a b : R) : bool := if Rle_dec a b then true else false.

(** [intersectCilinder(pos, dirNotN, dist)]; the result [NaN] is [None].
    When [a] is zero both quotients are [0 / 0] in JavaScript, that is
    [NaN], for which both range tests fail. *)
Definition intersectCilinder (pos dirNotN : Vec3) (dist : R) : option R :=
  let dir := Vec3_normalize dirNotN in
  let a := vx dir * vx dir + vz dir * vz dir in
  let b := 2 * (vx pos * vx dir + vz pos * vz dir) in
  let c := vx pos * vx pos + vz pos * vz pos - RADIUS_BONE * RADIUS_BONE in
  let discriminant := b * b - 4 * a * c in
  if Rlt_dec discriminant 0 then None
  else if Req_EM_T a 0 then None
  else
    let t1 := (- b - sqrt discriminant) / (2 * a) in
    let t2 := (- b + sqrt discriminant) / (2 * a) in
    let y1 := vy pos + t1 * vy dir in
    let y2 := vy pos + t2 * vy dir in
    let ans := MAX_VALUE in
    let ans := if Rleb 0 y1 && Rleb y1 dist then Rmin ans t1 else ans in
    let ans := if Rleb 0 y2 && Rleb y2 dist then Rmin ans t2 else ans in
    if Req_EM_T ans MAX_VALUE then None else Some ans.

Section Picking.

(** [Mat3.inverse] of the vector library; [None] stands for a result on
    which the following [.copy()] fails. *)
Variable inverse : Mat3 -> option Mat3.

(** Body of the first loop of the picking branch of [drag], for
    [cur_bone]. *)
Definition intersectBone (h : Heap) (cur_bone : Bone) (pos mouse_dir : Vec3)
    : res (option R) :=
  let dist := Vec3_distance (getVec3 h (endpoint cur_bone))
                            (getVec3 h (position cur_bone)) in
  let axis := Vec3_difference (getVec3 h (endpoint cur_bone))
                              (getVec3 h (position cur_bone)) in
  let tang := Vec3_normalize axis in
  let test_random := Vec3_dot tang (mkVec3 0 1 0) in
  let random := if Rlt_dec (Rabs test_random) (999 / 1000)
                then mkVec3 0 1 0 else mkVec3 1 0 0 in
  let y := Vec3_normalize (Vec3_cross tang random) in
  let x := Vec3_normalize (Vec3_cross tang y) in
  match inverse (mkMat3 (vx y) (vy y) (vz y)
                        (vx tang) (vy tang) (vz tang)
                        (vx x) (vy x) (vz x)) with
  | None => TypeError
  | Some Tmatrix =>
      let dir_transformed := Mat3_multiplyVec3 Tmatrix mouse_dir in
      let pos_transformed :=
        Mat3_multiplyVec3 Tmatrix
          (Vec3_difference pos (getVec3 h (position cur_bone))) in
      Ok (intersectCilinder pos_transformed dir_transformed dist)
  end.

Fixpoint intersectLoop (h : Heap) (bs : list Bone) (pos mouse_dir : Vec3)
    : res (list (option R)) :=
  match bs with
  | [] => Ok []
  | cur_bone :: bs' =>
      r <- intersectBone h cur_bone pos mouse_dir ;;
      rs <- intersectLoop h bs' pos mouse_dir ;;
      Ok (r :: rs)
  end.

Definition setHighlight (b : Bone) (v : bool) : Bone :=
  mkBone (parent b) (children b) (position b) (endpoint b) (rotation b) v
         (T_ij b) (R_i b) (initPosition b) (initEndpoint b).

(** The loop variables of the second loop: [HighlightIndex], [minT], the
    bone array and [this.selectedBone]. *)
Record PickVars : Type := mkPickVars {
  HighlightIndex : option Z;
  minT : R;
  p_bones : list Bone;
  p_selectedBone : option Z }.

Fixpoint highlightLoop (intersects : list (option R)) (i : Z) (v : PickVars)
    : res PickVars :=
  match intersects with
  | [] => Ok v
  | x :: rest =>
      let '(hi, mt) :=
        match x with
        | Some t => if Rle_dec t (minT v) then (Some i, t)
                    else (HighlightIndex v, minT v)
        | None => (HighlightIndex v, minT v)
        end in
      match bone_at (p_bones v) i with
      | None => TypeError
      | Some b =>
          highlightLoop rest (i + 1)
            (mkPickVars hi mt (set_bone (p_bones v) i (setHighlight b false)) NaN)
      end
  end.

(** The picking branch of [drag] ([!this.dragging]), for the ray from [pos]
    along [mouse_dir]. *)
Definition pick (s : State) (pos mouse_dir : Vec3) : res State :=
  intersects <- intersectLoop (heap (mesh s)) (bones (mesh s)) pos mouse_dir ;;
  v <- highlightLoop intersects 0
         (mkPickVars NaN MAX_SAFE_INTEGER (bones (mesh s)) (selectedBone s)) ;;
  match HighlightIndex v with
  | Some hi =>
      match bone_at (p_bones v) hi with
      | None => TypeError
      | Some b =>
          Ok (mkState (mkMesh (heap (mesh s))
                         (set_bone (p_bones v) hi (setHighlight b true)))
                (keyFrames s) (Some hi) (boneDragging s) (dragging s)
                (prevX s) (prevY s) (time s) (mode s) (camera s))
      end
  | None =>
      Ok (mkState (mkMesh (heap (mesh s)) (p_bones v))
            (keyFrames s) (p_selectedBone v) (boneDragging s) (dragging s)
            (prevX s) (prevY s) (time s) (mode s) (camera s))
  end.

(** [drag(mouse)] while dragging, after the test for a zero movement:
    the selected bone is rotated about the camera's forward vector, or else
    the camera is moved. *)
Definition dragMove (fuel : nat) (s : State) (mouse : MouseEvent) (view : View)
    : res State :=
  if boneDragging s && (buttons mouse =? 1)%Z then
    match selected_bone s with
    | None => TypeError
    | Some b =>
        let angle :=
          screenAngle view (getVec3 (heap (mesh s)) (position b))
            (getVec3 (heap (mesh s)) (endpoint b))
            (offsetX mouse) (offsetY mouse) in
        match selectedBone s with
        | Some i =>
            m1 <- Scene.Mesh_rotateBone (mesh s) i (forward view) angle ;;
            m2 <- Scene.updateMesh fuel m1 i None None ;;
            Ok (with_mesh s m2)
        | None => Ok s
        end
    end
  else if (buttons mouse =? 1)%Z then Ok (with_camera s (orbitTarget rotationSpeed))
  else if (buttons mouse =? 2)%Z then Ok (with_camera s (offsetDist true))
  else Ok s.

(** [drag(mouse)]. *)
Definition drag (fuel : nat) (s : State) (mouse : MouseEvent) (view : View)
    : res State :=
  if dragging s then
    let dx := screenX mouse - prevX s in
    let dy := screenY mouse - prevY s in
    let s := mkState (mesh s) (keyFrames s) (selectedBone s) (boneDragging s)
               (dragging s) (screenX mouse) (screenY mouse) (time s) (mode s)
               (camera s) in
    if Req_EM_T dx 0 then
      if Req_EM_T dy 0 then Ok s else dragMove fuel s mouse view
    else dragMove fuel s mouse view
  else pick s (pos view) (mouse_dir view).

End Picking.

End Gui.

(** ** The draw loop of [App.ts] and the event loop *)

Module App.

Import Gui.

Section Draw.

(** [Quat.slerpShort] of the vector library (spherical interpolation); it
    returns a new quaternion. *)
Variable Quat_slerpShort : Quat -> Quat -> R -> Quat.

Variable inverse : Mat3 -> option Mat3.

(** [keyFrames[i]] for a number [i]. *)
Definition keyFrame_at (kfs : list KeyFrame) (i : Z) : option KeyFrame :=
  if (i <? 0)%Z then None else nth_error kfs (Z.to_nat i).

(** First loop of the playback branch of [draw], [n] bones left from
    index [i]. *)
Fixpoint interpolateLoop (n : nat) (i : Z) (m : Mesh)
    (keyframe1 keyframe2 : option KeyFrame) (t : R) : res Mesh :=
  match n with
  | O => Ok m
  | S n' =>
      match keyframe1, keyframe2 with
      | Some k1, Some k2 =>
          match bone_at (kf_bones k1) i, bone_at (kf_bones k2) i,
                bone_at (bones m) i with
          | Some b1, Some b2, Some b =>
              let '(rot, h) :=
                newQuat (heap m)
                  (Quat_slerpShort (getQuat (heap m) (rotation b1))
                                   (getQuat (heap m) (rotation b2)) t) in
              let '(ri, h) :=
                newQuat h
                  (Quat_slerpShort (getQuat h (R_i b1)) (getQuat h (R_i b2)) t) in
              interpolateLoop n' (i + 1)
                (mkMesh h
                   (set_bone (bones m) i
                      (mkBone (parent b) (children b) (position b) (endpoint b)
                              rot (isHighlight b) (T_ij b) ri
                              (initPosition b) (initEndpoint b))))
                keyframe1 keyframe2 t
          | _, _, _ => TypeError
          end
      | _, _ => TypeError
      end
  end.

(** Second loop of the playback branch: every root bone is recomputed with
    its descendants. *)
Fixpoint rootsLoop (fuel : nat) (n : nat) (i : Z) (m : Mesh) : res Mesh :=
  match n with
  | O => Ok m
  | S n' =>
      match bone_at (bones m) i with
      | None => TypeError
      | Some b =>
          if (parent b =? -1)%Z
          then m' <- Scene.calculateD_iAndTranslate fuel m i None ;;
               rootsLoop fuel n' (i + 1) m'
          else rootsLoop fuel n' (i + 1) m
      end
  end.

Definition keyFrame1Index (s : State) : Z := Int_part (time s).

Definition keyFrame2Index (s : State) : Z := (keyFrame1Index s + 1)%Z.

(** The playback branch of [draw]. *)
Definition playbackStep (fuel : nat) (s : State) : res State :=
  let keyframe1 := keyFrame_at (keyFrames s) (keyFrame1Index s) in
  let keyframe2 := keyFrame_at (keyFrames s) (keyFrame2Index s) in
  let t := time s - IZR (keyFrame1Index s) in
  m1 <- interpolateLoop (length (bones (mesh s))) 0 (mesh s)
          keyframe1 keyframe2 t ;;
  m2 <- rootsLoop fuel (length (bones m1)) 0 m1 ;;
  Ok (with_mesh s m2).

(** [draw()], up to the rendering: [deltaT] is the time since the previous
    frame, in seconds. *)
Definition draw (fuel : nat) (s : State) (deltaT : R) : res State :=
  let s := incrementTime s deltaT in
  match mode s with
  | playback => playbackStep fuel s
  | edit => Ok s
  end.

(** The events the editor reacts to. *)
Inductive Event : Type :=
| Keydown (key : KeyCode)
| MouseDown (mouse : MouseEvent)
| MouseMove (mouse : MouseEvent) (view : View)
| MouseUp
| Frame (deltaT : R).

Definition step (fuel : nat) (s : State) (e : Event) : res State :=
  match e with
  | Keydown key => onKeydown fuel s key
  | MouseDown mouse => Ok (dragStart s mouse)
  | MouseMove mouse view => drag inverse fuel s mouse view
  | MouseUp => Ok (dragEnd s)
  | Frame deltaT => draw fuel s deltaT
  end.

Fixpoint run (fuel : nat) (s : State) (es : list Event) : res State :=
  match es with
  | [] => Ok s
  | e :: es' => s' <- step fuel s e ;; run fuel s' es'
  end.

End Draw.

(** The timeline of the status bar, in [draw]: it starts at [timelineX] and
    is [timelineWidth] wide. *)
Definition timelineX : R := 300.

Definition timelineWidth : R := 430.

(** The horizontal position of the slider on the timeline, as [draw]
    computes it; [None] when no slider is drawn, that is, with fewer than two
    keyframes. *)
Definition sliderPosition (s : State) : option R :=
  let totalTime := INR (getNumKeyFrames s) - 1 in
  let currentTime := time s in
  if (1 <? length (keyFrames s))%nat
  then Some (currentTime / totalTime * timelineWidth + timelineX)
  else None.

End App.

(** ** Predicates used in the statements, and sample data *)

(** A frame event carries the time elapsed since the previous frame, which
    is not negative. *)
Definition elapsed_ok (e : App.Event) : Prop :=
  match e with
  | App.Frame deltaT => 0 <= deltaT
  | _ => True
  end.

(** Whenever the editor is in Playback mode the cursor is not negative. *)
Definition cursor_ok (s : Gui.State) : Prop :=
  Gui.mode s = Gui.playback -> 0 <= Gui.time s.

Module Examples.

Import Gui.

Definition noMesh : Mesh := mkMesh Store.empty [].

(** The state after [reset()], with an empty skeleton. *)
Definition initial : State :=
  mkState noMesh [] NaN false false 0 0 0 edit [].

Definition twoKeyFrames : State :=
  mkState noMesh [mkKeyFrame []; mkKeyFrame []] NaN false false 0 0 0 edit [].

Definition playing : State :=
  mkState noMesh [mkKeyFrame []; mkKeyFrame []] NaN false false 0 0 0 playback [].

End Examples.

(** ** Well-formed stores *)

(** [extends h h']: [h'] has every object of [h], unchanged, and possibly
    more. *)
Definition extends (h h' : Heap) : Prop :=
  (exists a, vec3s h' = vec3s h ++ a) /\
  (exists a, quats h' = quats h ++ a) /\
  (exists a, mat4s h' = mat4s h ++ a).

(** All references of a bone point to objects of the store. *)
Definition wf_bone (h : Heap) (b : Bone) : Prop :=
  (position b < length (vec3s h))%nat /\
  (endpoint b < length (vec3s h))%nat /\
  (initPosition b < length (vec3s h))%nat /\
  (initEndpoint b < length (vec3s h))%nat /\
  (rotation b < length (quats h))%nat /\
  (R_i b < length (quats h))%nat /\
  (T_ij b < length (mat4s h))%nat.

Definition wf_mesh (m : Mesh) : Prop := Forall (wf_bone (heap m)) (bones m).

Definition wf_state (s : Gui.State) : Prop :=
  wf_mesh (Gui.mesh s) /\
  Forall (fun kf => Forall (wf_bone (heap (Gui.mesh s))) (Gui.kf_bones kf))
         (Gui.keyFrames s).

(** Two versions of a bone with the same hierarchy links and the same
    bind-pose objects. *)
Definition same_bind (b b' : Bone) : Prop :=
  parent b' = parent b /\ children b' = children b /\ T_ij b' = T_ij b /\
  initPosition b' = initPosition b /\ initEndpoint b' = initEndpoint b.

(** The references of a bone, by class. *)
Definition vec3_refs (b : Bone) : list ref :=
  [position b; endpoint b; initPosition b; initEndpoint b].

Definition quat_refs (b : Bone) : list ref := [rotation b; R_i b].

Definition mat4_refs (b : Bone) : list ref := [T_ij b].

(** Two bones share no object. *)
Definition disjoint_bones (b b' : Bone) : Prop :=
  (forall r, In r (vec3_refs b) -> ~ In r (vec3_refs b')) /\
  (forall r, In r (quat_refs b) -> ~ In r (quat_refs b')) /\
  (forall r, In r (mat4_refs b) -> ~ In r (mat4_refs b')).

(** A keyframe and the live skeleton share no object. *)
Definition shares_no_object (kf : Gui.KeyFrame) (live : list Bone) : Prop :=
  forall kb lb, In kb (Gui.kf_bones kf) -> In lb live -> disjoint_bones kb lb.


Module Examples2.

(** A root bone and one child, as the loader supplies them. *)
Definition rootL : BoneLoader :=
  mkBoneLoader (-1) [1%Z] (mkVec3 1 2 3) (mkVec3 1 3 3) Quat_identity.

Definition childL : BoneLoader :=
  mkBoneLoader 0 [] (mkVec3 4 6 8) (mkVec3 4 7 8) Quat_identity.

End Examples2.


(** Two versions of a bone that differ at most in the derived fields
    [position], [endpoint] and [rotation]. *)
Definition same_local (b b' : Bone) : Prop :=
  same_bind b b' /\ R_i b' = R_i b /\ isHighlight b' = isHighlight b.

(** [m'] is a later state of the mesh [m]: no object of [m] was mutated, and
    each bone is related to its earlier version by [R]. *)
Definition evolves (R : Bone -> Bone -> Prop) (m m' : Mesh) : Prop :=
  wf_mesh m' /\ extends (heap m) (heap m') /\ Forall2 R (bones m) (bones m').

Module Examples3.

Definition bone0 : Bone :=
  mkBone (-1) [] 0%nat 1%nat 0%nat false 0%nat 1%nat 2%nat 3%nat.

(** A skeleton of one root bone from (0,0,0) to (0,2,0), in bind pose. *)
Definition mesh1 : Mesh :=
  mkMesh (mkHeap [mkVec3 0 0 0; mkVec3 0 2 0; mkVec3 0 0 0; mkVec3 0 2 0]
                 [Quat_identity; Quat_identity]
                 [Mat4_identity])
         [bone0].

(** The editor in Edit mode on that skeleton, nothing selected. *)
Definition editing : Gui.State :=
  Gui.mkState mesh1 [] Gui.NaN false false 0 0 0 Gui.edit [].

(** The state after the capture key. *)
Definition captured : Gui.State :=
  Eval cbv -[Rplus Rminus Rmult Rinv Ropp Rdiv IZR] in
  match Gui.onKeydown 0 editing Gui.KeyK with
  | Ok s => s
  | _ => editing
  end.

(** The two-bone skeleton (a root and its child) as the constructor of the
    later revision builds it. *)
Definition mesh2 : Mesh :=
  Eval cbv -[Rplus Rminus Rmult Rinv Ropp Rdiv IZR] in
  match Scene.Mesh_constructor Store.empty [Examples2.rootL; Examples2.childL] with
  | Ok m => m
  | _ => mkMesh Store.empty []
  end.

End Examples3.

(** ** Pose edits *)

(** The skeleton operations an edit session performs. *)
Inductive Edit : Type :=
| RotateBone (i : Z) (axis : Vec3) (angle : R)
| UpdateMesh (i : Z)
| Propagate (i : Z).

Definition applyEdit (fuel : nat) (m : Mesh) (e : Edit) : res Mesh :=
  match e with
  | RotateBone i axis angle => Scene.Mesh_rotateBone m i axis angle
  | UpdateMesh i => Scene.updateMesh fuel m i None None
  | Propagate i => Scene.calculateD_iAndTranslate fuel m i None
  end.

Fixpoint runEdits (fuel : nat) (m : Mesh) (es : list Edit) : res Mesh :=
  match es with
  | [] => Ok m
  | e :: es' => m' <- applyEdit fuel m e ;; runEdits fuel m' es'
  end.

(** An edit addresses a bone of a skeleton of [n] bones, and a rotation is
    by a unit quaternion. *)
Definition edit_ok (n : nat) (e : Edit) : Prop :=
  match e with
  | RotateBone i axis angle =>
      (0 <= i < Z.of_nat n)%Z /\ unitQuat (Quat_fromAxisAngle axis angle)
  | UpdateMesh i => (0 <= i < Z.of_nat n)%Z
  | Propagate i => (0 <= i < Z.of_nat n)%Z
  end.

(** A bone whose bind offset is a rigid transform, whose local rotation is a
    unit quaternion, and whose current length is its bind-pose length. *)
Definition good (h : Heap) (b : Bone) : Prop :=
  rigid (getMat4 h (T_ij b)) /\
  unitQuat (getQuat h (R_i b)) /\
  Vec3_squaredDistance (getVec3 h (position b)) (getVec3 h (endpoint b))
  = Vec3_squaredDistance (getVec3 h (initPosition b)) (getVec3 h (initEndpoint b)).



(** Two versions of a bone that differ at most in [isHighlight]. *)
Definition same_refs (b b' : Bone) : Prop :=
  same_local (mkBone (parent b) (children b) (position b) (endpoint b)
                (rotation b) (isHighlight b') (T_ij b) (R_i b)
                (initPosition b) (initEndpoint b)) b' /\
  position b' = position b /\ endpoint b' = endpoint b /\
  rotation b' = rotation b.


(** ** The shape of the hierarchy *)

(** The hierarchy links of a skeleton: per bone, the parent index and the
    child indices. *)
Definition links (b : Bone) : Z * list Z := (parent b, children b).

Definition links_of (bs : list Bone) : list (Z * list Z) := map links bs.

Definition link_at (sk : list (Z * list Z)) (i : Z) : option (Z * list Z) :=
  if (i <? 0)%Z then None else nth_error sk (Z.to_nat i).

(** Number of parent links from bone [i] up to its root, if a root is
    reached within [fuel] bones. *)
Fixpoint depth (fuel : nat) (sk : list (Z * list Z)) (i : Z) : option nat :=
  match fuel with
  | O => None
  | S fuel' =>
      match link_at sk i with
      | None => None
      | Some (p, _) =>
          if (p =? -1)%Z then Some O else option_map S (depth fuel' sk p)
      end
  end.

(** [c] is a bone whose parent is [i]. *)
Definition child_ok (sk : list (Z * list Z)) (i c : Z) : bool :=
  match link_at sk c with
  | Some (p, _) => (p =? i)%Z
  | None => false
  end.

Fixpoint forest_from (sk : list (Z * list Z)) (i : Z) (todo : list (Z * list Z)) : bool :=
  match todo with
  | [] => true
  | (_, cs) :: todo' =>
      match depth (length sk) sk i with Some _ => true | None => false end
      && forallb (child_ok sk i) cs
      && forest_from sk (i + 1) todo'
  end.

(** The links form a forest of rooted trees: from every bone the parent
    links lead to a root (no cycle, every parent index in range), and every
    listed child is a bone whose parent is the listing bone. *)
Definition forest (sk : list (Z * list Z)) : bool := forest_from sk 0 sk.


(** What the constructor makes of a loader bone. *)
Definition loaded (h : Heap) (l : BoneLoader) (b : Bone) : Prop :=
  values h b = mkBoneValues (l_position l) (l_endpoint l) (l_rotation l)
                 Mat4_identity Quat_identity (l_position l) (l_endpoint l) /\
  links b = (l_parent l, l_children l).

(** The second loop of the constructor writes matrices only. *)
Definition same_but_mat4 (h h' : Heap) : Prop :=
  vec3s h' = vec3s h /\ quats h' = quats h /\
  length (mat4s h') = length (mat4s h) /\
  (forall r, rigid (getMat4 h r) -> rigid (getMat4 h' r)).

(** ** Predicates about a picking pass *)

Definition unhighlight (b : Bone) : Bone := Gui.setHighlight b false.

(** The pair [(HighlightIndex, minT)] after the second loop of the picking
    pass has seen the hit distances [ints], the first of them at index
    [i]. *)
Definition nearest_step (acc : option Z * R) (i : Z) (x : option R) : option Z * R :=
  match x with
  | Some t => if Rle_dec t (snd acc) then (Some i, t) else acc
  | None => acc
  end.

Fixpoint nearest (ints : list (option R)) (i : Z) (acc : option Z * R) : option Z * R :=
  match ints with
  | [] => acc
  | x :: rest => nearest rest (i + 1) (nearest_step acc i x)
  end.

(** Bone [k] is hit at distance [t]: [intersectCilinder] returns the number
    [t] for it. *)
Definition hit (inverse : Mat3 -> option Mat3) (s : Gui.State) (pos mouse_dir : Vec3)
    (k : Z) (t : R) : Prop :=
  exists b, bone_at (bones (Gui.mesh s)) k = Some b /\
            Gui.intersectBone inverse (heap (Gui.mesh s)) b pos mouse_dir = Ok (Some t).

(** The highlighted bone [hi] attains the smallest positive hit distance:
    the reading of the picking result with distances restricted to positive
    ones. *)
Definition nearest_positive_hit (inverse : Mat3 -> option Mat3) (s : Gui.State)
    (pos mouse_dir : Vec3) (hi : Z) : Prop :=
  exists t, hit inverse s pos mouse_dir hi t /\ 0 < t /\
            forall k t', hit inverse s pos mouse_dir k t' -> 0 < t' -> t <= t'.


Module Examples4.

Import Gui.

Definition boneA : Bone :=
  mkBone (-1) [] 0%nat 1%nat 0%nat false 0%nat 0%nat 0%nat 1%nat.

Definition boneB : Bone :=
  mkBone (-1) [] 2%nat 3%nat 0%nat false 0%nat 0%nat 2%nat 3%nat.

(** Two upright bones of length 1: [boneA] from (0,0,5) to (0,1,5) and
    [boneB] from (0,0,-5) to (0,1,-5); the pointer moves, nothing is
    selected. *)
Definition hover : State :=
  mkState
    (mkMesh (mkHeap [mkVec3 0 0 5; mkVec3 0 1 5; mkVec3 0 0 (-5); mkVec3 0 1 (-5)]
                    [Quat_identity] [Mat4_identity])
            [boneA; boneB])
    [] NaN false false 0 0 0 edit [].

(** A camera at (0, 1/2, 0) looking along +Z: [boneA] is in front of it and
    [boneB] behind it. *)
Definition eye : Vec3 := mkVec3 0 (1 / 2) 0.

Definition ahead : Vec3 := mkVec3 0 0 1.

End Examples4.


(** A bone drag is in progress only while dragging, and only with a bone
    selected. *)
Definition drag_ok (s : Gui.State) : Prop :=
  Gui.boneDragging s = true ->
  Gui.dragging s = true /\ Gui.selectedBone s <> Gui.NaN.


(** ** The cursor and the timeline *)

(** The cursor is not negative; it is 0 or before the last keyframe; and
    playback is on only with two keyframes or more. *)
Definition timeline_ok (s : Gui.State) : Prop :=
  0 <= Gui.time s /\
  (Gui.time s = 0 \/ Gui.time s < Gui.getMaxTime s) /\
  (Gui.mode s = Gui.playback -> (2 <= Gui.getNumKeyFrames s)%nat).

(** The sum of the frame times of a list of frames. *)
Definition total (dts : list R) : R := fold_right Rplus 0 dts.


(** The selection, when there is one, is the index of a bone of the
    skeleton. *)
Definition selection_ok (s : Gui.State) : Prop :=
  forall i, Gui.selectedBone s = Some i ->
            exists b, bone_at (bones (Gui.mesh s)) i = Some b.


(** ** The side of a bone's cylinder *)

(** The point of the ray from [pos] along [dir] at parameter [t] lies on the
    side of the cylinder of radius [RADIUS_BONE] about the local Y axis, at
    a height between 0 and [dist]. *)
Definition on_side (pos dir : Vec3) (dist t : R) : Prop :=
  (vx pos + t * vx dir) * (vx pos + t * vx dir)
  + (vz pos + t * vz dir) * (vz pos + t * vz dir)
  = Gui.RADIUS_BONE * Gui.RADIUS_BONE /\
  0 <= vy pos + t * vy dir <= dist.

(** The state a picking pass ends in, from the hit distances of the
    bones. *)
Definition picked (s : Gui.State) (ints : list (option R)) : res Gui.State :=
  match fst (nearest ints 0 (Gui.NaN, Gui.MAX_SAFE_INTEGER)) with
  | Some hi =>
      match bone_at (map unhighlight (bones (Gui.mesh s))) hi with
      | None => TypeError
      | Some b =>
          Ok (Gui.mkState
                (mkMesh (heap (Gui.mesh s))
                   (set_bone (map unhighlight (bones (Gui.mesh s))) hi
                      (Gui.setHighlight b true)))
                (Gui.keyFrames s) (Some hi) (Gui.boneDragging s) (Gui.dragging s)
                (Gui.prevX s) (Gui.prevY s) (Gui.time s) (Gui.mode s)
                (Gui.camera s))
      end
  | None =>
      Ok (Gui.mkState
            (mkMesh (heap (Gui.mesh s)) (map unhighlight (bones (Gui.mesh s))))
            (Gui.keyFrames s)
            (match ints with [] => Gui.selectedBone s | _ :: _ => Gui.NaN end)
            (Gui.boneDragging s) (Gui.dragging s)
            (Gui.prevX s) (Gui.prevY s) (Gui.time s) (Gui.mode s) (Gui.camera s))
  end.


Module Examples5.

Import Gui.

(** The two-bone skeleton with its root bone, of length 1, selected. *)
Definition rolling : State :=
  mkState Examples3.mesh2 [] (Some 0%Z) false false 0 0 0 edit [].

(** Two bones at the same place, both from (0,0,5) to (0,1,5). *)
Definition twins : State :=
  mkState (mkMesh (heap (mesh Examples4.hover)) [Examples4.boneA; Examples4.boneA])
          [] NaN false false 0 0 0 edit [].

(** A pointer move, and a camera at [eye] that looks along [ahead]. *)
Definition move : MouseEvent := mkMouseEvent 400 300 400 300 0.

Definition look : View :=
  mkView Examples4.ahead Examples4.eye Examples4.ahead (fun _ _ _ _ => 0).


(** [rolling] after the capture key. *)
Definition rolling_captured : State :=
  Eval cbv -[Rplus Rminus Rmult Rinv Ropp Rdiv IZR] in
  match onKeydown 3 rolling KeyK with
  | Ok s => s
  | _ => rolling
  end.

(** [rolling_captured] after ArrowLeft, a second capture and the playback
    key: two keyframes, Playback mode, cursor 0. *)
Definition rolling_playback : State :=
  Eval cbv -[Rplus Rminus Rmult Rinv Ropp Rdiv IZR sqrt sin cos Rabs Rmin
             Rle_dec Rlt_dec Req_EM_T Int_part INR] in
  match App.run (fun q _ _ => q) Mat3_inverse 3 rolling_captured
          [App.Keydown ArrowLeft; App.Keydown KeyK; App.Keydown KeyP] with
  | Ok s => s
  | _ => rolling
  end.

End Examples5.


(** ** Colours of the skeleton *)

(** The colour of a highlighted bone, and of the others, as red, green,
    blue and alpha. *)
Definition green : list R := [0; 1; 0; 1].

Definition red : list R := [1; 0; 0; 1].


(** ** Hierarchies a skeleton can be built from, and hierarchies with a cycle *)

(** Every parent index of the loaded bones is -1 or the index of a loaded
    bone. *)
Definition parents_ok (ls : list BoneLoader) : bool :=
  forallb (fun l => (l_parent l =? -1)%Z
                    || ((0 <=? l_parent l)%Z
                        && (l_parent l <? Z.of_nat (length ls))%Z)) ls.

(** From every bone in [S] the parent link leads to a bone in [S]: no bone
    of [S] has a root above it. *)
Definition rootless (bs : list Bone) (S : Z -> Prop) : Prop :=
  forall i, S i ->
    exists b, bone_at bs i = Some b /\ parent b <> (-1)%Z /\ S (parent b).

(** The bind offset of a loaded bone: its position for a root, and its
    position relative to its parent otherwise. *)
Definition bindOffset (ls : list BoneLoader) (l : BoneLoader) : Vec3 :=
  if (l_parent l =? -1)%Z then l_position l
  else match nth_error ls (Z.to_nat (l_parent l)) with
       | Some p => Vec3_difference (l_position l) (l_position p)
       | None => l_position l
       end.

Module Examples6.

(** A bone that is its own parent. *)
Definition loop : Mesh :=
  mkMesh (mkHeap [mkVec3 0 0 0; mkVec3 0 1 0] [Quat_identity] [Mat4_identity])
         [mkBone 0 [] 0%nat 1%nat 0%nat false 0%nat 0%nat 0%nat 1%nat].

(** A loaded bone whose parent index is not the index of a bone. *)
Definition orphanL : BoneLoader :=
  mkBoneLoader 5 [] (mkVec3 0 0 0) (mkVec3 0 1 0) Quat_identity.

End Examples6.


(** ** Forward kinematics *)

(** [descends sk i j]: bone [j] is bone [i], or is reached from it through
    lists of children. *)
Inductive descends (sk : list (Z * list Z)) : Z -> Z -> Prop :=
| descends_self (i : Z) : descends sk i i
| descends_child (i p : Z) (cs : list Z) (c j : Z) :
    link_at sk i = Some (p, cs) -> In c cs -> descends sk c j ->
    descends sk i j.

(** Bone [j] is posed: its position and endpoint are the images, under the
    bone's transform [getD_i], of the local origin and of the bind-pose
    vector from joint to endpoint, and its rotation is [getR_i]. *)
Definition posed (m : Mesh) (j : Z) : Prop :=
  exists fuel b D q,
    bone_at (bones m) j = Some b /\
    Scene.getD_i fuel m j = Ok D /\ Scene.getR_i fuel m j = Ok q /\
    getVec3 (heap m) (position b) = Mat4_multiplyPt3 D (mkVec3 0 0 0) /\
    getVec3 (heap m) (endpoint b)
    = Mat4_multiplyPt3 D
        (Vec3_difference (getVec3 (heap m) (initEndpoint b))
                         (getVec3 (heap m) (initPosition b))) /\
    getQuat (heap m) (rotation b) = q.

(** The same for the position and the endpoint alone. *)
Definition placed (m : Mesh) (j : Z) : Prop :=
  exists fuel b D,
    bone_at (bones m) j = Some b /\
    Scene.getD_i fuel m j = Ok D /\
    getVec3 (heap m) (position b) = Mat4_multiplyPt3 D (mkVec3 0 0 0) /\
    getVec3 (heap m) (endpoint b)
    = Mat4_multiplyPt3 D
        (Vec3_difference (getVec3 (heap m) (initEndpoint b))
                         (getVec3 (heap m) (initPosition b))).


(** What a recomputation of the subtree of [bone] keeps: no object is
    mutated, a posed bone stays posed, a placed bone stays placed, and the
    bones outside the subtree are as they were. *)
Definition kept (sk : list (Z * list Z)) (bone : Z) (m m' : Mesh) : Prop :=
  evolves same_local m m' /\
  (forall j, posed m j -> posed m' j) /\
  (forall j, placed m j -> placed m' j) /\
  (forall j, ~ descends sk bone j -> bone_at (bones m') j = bone_at (bones m) j).

(** The translation that the constructor of [Mesh] applies to the matrix
    [T_ij] of [bone]. *)
Definition translation_of (all : list Bone) (h : Heap) (bone : Bone) : Vec3 :=
  if (parent bone =? -1)%Z then getVec3 h (initPosition bone)
  else match bone_at all (parent bone) with
       | Some p => Vec3_difference (getVec3 h (initPosition bone))
                                   (getVec3 h (initPosition p))
       | None => Vec3_zero
       end.

(** The transform and the rotation handed down to a bone are those of its
    parent. *)
Definition handed_down (m : Mesh) (bone : Z)
    (D_parent : option Mat4) (rot_parent : option Quat) : Prop :=
  match D_parent, rot_parent with
  | Some D, Some r =>
      exists b F, bone_at (bones m) bone = Some b /\ parent b <> (-1)%Z /\
                  Scene.getD_i F m (parent b) = Ok D /\
                  Scene.getR_i F m (parent b) = Ok r
  | None, None => True
  | _, _ => False
  end.


Module Examples7.

(** The two-bone skeleton that [src/skinning/Scene.ts] builds from the root
    [rootL] and its child [childL], and the same after
    [updateMesh(0, null, null)]. *)
Definition built : Mesh :=
  Eval cbv -[Rplus Rminus Rmult Rinv Ropp Rdiv IZR] in
  match SceneTs.Mesh_constructor Store.empty [Examples2.rootL; Examples2.childL] with
  | Ok m => m
  | _ => mkMesh Store.empty []
  end.

Definition updated : Mesh :=
  Eval cbv -[Rplus Rminus Rmult Rinv Ropp Rdiv IZR] in
  match SceneTs.updateMesh 3 built 0 None None with
  | Ok m => m
  | _ => mkMesh Store.empty []
  end.

End Examples7.


(** * Properties *)

Import Gui App.

(** Evaluation of the model on sample data, leaving the arithmetic of real
    numbers as it is. *)
Ltac evalR :=
  cbv -[Rplus Rminus Rmult Rinv Ropp Rdiv IZR sqrt sin cos Rabs Rmin
        Rle_dec Rlt_dec Req_EM_T Int_part INR].

(** ** Rigid transforms *)

Lemma Quat_product_unit (p q : Quat) :
  unitQuat p -> unitQuat q -> unitQuat (Quat_product p q).
Proof.
  unfold unitQuat, Quat_norm2; destruct p, q; simpl; intros Hp Hq.
  transitivity ((qx0 * qx0 + qy0 * qy0 + qz0 * qz0 + qw0 * qw0)
                * (qx1 * qx1 + qy1 * qy1 + qz1 * qz1 + qw1 * qw1)).
  - ring.
  - rewrite Hp, Hq; ring.
Qed.

Lemma Quat_identity_unit : unitQuat Quat_identity.
Proof. unfold unitQuat, Quat_norm2; simpl; ring. Qed.

Lemma Quat_fromAxisAngle_unit (axis : Vec3) (angle : R) :
  vx axis * vx axis + vy axis * vy axis + vz axis * vz axis = 1 ->
  unitQuat (Quat_fromAxisAngle axis angle).
Proof.
  intros H; unfold unitQuat, Quat_norm2, Quat_fromAxisAngle; simpl.
  pose proof (sin2_cos2 (angle * / 2)) as Hsc; unfold Rsqr in Hsc.
  transitivity ((vx axis * vx axis + vy axis * vy axis + vz axis * vz axis)
                * (sin (angle * / 2) * sin (angle * / 2))
                + cos (angle * / 2) * cos (angle * / 2)).
  - ring.
  - rewrite H; lra.
Qed.

Lemma Mat4_product_affine (a b : Mat4) :
  affine a -> affine b -> affine (Mat4_product a b).
Proof.
  unfold affine; destruct a, b; simpl.
  intros (-> & -> & -> & ->) (-> & -> & -> & ->).
  repeat split; ring.
Qed.

Lemma Mat4_product_multiplyPt3 (a b : Mat4) (v : Vec3) :
  affine b ->
  Mat4_multiplyPt3 (Mat4_product a b) v
  = Mat4_multiplyPt3 a (Mat4_multiplyPt3 b v).
Proof.
  unfold affine; destruct a, b, v; simpl.
  intros (-> & -> & -> & ->).
  unfold Mat4_multiplyPt3; simpl; f_equal; ring.
Qed.

Lemma Mat4_product_rigid (a b : Mat4) :
  rigid a -> rigid b -> rigid (Mat4_product a b).
Proof.
  intros [Ha Da] [Hb Db]; split.
  - now apply Mat4_product_affine.
  - intros u v. rewrite !Mat4_product_multiplyPt3 by assumption.
    now rewrite Da, Db.
Qed.

Lemma Mat4_translate_identity_rigid (v : Vec3) :
  rigid (Mat4_translate Mat4_identity v).
Proof.
  split.
  - unfold affine; simpl; repeat split; ring.
  - intros a b; unfold Vec3_squaredDistance, Mat4_multiplyPt3; simpl; ring.
Qed.

Lemma Quat_toMat4_rigid (q : Quat) :
  unitQuat q -> rigid (Quat_toMat4 q).
Proof.
  unfold unitQuat, Quat_norm2; destruct q as [x y z w]; simpl; intros H.
  split.
  - unfold affine; simpl; auto.
  - intros [a b c] [d e f].
    unfold Vec3_squaredDistance, Mat4_multiplyPt3, Quat_toMat4; simpl.
    set (p := a - d); set (r := b - e); set (t := c - f).
    apply Rminus_diag_uniq.
    match goal with |- ?l - ?r0 = 0 =>
      replace (l - r0) with
        ((1 - (x * x + y * y + z * z + w * w))
         * (4 * ((x * p + y * r + z * t) * (x * p + y * r + z * t))
            - 4 * (x * x + y * y + z * z) * (p * p + r * r + t * t)))
        by (unfold p, r, t; ring)
    end.
    rewrite H; ring.
Qed.

(** ** The mode state machine and the playback cursor *)

Lemma getMaxTime_with_time_mode (s : State) (t : R) (md : Mode) :
  getMaxTime (with_time_mode s t md) = getMaxTime s.
Proof. reflexivity. Qed.

(** C6. The mode-toggle key in Edit mode enters Playback with the cursor at 0
    exactly when there are at least two keyframes, and otherwise leaves the
    state as it is; in Playback it returns to Edit.  A tick that brings the
    cursor to [maxTime = keyframeCount - 1] or beyond puts the cursor back to
    0 and the mode back to Edit, where further ticks change nothing. *)
Theorem mode_state_machine (fuel : nat) (s : State) :
  exists s',
    onKeydown fuel s KeyP = Ok s' /\
    (mode s = edit ->
       ((mode s' = playback /\ time s' = 0) <-> (2 <= getNumKeyFrames s)%nat) /\
       ((2 <= getNumKeyFrames s)%nat -> s' = with_time_mode s 0 playback) /\
       ((getNumKeyFrames s < 2)%nat -> s' = s)) /\
    (mode s = playback -> s' = with_time_mode s (time s) edit) /\
    (forall dT,
       (mode s = playback -> getMaxTime s <= time s + dT ->
          incrementTime s dT = with_time_mode s 0 edit) /\
       (mode s = playback -> time s + dT < getMaxTime s ->
          incrementTime s dT = with_time_mode s (time s + dT) playback) /\
       (mode s = edit -> incrementTime s dT = s)).
Proof.
  unfold onKeydown, incrementTime.
  destruct (mode s) eqn:Hm.
  - eexists; split; [reflexivity|].
    split; [discriminate|]. split; [reflexivity|].
    intros dT; repeat split; try discriminate; intros _ H;
      destruct (Rle_dec (getMaxTime s) (time s + dT)); try reflexivity; lra.
  - destruct (1 <? getNumKeyFrames s)%nat eqn:Hn.
    + apply Nat.ltb_lt in Hn.
      eexists; split; [reflexivity|]. split.
      * intros _; repeat split; simpl; auto; try lia.
      * split; [discriminate|]. intros dT; repeat split; try discriminate; auto.
    + apply Nat.ltb_ge in Hn.
      eexists; split; [reflexivity|]. split.
      * intros _; repeat split; try lia.
        intros [H _]; rewrite Hm in H; discriminate.
      * split; [discriminate|]. intros dT; repeat split; try discriminate; auto.
Qed.

(** With two keyframes the toggle key enters Playback at cursor 0. *)
Lemma mode_state_machine_witness :
  exists s', onKeydown 0 Examples.twoKeyFrames KeyP = Ok s' /\
             mode s' = playback /\ time s' = 0.
Proof.
  destruct (mode_state_machine 0 Examples.twoKeyFrames) as (s' & H & He & _).
  exists s'. split; [exact H|].
  apply He; [reflexivity|]. unfold getNumKeyFrames; simpl; lia.
Defined.

Section Events.

Variable Quat_slerpShort : Quat -> Quat -> R -> Quat.
Variable inverse : Mat3 -> option Mat3.

Lemma bind_Ok {A B : Type} (r : res A) (k : A -> res B) (b : B) :
  bind r k = Ok b -> exists a, r = Ok a /\ k a = Ok b.
Proof. destruct r; simpl; try discriminate; eauto. Qed.

Lemma arrowKey_time_mode (fuel : nat) (s s' : State) (angle : R) :
  arrowKey fuel s angle = Ok s' ->
  time s' = time s /\ mode s' = mode s /\ keyFrames s' = keyFrames s.
Proof.
  unfold arrowKey. destruct (selected_bone s); [|discriminate].
  destruct (selectedBone s).
  - intros H. apply bind_Ok in H as (m1 & _ & H).
    apply bind_Ok in H as (m2 & _ & H). inversion H; subst; auto.
  - intros H; inversion H; subst; auto.
Qed.

Lemma pick_time_mode (s s' : State) (p d : Vec3) :
  pick inverse s p d = Ok s' ->
  time s' = time s /\ mode s' = mode s /\ keyFrames s' = keyFrames s.
Proof.
  unfold pick. intros H.
  apply bind_Ok in H as (ints & _ & H). apply bind_Ok in H as (v & _ & H).
  destruct (HighlightIndex v).
  - destruct (bone_at (p_bones v) z); [|discriminate].
    inversion H; subst; auto.
  - inversion H; subst; auto.
Qed.

Lemma dragMove_time_mode (fuel : nat) (s s' : State) (mouse : MouseEvent) (view : View) :
  dragMove fuel s mouse view = Ok s' ->
  time s' = time s /\ mode s' = mode s /\ keyFrames s' = keyFrames s.
Proof.
  unfold dragMove.
  destruct (boneDragging s && (buttons mouse =? 1)%Z).
  - destruct (selected_bone s); [|discriminate].
    destruct (selectedBone s).
    + intros H. apply bind_Ok in H as (m1 & _ & H).
      apply bind_Ok in H as (m2 & _ & H). inversion H; subst; auto.
    + intros H; inversion H; subst; auto.
  - destruct (buttons mouse =? 1)%Z; [intros H; inversion H; subst; auto|].
    destruct (buttons mouse =? 2)%Z; intros H; inversion H; subst; auto.
Qed.

Lemma drag_time_mode (fuel : nat) (s s' : State) (mouse : MouseEvent) (view : View) :
  drag inverse fuel s mouse view = Ok s' ->
  time s' = time s /\ mode s' = mode s /\ keyFrames s' = keyFrames s.
Proof.
  unfold drag. destruct (dragging s).
  - destruct (Req_EM_T _ 0); [destruct (Req_EM_T _ 0)|];
      try (intros H; apply dragMove_time_mode in H; exact H).
    intros H; inversion H; subst; auto.
  - apply pick_time_mode.
Qed.

Lemma playbackStep_time_mode (fuel : nat) (s s' : State) :
  playbackStep Quat_slerpShort fuel s = Ok s' ->
  time s' = time s /\ mode s' = mode s /\ keyFrames s' = keyFrames s.
Proof.
  unfold playbackStep. intros H.
  apply bind_Ok in H as (m1 & _ & H). apply bind_Ok in H as (m2 & _ & H).
  inversion H; subst; auto.
Qed.

Lemma incrementTime_cursor_ok (s : State) (dT : R) :
  cursor_ok s -> 0 <= dT -> cursor_ok (incrementTime s dT).
Proof.
  unfold cursor_ok, incrementTime. intros Hs HdT.
  destruct (mode s) eqn:Hm; [|intros H; rewrite Hm in H; discriminate].
  destruct (Rle_dec (getMaxTime s) (time s + dT)); simpl.
  - discriminate.
  - intros _. specialize (Hs eq_refl). lra.
Qed.

Lemma step_cursor_ok (fuel : nat) (s s' : State) (e : Event) :
  cursor_ok s -> elapsed_ok e ->
  step Quat_slerpShort inverse fuel s e = Ok s' -> cursor_ok s'.
Proof.
  intros Hs He. destruct e as [key|mouse|mouse view| |dT]; simpl.
  - destruct key; simpl;
      try (intros H; inversion H; subst; exact Hs).
    + intros H; apply arrowKey_time_mode in H as (Ht & Hm & _).
      unfold cursor_ok; now rewrite Ht, Hm.
    + intros H; apply arrowKey_time_mode in H as (Ht & Hm & _).
      unfold cursor_ok; now rewrite Ht, Hm.
    + destruct (mode s) eqn:Hm.
      * intros H; inversion H; subst; exact Hs.
      * destruct (KeyFrame_constructor _ _). intros H; inversion H; subst.
        unfold cursor_ok; simpl. intros Hp; try rewrite Hm in Hp; discriminate.
    + destruct (mode s) eqn:Hm.
      * intros H; inversion H; subst. unfold cursor_ok; simpl; discriminate.
      * destruct (1 <? getNumKeyFrames s)%nat; intros H; inversion H; subst.
        -- unfold cursor_ok; simpl; intros _; lra.
        -- exact Hs.
  - intros H; inversion H; subst. unfold dragStart.
    destruct (Rlt_dec 600 (offsetY mouse)); exact Hs.
  - intros H; apply drag_time_mode in H as (Ht & Hm & _).
    unfold cursor_ok; now rewrite Ht, Hm.
  - intros H; inversion H; subst; exact Hs.
  - unfold draw. pose proof (incrementTime_cursor_ok s dT Hs He) as Hi.
    destruct (mode (incrementTime s dT)) eqn:Hm.
    + intros H; apply playbackStep_time_mode in H as (Ht & Hm' & _).
      unfold cursor_ok; now rewrite Ht, Hm'.
    + intros H; inversion H; subst; exact Hi.
Qed.

Lemma run_cursor_ok (fuel : nat) (es : list Event) :
  forall s s', cursor_ok s -> Forall elapsed_ok es ->
  run Quat_slerpShort inverse fuel s es = Ok s' -> cursor_ok s'.
Proof.
  induction es as [|e es IH]; simpl; intros s s' Hs Hes H.
  - inversion H; subst; exact Hs.
  - apply bind_Ok in H as (s1 & H1 & H2). inversion Hes; subst.
    apply (IH s1 s'); auto. now apply (step_cursor_ok fuel s s1 e).
Qed.

Lemma Int_part_bounds (t : R) (n : nat) :
  0 <= t -> t < INR n - 1 ->
  (0 <= Int_part t)%Z /\ (Int_part t + 1 <= Z.of_nat n - 1)%Z.
Proof.
  intros H0 Hn. destruct (base_Int_part t) as [Hlo Hhi].
  rewrite INR_IZR_INZ in Hn. split.
  - assert (H : (-1 < Int_part t)%Z) by (apply lt_IZR; lra). lia.
  - assert (H : (Int_part t < Z.of_nat n - 1)%Z).
    { apply lt_IZR. rewrite minus_IZR. lra. }
    lia.
Qed.

Lemma keyFrame_at_Some (kfs : list KeyFrame) (i : Z) :
  (0 <= i)%Z -> (i <= Z.of_nat (length kfs) - 1)%Z ->
  exists k, keyFrame_at kfs i = Some k.
Proof.
  intros H0 Hn. unfold keyFrame_at.
  destruct (i <? 0)%Z eqn:Hi; [apply Z.ltb_lt in Hi; lia|].
  destruct (nth_error kfs (Z.to_nat i)) eqn:Hk; [eauto|].
  apply nth_error_None in Hk. lia.
Qed.

(** C7. In every state the editor reaches (frame events carrying
    non-negative elapsed time), a tick after which the mode is still Playback
    reads the keyframes [i = floor(cursor)] and [i2 = i + 1] with [0 <= i]
    and [i2 <= keyframeCount - 1]: both keyframes exist. *)
Theorem playback_indices_in_bounds
    (fuel : nat) (s s' : State) (es : list Event) (dT : R) :
  cursor_ok s -> Forall elapsed_ok es ->
  run Quat_slerpShort inverse fuel s es = Ok s' ->
  0 <= dT ->
  mode (incrementTime s' dT) = playback ->
  (0 <= keyFrame1Index (incrementTime s' dT))%Z /\
  (keyFrame2Index (incrementTime s' dT)
   <= Z.of_nat (getNumKeyFrames (incrementTime s' dT)) - 1)%Z /\
  (exists k1, keyFrame_at (keyFrames (incrementTime s' dT))
                (keyFrame1Index (incrementTime s' dT)) = Some k1) /\
  (exists k2, keyFrame_at (keyFrames (incrementTime s' dT))
                (keyFrame2Index (incrementTime s' dT)) = Some k2).
Proof.
  intros Hs Hes Hrun HdT Hm.
  pose proof (run_cursor_ok fuel es s s' Hs Hes Hrun) as Hc.
  unfold incrementTime in *. destruct (mode s') eqn:Hm'.
  - destruct (Rle_dec (getMaxTime s') (time s' + dT)) as [Hle|Hlt];
      [simpl in Hm; discriminate|].
    unfold keyFrame2Index, keyFrame1Index, getNumKeyFrames; simpl.
    unfold getMaxTime in Hlt.
    destruct (Int_part_bounds (time s' + dT) (length (keyFrames s'))) as [H0 H1].
    + specialize (Hc Hm'); lra.
    + lra.
    + repeat split; auto; apply keyFrame_at_Some; lia.
  - rewrite Hm' in Hm; discriminate.
Qed.

End Events.

(** Half a second into a two-keyframe playback the keyframes 0 and 1 are
    read. *)
Lemma playback_indices_in_bounds_witness :
  (0 <= keyFrame1Index (incrementTime Examples.playing (1 / 2)))%Z /\
  (keyFrame2Index (incrementTime Examples.playing (1 / 2)) <= 2 - 1)%Z.
Proof.
  assert (Hm : mode (incrementTime Examples.playing (1 / 2)) = playback).
  { unfold incrementTime; simpl.
    destruct (Rle_dec _ _) as [H|H]; [|reflexivity].
    unfold getMaxTime in H; simpl in H; lra. }
  destruct (playback_indices_in_bounds (fun q _ _ => q) Mat3_inverse 0
              Examples.playing Examples.playing [] (1 / 2)) as (H0 & H1 & _).
  - unfold cursor_ok; simpl; lra.
  - constructor.
  - reflexivity.
  - lra.
  - exact Hm.
  - split; [exact H0|].
    unfold incrementTime in H1 |- *; simpl in H1 |- *.
    destruct (Rle_dec _ _) as [H|H].
    + unfold getMaxTime in H; simpl in H; lra.
    + exact H1.
Defined.

(** ** The object store *)

Lemma extends_refl (h : Heap) : extends h h.
Proof. repeat split; exists []; now rewrite app_nil_r. Qed.

Lemma extends_trans (h1 h2 h3 : Heap) :
  extends h1 h2 -> extends h2 h3 -> extends h1 h3.
Proof.
  intros ([a Ha] & [b Hb] & [c Hc]) ([a' Ha'] & [b' Hb'] & [c' Hc']).
  repeat split.
  - exists (a ++ a'). now rewrite Ha', Ha, app_assoc.
  - exists (b ++ b'). now rewrite Hb', Hb, app_assoc.
  - exists (c ++ c'). now rewrite Hc', Hc, app_assoc.
Qed.

Lemma newVec3_extends (h : Heap) (v : Vec3) : extends h (snd (newVec3 h v)).
Proof. repeat split; simpl; eauto; exists []; now rewrite app_nil_r. Qed.

Lemma newQuat_extends (h : Heap) (q : Quat) : extends h (snd (newQuat h q)).
Proof. repeat split; simpl; eauto; exists []; now rewrite app_nil_r. Qed.

Lemma newMat4_extends (h : Heap) (m : Mat4) : extends h (snd (newMat4 h m)).
Proof. repeat split; simpl; eauto; exists []; now rewrite app_nil_r. Qed.

Lemma extends_getVec3 (h h' : Heap) (r : ref) :
  extends h h' -> (r < length (vec3s h))%nat -> getVec3 h' r = getVec3 h r.
Proof.
  intros ([a Ha] & _) Hr. unfold getVec3. rewrite Ha. now apply app_nth1.
Qed.

Lemma extends_getQuat (h h' : Heap) (r : ref) :
  extends h h' -> (r < length (quats h))%nat -> getQuat h' r = getQuat h r.
Proof.
  intros (_ & [a Ha] & _) Hr. unfold getQuat. rewrite Ha. now apply app_nth1.
Qed.

Lemma extends_getMat4 (h h' : Heap) (r : ref) :
  extends h h' -> (r < length (mat4s h))%nat -> getMat4 h' r = getMat4 h r.
Proof.
  intros (_ & _ & [a Ha]) Hr. unfold getMat4. rewrite Ha. now apply app_nth1.
Qed.

Lemma extends_length (h h' : Heap) :
  extends h h' ->
  (length (vec3s h) <= length (vec3s h'))%nat /\
  (length (quats h) <= length (quats h'))%nat /\
  (length (mat4s h) <= length (mat4s h'))%nat.
Proof.
  intros ([a Ha] & [b Hb] & [c Hc]). rewrite Ha, Hb, Hc, !length_app. lia.
Qed.

Lemma extends_wf_bone (h h' : Heap) (b : Bone) :
  extends h h' -> wf_bone h b -> wf_bone h' b.
Proof.
  intros He Hw. apply extends_length in He. unfold wf_bone in *. lia.
Qed.

Lemma extends_values (h h' : Heap) (b : Bone) :
  extends h h' -> wf_bone h b -> values h' b = values h b.
Proof.
  intros He (H1 & H2 & H3 & H4 & H5 & H6 & H7). unfold values.
  rewrite !(extends_getVec3 h h'), !(extends_getQuat h h'),
    !(extends_getMat4 h h') by assumption.
  reflexivity.
Qed.

Lemma extends_Forall_wf (h h' : Heap) (bs : list Bone) :
  extends h h' -> Forall (wf_bone h) bs -> Forall (wf_bone h') bs.
Proof.
  intros He H. eapply Forall_impl; [|exact H].
  intros b; now apply extends_wf_bone.
Qed.

Lemma getVec3_new (h : Heap) (v : Vec3) :
  getVec3 (snd (newVec3 h v)) (fst (newVec3 h v)) = v.
Proof. unfold getVec3; simpl. now rewrite nth_middle. Qed.

Lemma getQuat_new (h : Heap) (q : Quat) :
  getQuat (snd (newQuat h q)) (fst (newQuat h q)) = q.
Proof. unfold getQuat; simpl. now rewrite nth_middle. Qed.

Lemma getMat4_new (h : Heap) (m : Mat4) :
  getMat4 (snd (newMat4 h m)) (fst (newMat4 h m)) = m.
Proof. unfold getMat4; simpl. now rewrite nth_middle. Qed.

(** ** Bone arrays *)

Lemma list_set_length {A : Type} (n : nat) (x : A) (l : list A) :
  length (list_set n x l) = length l.
Proof.
  revert n; induction l as [|y l IH]; intros [|n]; simpl; auto.
Qed.

Lemma nth_error_list_set_eq {A : Type} (n : nat) (x : A) (l : list A) :
  (n < length l)%nat -> nth_error (list_set n x l) n = Some x.
Proof.
  revert n; induction l as [|y l IH]; intros [|n]; simpl; intros H;
    try lia; auto. apply IH; lia.
Qed.

Lemma nth_error_list_set_neq {A : Type} (n k : nat) (x : A) (l : list A) :
  n <> k -> nth_error (list_set n x l) k = nth_error l k.
Proof.
  revert n k; induction l as [|y l IH]; intros [|n] [|k]; simpl; intros H;
    try congruence; auto.
Qed.

Lemma Forall_list_set {A : Type} (P : A -> Prop) (n : nat) (x : A) (l : list A) :
  Forall P l -> P x -> Forall P (list_set n x l).
Proof.
  revert n; induction l as [|y l IH]; intros [|n] Hl Hx; simpl; auto;
    inversion Hl; subst; constructor; auto.
Qed.

Lemma bone_at_Some (bs : list Bone) (i : Z) (b : Bone) :
  bone_at bs i = Some b ->
  (0 <= i)%Z /\ nth_error bs (Z.to_nat i) = Some b /\ In b bs.
Proof.
  unfold bone_at. destruct (i <? 0)%Z eqn:Hi; [discriminate|].
  apply Z.ltb_ge in Hi. intros H; repeat split; auto.
  eapply nth_error_In; eauto.
Qed.

Lemma bone_at_set_eq (bs : list Bone) (i : Z) (b b' : Bone) :
  bone_at bs i = Some b -> bone_at (set_bone bs i b') i = Some b'.
Proof.
  unfold bone_at, set_bone. destruct (i <? 0)%Z; [discriminate|].
  intros H. apply nth_error_list_set_eq.
  apply nth_error_Some. congruence.
Qed.

Lemma bone_at_set_neq (bs : list Bone) (i j : Z) (b' : Bone) :
  (0 <= i)%Z -> i <> j -> bone_at (set_bone bs i b') j = bone_at bs j.
Proof.
  unfold bone_at, set_bone. intros Hi Hij.
  destruct (j <? 0)%Z eqn:Hj; [reflexivity|]. apply Z.ltb_ge in Hj.
  apply nth_error_list_set_neq. lia.
Qed.

Lemma bone_at_In (bs : list Bone) (b : Bone) :
  In b bs -> exists i, bone_at bs i = Some b.
Proof.
  intros H. apply In_nth_error in H as [n Hn].
  exists (Z.of_nat n). unfold bone_at.
  destruct (Z.of_nat n <? 0)%Z eqn:Hlt; [apply Z.ltb_lt in Hlt; lia|].
  now rewrite Nat2Z.id.
Qed.

Lemma set_bone_length (bs : list Bone) (i : Z) (b : Bone) :
  length (set_bone bs i b) = length bs.
Proof. apply list_set_length. Qed.

(** ** Selection and the arrow keys *)

(** C3. With no bone selected ([selectedBone = NaN]) the ArrowLeft and
    ArrowRight handlers read [mesh.bones[NaN].initEndpoint] before they test
    the selection, so they fail with a TypeError instead of rolling the
    camera. *)
Theorem arrow_keys_fail_without_selection (fuel : nat) (s : State) :
  selectedBone s = NaN ->
  onKeydown fuel s ArrowLeft = TypeError /\
  onKeydown fuel s ArrowRight = TypeError.
Proof.
  intros H. unfold onKeydown, arrowKey, selected_bone. rewrite H. auto.
Qed.

Lemma arrow_keys_fail_without_selection_witness :
  onKeydown 1 Examples.initial ArrowLeft = TypeError /\
  onKeydown 1 Examples.initial ArrowRight = TypeError.
Proof.
  apply (arrow_keys_fail_without_selection 1 Examples.initial). reflexivity.
Defined.

(** ** The Mesh constructor of the earlier revision *)

(** C8. In [src/skinning/Scene.ts] the constructor's second loop subtracts
    the parent's position from the child's [initPosition] object itself: for
    a root at (1,2,3) and a child at (4,6,8), the child's [initPosition] is
    (3,4,5) after construction, not the position the loader supplied. *)
Theorem SceneTs_constructor_moves_initPosition :
  exists m child,
    SceneTs.Mesh_constructor Store.empty [Examples2.rootL; Examples2.childL] = Ok m /\
    bone_at (bones m) 1 = Some child /\
    getVec3 (heap m) (initPosition child) = mkVec3 (4 - 1) (6 - 2) (8 - 3) /\
    getVec3 (heap m) (initPosition child) <> l_position Examples2.childL.
Proof.
  eexists; eexists. split; [evalR; reflexivity|].
  split; [evalR; reflexivity|]. split; [evalR; reflexivity|].
  evalR. intros H; inversion H; lra.
Qed.

(** ** Rotation of a bone *)

Lemma nth_list_set_eq {A : Type} (n : nat) (x d : A) (l : list A) :
  (n < length l)%nat -> nth n (list_set n x l) d = x.
Proof.
  revert n; induction l as [|y l IH]; intros [|n]; simpl; intros H;
    try lia; auto. apply IH; lia.
Qed.

Lemma nth_list_set_neq {A : Type} (n k : nat) (x d : A) (l : list A) :
  n <> k -> nth k (list_set n x l) d = nth k l d.
Proof.
  revert n k; induction l as [|y l IH]; intros [|n] [|k]; simpl; intros H;
    try congruence; auto.
Qed.

(** [rotateBone(axis, angle)] sets the bone's local rotation to the old one
    composed on the right with [Quat.fromAxisAngle(axis, angle)].  In the
    later revision the field [R_i] receives a new object: every other field
    of the bone keeps its reference, every other bone is the same, and every
    object that existed keeps its value.  In [src/skinning/Scene.ts] the
    quaternion object is written in place: the bone array and every other
    object are untouched, but every field that holds that object sees the new
    value. *)
Lemma rotateBone_composes_on_the_right
    (m : Mesh) (i : Z) (b : Bone) (axis : Vec3) (angle : R) :
  bone_at (bones m) i = Some b ->
  (exists m' b',
     Scene.Mesh_rotateBone m i axis angle = Ok m' /\
     bone_at (bones m') i = Some b' /\
     getQuat (heap m') (R_i b')
     = Quat_product (getQuat (heap m) (R_i b)) (Quat_fromAxisAngle axis angle) /\
     (parent b' = parent b /\ children b' = children b /\
      position b' = position b /\ endpoint b' = endpoint b /\
      rotation b' = rotation b /\ isHighlight b' = isHighlight b /\
      T_ij b' = T_ij b /\ initPosition b' = initPosition b /\
      initEndpoint b' = initEndpoint b) /\
     (forall j, j <> i -> bone_at (bones m') j = bone_at (bones m) j) /\
     (forall b2, wf_bone (heap m) b2 -> values (heap m') b2 = values (heap m) b2)) /\
  ((R_i b < length (quats (heap m)))%nat ->
   exists m',
     SceneTs.Mesh_rotateBone m i axis angle = Ok m' /\
     bones m' = bones m /\
     getQuat (heap m') (R_i b)
     = Quat_product (getQuat (heap m) (R_i b)) (Quat_fromAxisAngle axis angle) /\
     (forall r, r <> R_i b -> getQuat (heap m') r = getQuat (heap m) r) /\
     vec3s (heap m') = vec3s (heap m) /\ mat4s (heap m') = mat4s (heap m)).
Proof.
  intros Hb. split.
  - unfold Scene.Mesh_rotateBone, Scene.rotateBone. rewrite Hb. simpl.
    eexists; eexists. split; [reflexivity|]. simpl.
    split; [eapply bone_at_set_eq; eauto|].
    split; [unfold getQuat; simpl; now rewrite nth_middle|].
    split; [simpl; repeat split|].
    split.
    + intros j Hj. apply bone_at_set_neq; [|congruence].
      now apply bone_at_Some in Hb.
    + intros b2 Hw. apply extends_values; [|exact Hw].
      apply (newQuat_extends (heap m)).
  - intros Hr. unfold SceneTs.Mesh_rotateBone, SceneTs.rotateBone.
    rewrite Hb. eexists. split; [reflexivity|]. simpl.
    split; [reflexivity|]. split.
    + unfold getQuat; simpl. now apply nth_list_set_eq.
    + split; [|split; reflexivity].
      intros r Hne. unfold getQuat; simpl. apply nth_list_set_neq. congruence.
Qed.

(** Rotating the only bone of a one-bone skeleton. *)
Lemma rotateBone_composes_on_the_right_witness :
  exists m' b',
    Scene.Mesh_rotateBone Examples3.mesh1 0 (mkVec3 0 1 0) 1 = Ok m' /\
    bone_at (bones m') 0 = Some b' /\
    position b' = position Examples3.bone0.
Proof.
  destruct (rotateBone_composes_on_the_right Examples3.mesh1 0 Examples3.bone0
              (mkVec3 0 1 0) 1 eq_refl)
    as [(m' & b' & H1 & H2 & _ & H3 & _) _].
  exists m', b'. repeat split; auto. apply H3.
Defined.

(** C5 (code bug).  In [src/skinning/Scene.ts], [updateMesh] called without
    a parent transform stores the bone's own object [R_i] in the field
    [rotation].  For a bone in that state [rotateBone], which multiplies the
    object [R_i] in place, changes the value of the field [rotation] as well:
    afterwards [rotation] is the old rotation composed with the axis-angle
    quaternion, although [rotateBone] is to change the local rotation
    only. *)
Theorem SceneTs_rotateBone_writes_rotation
    (m : Mesh) (i : Z) (b : Bone) (axis : Vec3) (angle : R) :
  bone_at (bones m) i = Some b ->
  rotation b = R_i b ->
  (R_i b < length (quats (heap m)))%nat ->
  exists m',
    SceneTs.Mesh_rotateBone m i axis angle = Ok m' /\
    bone_at (bones m') i = Some b /\
    getQuat (heap m') (R_i b)
    = Quat_product (getQuat (heap m) (R_i b)) (Quat_fromAxisAngle axis angle) /\
    getQuat (heap m') (rotation b)
    = Quat_product (getQuat (heap m) (rotation b)) (Quat_fromAxisAngle axis angle).
Proof.
  intros Hb Hal Hr. unfold SceneTs.Mesh_rotateBone, SceneTs.rotateBone.
  rewrite Hb. eexists. split; [reflexivity|]. cbn [bones heap].
  split; [exact Hb|].
  assert (H : getQuat (setQuat (heap m) (R_i b)
                (Quat_product (getQuat (heap m) (R_i b))
                   (Quat_fromAxisAngle axis angle))) (R_i b)
              = Quat_product (getQuat (heap m) (R_i b))
                  (Quat_fromAxisAngle axis angle)).
  { unfold getQuat, setQuat; cbn [quats]. now apply nth_list_set_eq. }
  split; [exact H|]. rewrite Hal. exact H.
Qed.

(** The two-bone skeleton of [Examples7]: after construction and
    [updateMesh(0, null, null)] the root's [rotation] is its [R_i] object;
    a half turn about the y axis by [rotateBone] takes the root's [rotation]
    from the identity to (0, 1, 0, 0). *)
Lemma SceneTs_rotateBone_writes_rotation_witness :
  exists root m',
    SceneTs.Mesh_constructor Store.empty [Examples2.rootL; Examples2.childL]
    = Ok Examples7.built /\
    SceneTs.updateMesh 3 Examples7.built 0 None None = Ok Examples7.updated /\
    bone_at (bones Examples7.updated) 0 = Some root /\
    rotation root = R_i root /\
    SceneTs.Mesh_rotateBone Examples7.updated 0 (mkVec3 0 1 0) PI = Ok m' /\
    bone_at (bones m') 0 = Some root /\
    getQuat (heap Examples7.updated) (rotation root) = Quat_identity /\
    getQuat (heap m') (rotation root) = mkQuat 0 1 0 0.
Proof.
  destruct (bone_at (bones Examples7.updated) 0) as [root|] eqn:Hroot;
    [|discriminate].
  assert (Hal : rotation root = R_i root).
  { revert Hroot. evalR. intros H; inversion H; reflexivity. }
  assert (Hlt : (R_i root < length (quats (heap Examples7.updated)))%nat).
  { revert Hroot. evalR. intros H; inversion H; cbn. lia. }
  destruct (SceneTs_rotateBone_writes_rotation Examples7.updated 0 root
              (mkVec3 0 1 0) PI Hroot Hal Hlt) as (m' & H1 & H2 & _ & H3).
  exists root, m'.
  split; [evalR; reflexivity|]. split; [evalR; reflexivity|].
  split; [reflexivity|]. split; [exact Hal|]. split; [exact H1|].
  split; [exact H2|].
  assert (Hid : getQuat (heap Examples7.updated) (rotation root) = Quat_identity).
  { revert Hroot. evalR. intros H; inversion H; reflexivity. }
  split; [exact Hid|].
  rewrite H3, Hid. unfold Quat_product, Quat_fromAxisAngle, Quat_identity.
  cbn [qx qy qz qw vx vy vz].
  change (PI * / 2) with (PI / 2). rewrite sin_PI2, cos_PI2.
  f_equal; ring.
Defined.

(** ** Recomputation never mutates an object *)

Lemma same_bind_refl (b : Bone) : same_bind b b.
Proof. repeat split. Qed.

Lemma same_local_refl (b : Bone) : same_local b b.
Proof. repeat split. Qed.

Lemma same_bind_trans (a b c : Bone) :
  same_bind a b -> same_bind b c -> same_bind a c.
Proof. unfold same_bind; intuition congruence. Qed.

Lemma same_local_trans (a b c : Bone) :
  same_local a b -> same_local b c -> same_local a c.
Proof. unfold same_local, same_bind; intuition congruence. Qed.

Lemma same_local_bind (a b : Bone) : same_local a b -> same_bind a b.
Proof. now intros [H _]. Qed.

Lemma Forall2_refl {A : Type} (R : A -> A -> Prop) (l : list A) :
  (forall a, R a a) -> Forall2 R l l.
Proof. intros H; induction l; constructor; auto. Qed.

Lemma Forall2_trans {A : Type} (R : A -> A -> Prop) (l1 l2 l3 : list A) :
  (forall a b c, R a b -> R b c -> R a c) ->
  Forall2 R l1 l2 -> Forall2 R l2 l3 -> Forall2 R l1 l3.
Proof.
  intros HR H12; revert l3; induction H12; intros l3 H23;
    inversion H23; subst; constructor; eauto.
Qed.

Lemma Forall2_list_set {A : Type} (R : A -> A -> Prop) (n : nat) (x y : A) (l : list A) :
  (forall a, R a a) -> nth_error l n = Some x -> R x y ->
  Forall2 R l (list_set n y l).
Proof.
  intros Hrefl; revert n; induction l as [|z l IH]; intros [|n]; simpl;
    intros Hn Hxy; try discriminate.
  - inversion Hn; subst. constructor; auto. now apply Forall2_refl.
  - constructor; auto.
Qed.

Lemma Forall2_nth_error {A B : Type} (R : A -> B -> Prop) (l : list A) (l' : list B) (n : nat) (x : A) :
  Forall2 R l l' -> nth_error l n = Some x ->
  exists y, nth_error l' n = Some y /\ R x y.
Proof.
  intros H; revert n; induction H; intros [|n]; simpl; intros Hn;
    try discriminate; eauto.
  inversion Hn; subst; eauto.
Qed.

Lemma Forall2_bone_at (R : Bone -> Bone -> Prop) (bs bs' : list Bone) (i : Z) (b : Bone) :
  Forall2 R bs bs' -> bone_at bs i = Some b ->
  exists b', bone_at bs' i = Some b' /\ R b b'.
Proof.
  unfold bone_at. destruct (i <? 0)%Z; [discriminate|].
  apply Forall2_nth_error.
Qed.

Lemma evolves_refl (R : Bone -> Bone -> Prop) (m : Mesh) :
  (forall a, R a a) -> wf_mesh m -> evolves R m m.
Proof.
  intros HR Hw. split; [exact Hw|]. split; [apply extends_refl|].
  now apply Forall2_refl.
Qed.

Lemma evolves_trans (R : Bone -> Bone -> Prop) (m1 m2 m3 : Mesh) :
  (forall a b c, R a b -> R b c -> R a c) ->
  evolves R m1 m2 -> evolves R m2 m3 -> evolves R m1 m3.
Proof.
  intros HR (_ & He & Hb) (Hw & He' & Hb').
  split; [exact Hw|]. split; [eapply extends_trans; eauto|].
  eapply Forall2_trans; eauto.
Qed.

Lemma evolves_weaken (m m' : Mesh) :
  evolves same_local m m' -> evolves same_bind m m'.
Proof.
  intros (Hw & He & Hb). split; [exact Hw|]. split; [exact He|].
  eapply Forall2_impl; [|exact Hb]. intros a b; apply same_local_bind.
Qed.

Lemma storePose_evolves (m m' : Mesh) (bone : Z) (D : Mat4) :
  wf_mesh m -> Scene.storePose m bone D = Ok m' -> evolves same_local m m'.
Proof.
  unfold Scene.storePose. intros Hw.
  destruct (bone_at (bones m) bone) as [b|] eqn:Hb; [|discriminate].
  simpl. intros H; inversion H; subst; clear H.
  apply bone_at_Some in Hb as (Hi & Hn & Hin).
  assert (He : extends (heap m)
                 (mkHeap ((vec3s (heap m) ++ [Mat4_multiplyPt3 D (mkVec3 0 0 0)]) ++
                          [Mat4_multiplyPt3 D
                             (Vec3_difference
                                (getVec3 (mkHeap (vec3s (heap m) ++ [Mat4_multiplyPt3 D (mkVec3 0 0 0)])
                                           (quats (heap m)) (mat4s (heap m))) (initEndpoint b))
                                (getVec3 (mkHeap (vec3s (heap m) ++ [Mat4_multiplyPt3 D (mkVec3 0 0 0)])
                                           (quats (heap m)) (mat4s (heap m))) (initPosition b)))])
                         (quats (heap m)) (mat4s (heap m)))).
  { repeat split; simpl; try (exists []; now rewrite app_nil_r).
    eexists. now rewrite <- app_assoc. }
  split; [|split; [exact He|]].
  - unfold wf_mesh; simpl. apply Forall_list_set.
    + eapply extends_Forall_wf; eauto.
    + unfold wf_mesh in Hw. rewrite Forall_forall in Hw.
      specialize (Hw b Hin). unfold wf_bone in *; simpl.
      rewrite !length_app; simpl. lia.
  - simpl. eapply Forall2_list_set; eauto using same_local_refl.
    repeat split.
Qed.

Lemma storeRotation_evolves (m m' : Mesh) (bone : Z) (q : Quat) :
  wf_mesh m -> Scene.storeRotation m bone q = Ok m' -> evolves same_local m m'.
Proof.
  unfold Scene.storeRotation. intros Hw.
  destruct (bone_at (bones m) bone) as [b|] eqn:Hb; [|discriminate].
  simpl. intros H; inversion H; subst; clear H.
  apply bone_at_Some in Hb as (Hi & Hn & Hin).
  pose proof (newQuat_extends (heap m) q) as He; simpl in He.
  split; [|split; [exact He|]].
  - unfold wf_mesh; simpl. apply Forall_list_set.
    + eapply extends_Forall_wf; eauto.
    + unfold wf_mesh in Hw. rewrite Forall_forall in Hw.
      specialize (Hw b Hin). unfold wf_bone in *; simpl.
      rewrite !length_app; simpl. lia.
  - simpl. eapply Forall2_list_set; eauto using same_local_refl.
    repeat split.
Qed.

Lemma fold_left_error {A : Type} (f : Mesh -> A -> res Mesh) (cs : list A) (e : res Mesh) :
  (forall m, e <> Ok m) ->
  fold_left (fun acc c => m' <- acc ;; f m' c) cs e = e.
Proof.
  intros He; induction cs as [|c cs IH]; simpl; auto.
  destruct e; simpl; auto. now destruct (He a).
Qed.

Lemma fold_children_ind {A : Type} (P : Mesh -> Prop) (f : Mesh -> A -> res Mesh) (cs : list A) :
  (forall m c m', In c cs -> P m -> f m c = Ok m' -> P m') ->
  forall m m1, P m ->
    fold_left (fun acc c => m' <- acc ;; f m' c) cs (Ok m) = Ok m1 -> P m1.
Proof.
  induction cs as [|c cs IH]; simpl; intros Hf m m1 Hm H.
  - now inversion H; subst.
  - destruct (f m c) as [m'| |] eqn:Hc.
    + eapply IH; [|eapply (Hf m c m'); eauto|exact H]. eauto.
    + rewrite fold_left_error in H by discriminate. discriminate.
    + rewrite fold_left_error in H by discriminate. discriminate.
Qed.

Lemma updateMesh_evolves (fuel : nat) :
  forall m bone Dp rp m', wf_mesh m ->
    Scene.updateMesh fuel m bone Dp rp = Ok m' -> evolves same_local m m'.
Proof.
  induction fuel as [|fuel IH]; simpl; intros m bone Dp rp m' Hw H;
    [discriminate|].
  destruct (bone_at (bones m) bone) as [b|]; [|discriminate].
  apply bind_Ok in H as (Dr & _ & H).
  apply bind_Ok in H as (m1 & Hfold & H).
  apply bind_Ok in H as (m2 & Hpose & Hrot).
  assert (H1 : evolves same_local m m1).
  { apply (fold_children_ind (fun x => evolves same_local m x)
             (fun m' c => Scene.updateMesh fuel m' c (Some (fst Dr)) (Some (snd Dr)))
             (children b)) with (m := m); auto.
    - intros x c x' _ Hx Hc. eapply evolves_trans; eauto using same_local_trans.
      eapply IH; eauto. apply Hx.
    - apply evolves_refl; auto using same_local_refl. }
  assert (H2 : evolves same_local m1 m2)
    by (eapply storePose_evolves; eauto; apply H1).
  assert (H3 : evolves same_local m2 m')
    by (eapply storeRotation_evolves; eauto; apply H2).
  eapply evolves_trans; eauto using same_local_trans.
  eapply evolves_trans; eauto using same_local_trans.
Qed.

Lemma calculateD_iAndTranslate_evolves (fuel : nat) :
  forall m bone Dp m', wf_mesh m ->
    Scene.calculateD_iAndTranslate fuel m bone Dp = Ok m' ->
    evolves same_local m m'.
Proof.
  induction fuel as [|fuel IH]; simpl; intros m bone Dp m' Hw H;
    [discriminate|].
  destruct (bone_at (bones m) bone) as [b|]; [|discriminate].
  apply bind_Ok in H as (D & _ & H).
  apply bind_Ok in H as (m1 & Hfold & Hpose).
  assert (H1 : evolves same_local m m1).
  { apply (fold_children_ind (fun x => evolves same_local m x)
             (fun m' c => Scene.calculateD_iAndTranslate fuel m' c (Some D))
             (children b)) with (m := m); auto.
    - intros x c x' _ Hx Hc. eapply evolves_trans; eauto using same_local_trans.
      eapply IH; eauto. apply Hx.
    - apply evolves_refl; auto using same_local_refl. }
  eapply evolves_trans; eauto using same_local_trans.
  eapply storePose_evolves; eauto. apply H1.
Qed.

Lemma Mesh_rotateBone_evolves (m m' : Mesh) (i : Z) (axis : Vec3) (angle : R) :
  wf_mesh m -> Scene.Mesh_rotateBone m i axis angle = Ok m' ->
  evolves same_bind m m'.
Proof.
  unfold Scene.Mesh_rotateBone, Scene.rotateBone. intros Hw.
  destruct (bone_at (bones m) i) as [b|] eqn:Hb; [|discriminate].
  simpl. intros H; inversion H; subst; clear H.
  apply bone_at_Some in Hb as (Hi & Hn & Hin).
  pose proof (newQuat_extends (heap m)
    (Quat_product (getQuat (heap m) (R_i b)) (Quat_fromAxisAngle axis angle))) as He.
  simpl in He. split; [|split; [exact He|]].
  - unfold wf_mesh; simpl. apply Forall_list_set.
    + eapply extends_Forall_wf; eauto.
    + unfold wf_mesh in Hw. rewrite Forall_forall in Hw.
      specialize (Hw b Hin). unfold wf_bone in *; simpl.
      rewrite !length_app; simpl. lia.
  - simpl. eapply Forall2_list_set; eauto using same_bind_refl.
    repeat split.
Qed.

Lemma same_refs_refl (b : Bone) : same_refs b b.
Proof. repeat split. Qed.

Lemma same_refs_trans (a b c : Bone) :
  same_refs a b -> same_refs b c -> same_refs a c.
Proof.
  unfold same_refs, same_local, same_bind; simpl. intuition congruence.
Qed.

Lemma same_refs_bind (a b : Bone) : same_refs a b -> same_bind a b.
Proof. unfold same_refs, same_local, same_bind; simpl. intuition. Qed.

Lemma same_refs_wf (h : Heap) (a b : Bone) :
  same_refs a b -> wf_bone h a -> wf_bone h b.
Proof.
  unfold same_refs, same_local, same_bind, wf_bone; simpl.
  intros (((_ & _ & -> & -> & ->) & -> & _) & -> & -> & ->). auto.
Qed.

Lemma same_refs_values (h : Heap) (a b : Bone) :
  same_refs a b -> values h b = values h a.
Proof.
  unfold same_refs, same_local, same_bind, values; simpl.
  intros (((_ & _ & -> & -> & ->) & -> & _) & -> & -> & ->). auto.
Qed.

Lemma Forall2_same_refs_wf (h : Heap) (bs bs' : list Bone) :
  Forall2 same_refs bs bs' -> Forall (wf_bone h) bs -> Forall (wf_bone h) bs'.
Proof.
  induction 1; intros Hw; inversion Hw; subst; constructor; auto.
  eapply same_refs_wf; eauto.
Qed.

Section PickingFacts.

Variable inverse : Mat3 -> option Mat3.

Lemma highlightLoop_same_refs (ints : list (option R)) :
  forall i v v', (0 <= i)%Z -> highlightLoop ints i v = Ok v' ->
    Forall2 same_refs (p_bones v) (p_bones v').
Proof.
  induction ints as [|x ints IH]; simpl; intros i v v' Hi H.
  - inversion H; subst. apply Forall2_refl, same_refs_refl.
  - destruct (match x with
              | Some t => if Rle_dec t (minT v) then (Some i, t)
                          else (HighlightIndex v, minT v)
              | None => (HighlightIndex v, minT v)
              end) as [hi mt].
    destruct (bone_at (p_bones v) i) as [b|] eqn:Hb; [|discriminate].
    apply IH in H; [|lia]. simpl in H.
    eapply Forall2_trans; [apply same_refs_trans| |exact H].
    apply bone_at_Some in Hb as (_ & Hn & _).
    eapply Forall2_list_set; eauto using same_refs_refl. repeat split.
Qed.

Lemma pick_same_refs (s s' : State) (p d : Vec3) :
  pick inverse s p d = Ok s' ->
  heap (mesh s') = heap (mesh s) /\
  Forall2 same_refs (bones (mesh s)) (bones (mesh s')) /\
  keyFrames s' = keyFrames s.
Proof.
  unfold pick. intros H.
  apply bind_Ok in H as (ints & _ & H). apply bind_Ok in H as (v & Hv & H).
  apply highlightLoop_same_refs in Hv; [|lia]. simpl in Hv.
  destruct (HighlightIndex v) as [hi|].
  - destruct (bone_at (p_bones v) hi) as [b|] eqn:Hb; [|discriminate].
    inversion H; subst; simpl. repeat split; auto.
    eapply Forall2_trans; [apply same_refs_trans|exact Hv|].
    apply bone_at_Some in Hb as (_ & Hn & _).
    eapply Forall2_list_set; eauto using same_refs_refl. repeat split.
  - inversion H; subst; simpl. auto.
Qed.

Lemma pick_evolves (s s' : State) (p d : Vec3) :
  wf_mesh (mesh s) -> pick inverse s p d = Ok s' ->
  evolves same_bind (mesh s) (mesh s') /\ heap (mesh s') = heap (mesh s) /\
  keyFrames s' = keyFrames s.
Proof.
  intros Hw H. apply pick_same_refs in H as (Hh & Hb & Hk).
  repeat split; auto.
  - unfold wf_mesh. rewrite Hh. eapply Forall2_same_refs_wf; eauto.
  - rewrite Hh; apply extends_refl.
  - rewrite Hh; apply extends_refl.
  - rewrite Hh; apply extends_refl.
  - eapply Forall2_impl; [|exact Hb]. intros a b; apply same_refs_bind.
Qed.

End PickingFacts.

(** ** Capturing a keyframe *)

Lemma newVec3_spec (h h' : Heap) (v : Vec3) (r : ref) :
  newVec3 h v = (r, h') ->
  (r < length (vec3s h'))%nat /\ extends h h' /\ getVec3 h' r = v.
Proof.
  intros H. pose proof (newVec3_extends h v) as He.
  pose proof (getVec3_new h v) as Hg. rewrite H in He, Hg; simpl in *.
  repeat split; try apply He; auto.
  inversion H; subst; simpl. rewrite length_app; simpl; lia.
Qed.

Lemma newQuat_spec (h h' : Heap) (q : Quat) (r : ref) :
  newQuat h q = (r, h') ->
  (r < length (quats h'))%nat /\ extends h h' /\ getQuat h' r = q.
Proof.
  intros H. pose proof (newQuat_extends h q) as He.
  pose proof (getQuat_new h q) as Hg. rewrite H in He, Hg; simpl in *.
  repeat split; try apply He; auto.
  inversion H; subst; simpl. rewrite length_app; simpl; lia.
Qed.

Lemma newMat4_spec (h h' : Heap) (m : Mat4) (r : ref) :
  newMat4 h m = (r, h') ->
  (r < length (mat4s h'))%nat /\ extends h h' /\ getMat4 h' r = m.
Proof.
  intros H. pose proof (newMat4_extends h m) as He.
  pose proof (getMat4_new h m) as Hg. rewrite H in He, Hg; simpl in *.
  repeat split; try apply He; auto.
  inversion H; subst; simpl. rewrite length_app; simpl; lia.
Qed.

Ltac alloc :=
  match goal with
  | |- context [newVec3 ?h ?v] =>
      let r := fresh "r" in let h' := fresh "h" in let E := fresh "E" in
      destruct (newVec3 h v) as [r h'] eqn:E;
      apply newVec3_spec in E; destruct E as (? & ? & ?)
  | |- context [newQuat ?h ?v] =>
      let r := fresh "r" in let h' := fresh "h" in let E := fresh "E" in
      destruct (newQuat h v) as [r h'] eqn:E;
      apply newQuat_spec in E; destruct E as (? & ? & ?)
  | |- context [newMat4 ?h ?v] =>
      let r := fresh "r" in let h' := fresh "h" in let E := fresh "E" in
      destruct (newMat4 h v) as [r h'] eqn:E;
      apply newMat4_spec in E; destruct E as (? & ? & ?)
  end.

Ltac heap_le :=
  repeat match goal with
         | H : extends _ _ |- _ => apply extends_length in H
         end;
  lia.

Lemma Bone_copy_spec (h : Heap) (b : Bone) :
  wf_bone h b ->
  extends h (snd (Scene.Bone_constructor h (inr b))) /\
  wf_bone (snd (Scene.Bone_constructor h (inr b)))
          (fst (Scene.Bone_constructor h (inr b))) /\
  values (snd (Scene.Bone_constructor h (inr b)))
         (fst (Scene.Bone_constructor h (inr b))) = values h b /\
  T_ij (fst (Scene.Bone_constructor h (inr b))) = T_ij b /\
  R_i (fst (Scene.Bone_constructor h (inr b))) = R_i b.
Proof.
  intros (H1 & H2 & H3 & H4 & H5 & H6 & H7).
  unfold Scene.Bone_constructor. cbv beta iota.
  do 5 alloc. cbn [fst snd].
  assert (E01 : extends h h0) by assumption.
  assert (E02 : extends h h1) by eauto using extends_trans.
  assert (E03 : extends h h2) by eauto using extends_trans.
  assert (E04 : extends h h3) by eauto using extends_trans.
  assert (E05 : extends h h4) by eauto using extends_trans.
  assert (E15 : extends h0 h4) by eauto using extends_trans.
  assert (E25 : extends h1 h4) by eauto using extends_trans.
  assert (E35 : extends h2 h4) by eauto using extends_trans.
  assert (E45 : extends h3 h4) by assumption.
  split; [exact E05|]. split; [|split; [|repeat split]].
  - unfold wf_bone; cbn [position endpoint rotation T_ij R_i initPosition initEndpoint].
    pose proof (extends_length _ _ E15). pose proof (extends_length _ _ E25).
    pose proof (extends_length _ _ E35). pose proof (extends_length _ _ E45).
    pose proof (extends_length _ _ E05). lia.
  - unfold values; cbn [position endpoint rotation T_ij R_i initPosition initEndpoint].
    f_equal.
    + rewrite (extends_getVec3 h0 h4 r) by assumption. congruence.
    + rewrite (extends_getVec3 h1 h4 r0) by assumption.
      rewrite H11. apply extends_getVec3; auto.
    + rewrite (extends_getQuat h2 h4 r1) by assumption.
      rewrite H14. apply extends_getQuat; auto.
    + apply extends_getMat4; auto.
    + apply extends_getQuat; auto.
    + rewrite (extends_getVec3 h3 h4 r2) by assumption.
      rewrite H17. apply extends_getVec3; auto.
    + rewrite H20. apply extends_getVec3; auto.
Qed.

Lemma copyBones_cons (h : Heap) (b : Bone) (bs : list Bone) :
  copyBones h (b :: bs)
  = (let '(b', h1) := Scene.Bone_constructor h (inr b) in
     let '(rest, h2) := copyBones h1 bs in (b' :: rest, h2)).
Proof. reflexivity. Qed.

Lemma copyBones_spec (bs : list Bone) :
  forall h, Forall (wf_bone h) bs ->
    extends h (snd (copyBones h bs)) /\
    Forall (wf_bone (snd (copyBones h bs))) (fst (copyBones h bs)) /\
    map (values (snd (copyBones h bs))) (fst (copyBones h bs))
    = map (values h) bs /\
    Forall2 (fun b b' => T_ij b' = T_ij b /\ R_i b' = R_i b)
            bs (fst (copyBones h bs)).
Proof.
  induction bs as [|b bs IH]; intros h Hw.
  - simpl. repeat split; auto using extends_refl.
    + exists []; now rewrite app_nil_r.
    + exists []; now rewrite app_nil_r.
    + exists []; now rewrite app_nil_r.
  - inversion Hw as [|? ? Hb Hbs]; subst.
    pose proof (Bone_copy_spec h b Hb) as (He & Hwb & Hv & Ht & Hr).
    rewrite copyBones_cons.
    destruct (Scene.Bone_constructor h (inr b)) as [b' h1].
    cbn [fst snd] in *.
    specialize (IH h1 (extends_Forall_wf h h1 bs He Hbs)).
    destruct IH as (He' & Hw' & Hv' & Hrel).
    destruct (copyBones h1 bs) as [rest h2]. cbn [fst snd map] in *.
    split; [eapply extends_trans; eauto|].
    split; [constructor; auto; eapply extends_wf_bone; eauto|].
    split.
    + f_equal.
      * rewrite (extends_values h1 h2) by assumption. exact Hv.
      * rewrite Hv'. apply map_ext_in. intros a Ha.
        apply extends_values; auto. rewrite Forall_forall in Hbs; auto.
    + constructor; auto.
Qed.

Lemma wf_state_later (s s' : State) :
  wf_state s -> wf_mesh (mesh s') ->
  extends (heap (mesh s)) (heap (mesh s')) ->
  keyFrames s' = keyFrames s -> wf_state s'.
Proof.
  intros [_ Hk] Hw He Hkf. split; [exact Hw|]. rewrite Hkf.
  eapply Forall_impl; [|exact Hk]. intros kf. now apply extends_Forall_wf.
Qed.

Section EventFacts.

Variable Quat_slerpShort : Quat -> Quat -> R -> Quat.
Variable inverse : Mat3 -> option Mat3.

Lemma set_bone_evolves (R : Bone -> Bone -> Prop) (m : Mesh) (h' : Heap) (i : Z) (b b' : Bone) :
  (forall a, R a a) -> wf_mesh m -> bone_at (bones m) i = Some b ->
  extends (heap m) h' -> R b b' -> wf_bone h' b' ->
  evolves R m (mkMesh h' (set_bone (bones m) i b')).
Proof.
  intros HR Hw Hb He Hbb Hwb.
  apply bone_at_Some in Hb as (_ & Hn & Hin).
  split; [|split; [exact He|]].
  - unfold wf_mesh; simpl. apply Forall_list_set; auto.
    eapply extends_Forall_wf; eauto.
  - simpl. eapply Forall2_list_set; eauto.
Qed.

Lemma interpolateLoop_evolves (n : nat) :
  forall i m k1 k2 t m', (0 <= i)%Z -> wf_mesh m ->
    interpolateLoop Quat_slerpShort n i m k1 k2 t = Ok m' ->
    evolves same_bind m m'.
Proof.
  induction n as [|n IH]; simpl; intros i m k1 k2 t m' Hi Hw H.
  - inversion H; subst. apply evolves_refl; auto using same_bind_refl.
  - destruct k1 as [k1|]; [|discriminate]. destruct k2 as [k2|]; [|discriminate].
    destruct (bone_at (kf_bones k1) i) as [b1|]; [|discriminate].
    destruct (bone_at (kf_bones k2) i) as [b2|]; [|discriminate].
    destruct (bone_at (bones m) i) as [b|] eqn:Hb; [|discriminate].
    match type of H with
    | interpolateLoop _ _ _ (mkMesh ?h' (set_bone _ _ ?b')) _ _ _ = _ =>
        assert (He : evolves same_bind m (mkMesh h' (set_bone (bones m) i b')))
    end.
    { apply set_bone_evolves with (b := b); auto using same_bind_refl.
      - repeat split; simpl; try (exists []; now rewrite app_nil_r).
        eexists. rewrite <- app_assoc. reflexivity.
      - repeat split.
      - pose proof (bone_at_Some _ _ _ Hb) as (_ & _ & Hin).
        unfold wf_mesh in Hw. rewrite Forall_forall in Hw.
        specialize (Hw b Hin). unfold wf_bone in *; simpl.
        rewrite !length_app; simpl. lia. }
    eapply evolves_trans; [apply same_bind_trans|exact He|].
    eapply IH; [|apply He|exact H]. lia.
Qed.

Lemma rootsLoop_evolves (fuel n : nat) :
  forall i m m', wf_mesh m -> rootsLoop fuel n i m = Ok m' ->
    evolves same_local m m'.
Proof.
  induction n as [|n IH]; simpl; intros i m m' Hw H.
  - inversion H; subst. apply evolves_refl; auto using same_local_refl.
  - destruct (bone_at (bones m) i) as [b|]; [|discriminate].
    destruct (parent b =? -1)%Z.
    + apply bind_Ok in H as (m1 & H1 & H2).
      apply calculateD_iAndTranslate_evolves in H1; auto.
      eapply evolves_trans; eauto using same_local_trans.
      eapply IH; eauto. apply H1.
    + eapply IH; eauto.
Qed.

Lemma playbackStep_evolves (fuel : nat) (s s' : State) :
  wf_mesh (mesh s) -> playbackStep Quat_slerpShort fuel s = Ok s' ->
  evolves same_bind (mesh s) (mesh s').
Proof.
  unfold playbackStep. intros Hw H.
  apply bind_Ok in H as (m1 & H1 & H). apply bind_Ok in H as (m2 & H2 & H).
  inversion H; subst; simpl.
  apply interpolateLoop_evolves in H1; auto; [|lia].
  apply rootsLoop_evolves in H2; [|apply H1].
  eapply evolves_trans; eauto using same_bind_trans, evolves_weaken.
Qed.

Lemma rotate_update_evolves (fuel : nat) (m m1 m2 : Mesh) (i : Z) (axis : Vec3) (angle : R) :
  wf_mesh m -> Scene.Mesh_rotateBone m i axis angle = Ok m1 ->
  Scene.updateMesh fuel m1 i None None = Ok m2 -> evolves same_bind m m2.
Proof.
  intros Hw H1 H2. apply Mesh_rotateBone_evolves in H1; auto.
  apply updateMesh_evolves in H2; [|apply H1].
  eapply evolves_trans; eauto using same_bind_trans, evolves_weaken.
Qed.

Lemma arrowKey_evolves (fuel : nat) (s s' : State) (angle : R) :
  wf_mesh (mesh s) -> arrowKey fuel s angle = Ok s' ->
  evolves same_bind (mesh s) (mesh s').
Proof.
  unfold arrowKey. intros Hw. destruct (selected_bone s); [|discriminate].
  destruct (selectedBone s).
  - intros H. apply bind_Ok in H as (m1 & H1 & H).
    apply bind_Ok in H as (m2 & H2 & H). inversion H; subst; simpl.
    eapply rotate_update_evolves; eauto.
  - intros H; inversion H; subst; simpl.
    apply evolves_refl; auto using same_bind_refl.
Qed.

Lemma dragMove_evolves (fuel : nat) (s s' : State) (mouse : MouseEvent) (view : View) :
  wf_mesh (mesh s) -> dragMove fuel s mouse view = Ok s' ->
  evolves same_bind (mesh s) (mesh s').
Proof.
  unfold dragMove. intros Hw.
  destruct (boneDragging s && (buttons mouse =? 1)%Z).
  - destruct (selected_bone s); [|discriminate].
    destruct (selectedBone s).
    + intros H. apply bind_Ok in H as (m1 & H1 & H).
      apply bind_Ok in H as (m2 & H2 & H). inversion H; subst; simpl.
      eapply rotate_update_evolves; eauto.
    + intros H; inversion H; subst; simpl.
      apply evolves_refl; auto using same_bind_refl.
  - destruct (buttons mouse =? 1)%Z;
      [intros H; inversion H; subst; simpl;
       apply evolves_refl; auto using same_bind_refl|].
    destruct (buttons mouse =? 2)%Z; intros H; inversion H; subst; simpl;
      apply evolves_refl; auto using same_bind_refl.
Qed.

Lemma drag_evolves (fuel : nat) (s s' : State) (mouse : MouseEvent) (view : View) :
  wf_mesh (mesh s) -> drag inverse fuel s mouse view = Ok s' ->
  evolves same_bind (mesh s) (mesh s').
Proof.
  unfold drag. intros Hw. destruct (dragging s).
  - destruct (Req_EM_T _ 0); [destruct (Req_EM_T _ 0)|];
      try (intros H; apply dragMove_evolves in H; auto).
    intros H; inversion H; subst; simpl.
    apply evolves_refl; auto using same_bind_refl.
  - intros H. now apply pick_evolves in H.
Qed.

Lemma later_state (s s' : State) :
  wf_state s -> evolves same_bind (mesh s) (mesh s') ->
  keyFrames s' = keyFrames s ->
  wf_state s' /\ evolves same_bind (mesh s) (mesh s') /\
  exists new, keyFrames s' = keyFrames s ++ new.
Proof.
  intros Hs He Hk. split; [|split; [exact He|]].
  - eapply wf_state_later; eauto; apply He.
  - exists []; now rewrite app_nil_r.
Qed.

Lemma same_mesh_state (s s' : State) :
  wf_state s -> mesh s' = mesh s -> keyFrames s' = keyFrames s ->
  wf_state s' /\ evolves same_bind (mesh s) (mesh s') /\
  exists new, keyFrames s' = keyFrames s ++ new.
Proof.
  intros Hs Hm Hk. apply later_state; auto. rewrite Hm.
  apply evolves_refl; [apply same_bind_refl|apply Hs].
Qed.

Lemma step_evolves (fuel : nat) (s s' : State) (e : Event) :
  wf_state s -> step Quat_slerpShort inverse fuel s e = Ok s' ->
  wf_state s' /\ evolves same_bind (mesh s) (mesh s') /\
  exists new, keyFrames s' = keyFrames s ++ new.
Proof.
  intros Hs H.
  destruct e as [key|mouse|mouse view| |dT]; simpl in H.
  - destruct key; simpl in H;
      try (inversion H; subst; now apply same_mesh_state).
    + apply later_state; auto; [eapply arrowKey_evolves; eauto; apply Hs|].
      now apply arrowKey_time_mode in H.
    + apply later_state; auto; [eapply arrowKey_evolves; eauto; apply Hs|].
      now apply arrowKey_time_mode in H.
    + destruct (mode s);
        [inversion H; subst; now apply same_mesh_state|].
      unfold KeyFrame_constructor in H.
      destruct Hs as [Hwm Hwk].
      pose proof (copyBones_spec (bones (mesh s)) (heap (mesh s)) Hwm)
        as (He & Hwc & _ & _).
      destruct (copyBones (heap (mesh s)) (bones (mesh s))) as [copies h'].
      cbn [fst snd] in *. inversion H; subst; simpl.
      assert (Hm : wf_mesh (mkMesh h' (bones (mesh s))))
        by (unfold wf_mesh; simpl; eapply extends_Forall_wf; eauto).
      split; [split; [exact Hm|]|split].
      * simpl. apply Forall_app; split.
        -- eapply Forall_impl; [|exact Hwk].
           intros kf. now apply extends_Forall_wf.
        -- constructor; auto.
      * split; [exact Hm|]. split; [exact He|].
        simpl. apply Forall2_refl, same_bind_refl.
      * eauto.
    + destruct (mode s).
      * inversion H; subst; now apply same_mesh_state.
      * destruct (1 <? getNumKeyFrames s)%nat; inversion H; subst;
          now apply same_mesh_state.
  - inversion H; subst. apply same_mesh_state; auto; unfold dragStart;
      destruct (Rlt_dec 600 (offsetY mouse)); reflexivity.
  - apply later_state; auto; [eapply drag_evolves; eauto; apply Hs|].
    now apply (drag_time_mode inverse) in H.
  - inversion H; subst; now apply same_mesh_state.
  - unfold draw in H.
    assert (Hi : mesh (incrementTime s dT) = mesh s /\
                 keyFrames (incrementTime s dT) = keyFrames s).
    { unfold incrementTime. destruct (mode s); auto.
      destruct (Rle_dec (getMaxTime s) (time s + dT)); auto. }
    destruct Hi as [Him Hik].
    destruct (mode (incrementTime s dT)).
    + pose proof H as H'. apply playbackStep_evolves in H;
        [|rewrite Him; apply Hs].
      apply playbackStep_time_mode in H' as (_ & _ & Hk).
      apply later_state; auto; [now rewrite <- Him|congruence].
    + inversion H; subst. now apply same_mesh_state.
Qed.

Lemma run_evolves (fuel : nat) (es : list Event) :
  forall s s', wf_state s -> run Quat_slerpShort inverse fuel s es = Ok s' ->
    wf_state s' /\ evolves same_bind (mesh s) (mesh s') /\
    exists new, keyFrames s' = keyFrames s ++ new.
Proof.
  induction es as [|e es IH]; simpl; intros s s' Hs H.
  - inversion H; subst. split; [exact Hs|]. split.
    + apply evolves_refl; [apply same_bind_refl|apply Hs].
    + exists []; now rewrite app_nil_r.
  - apply bind_Ok in H as (s1 & H1 & H2).
    apply step_evolves in H1 as (Hs1 & He1 & [n1 Hk1]); auto.
    apply IH in H2 as (Hs' & He2 & [n2 Hk2]); auto.
    split; [exact Hs'|]. split.
    + eapply evolves_trans; eauto using same_bind_trans.
    + exists (n1 ++ n2). now rewrite Hk2, Hk1, app_assoc.
Qed.

End EventFacts.

(** ** Keyframes *)

Section KeyframeFacts.

Variable Quat_slerpShort : Quat -> Quat -> R -> Quat.
Variable inverse : Mat3 -> option Mat3.

(** C1, keyframe capture isolation, in its amended form.  A captured
    keyframe holds, for every bone and every field (position, endpoint,
    rotation, [R_i], [T_ij], [initPosition], [initEndpoint]), the value the
    live bone has at capture.  Whatever events follow (arrow keys and drags,
    which call rotateBone and updateMesh; frames, which interpolate; further
    captures; picking), these values stay as they are, and the same holds
    for every keyframe captured before. *)
Theorem keyframe_values_isolated
    (fuel : nat) (s s1 s2 : State) (es : list Event) :
  wf_state s -> mode s = edit ->
  onKeydown fuel s KeyK = Ok s1 ->
  run Quat_slerpShort inverse fuel s1 es = Ok s2 ->
  (exists kf,
     keyFrames s1 = keyFrames s ++ [kf] /\
     nth_error (keyFrames s2) (length (keyFrames s)) = Some kf /\
     map (values (heap (mesh s1))) (kf_bones kf)
     = map (values (heap (mesh s))) (bones (mesh s)) /\
     map (values (heap (mesh s2))) (kf_bones kf)
     = map (values (heap (mesh s))) (bones (mesh s))) /\
  (forall k kf0, nth_error (keyFrames s) k = Some kf0 ->
     nth_error (keyFrames s2) k = Some kf0 /\
     map (values (heap (mesh s2))) (kf_bones kf0)
     = map (values (heap (mesh s))) (kf_bones kf0)).
Proof.
  intros Hs Hm Hk Hrun.
  pose proof (step_evolves Quat_slerpShort inverse fuel s s1 (Keydown KeyK) Hs Hk)
    as (Hs1 & He1 & _).
  pose proof (run_evolves Quat_slerpShort inverse fuel es s1 s2 Hs1 Hrun)
    as (Hs2 & He2 & [new Hnew]).
  destruct He1 as (_ & He1 & _). destruct He2 as (_ & He2 & _).
  simpl in Hk. rewrite Hm in Hk. unfold KeyFrame_constructor in Hk.
  pose proof (copyBones_spec (bones (mesh s)) (heap (mesh s)) (proj1 Hs))
    as (Hec & Hwc & Hvc & Hrel).
  destruct (copyBones (heap (mesh s)) (bones (mesh s))) as [copies h'].
  cbn [fst snd] in *. inversion Hk; subst s1; clear Hk. simpl in *.
  split.
  - exists (mkKeyFrame copies). simpl.
    split; [reflexivity|]. split; [|split; [exact Hvc|]].
    + rewrite Hnew, <- app_assoc. rewrite nth_error_app2 by lia.
      now rewrite Nat.sub_diag.
    + rewrite <- Hvc. apply map_ext_in. intros kb Hin.
      apply extends_values; auto. rewrite Forall_forall in Hwc; auto.
  - intros k kf0 Hk0. split.
    + rewrite Hnew, <- app_assoc. rewrite nth_error_app1; auto.
      apply nth_error_Some; congruence.
    + apply map_ext_in. intros kb Hin.
      apply extends_values; [eapply extends_trans; eauto|].
      destruct Hs as [_ Hwk]. rewrite Forall_forall in Hwk.
      specialize (Hwk kf0 (nth_error_In _ _ Hk0)).
      rewrite Forall_forall in Hwk; auto.
Qed.

End KeyframeFacts.

Lemma wf_state_editing : wf_state Examples3.editing.
Proof.
  split; [|constructor].
  constructor; [|constructor]. unfold wf_bone; simpl. lia.
Qed.

Lemma capture_editing : onKeydown 0 Examples3.editing KeyK = Ok Examples3.captured.
Proof. evalR. reflexivity. Qed.

Lemma wf_mesh_rolling : wf_mesh (mesh Examples5.rolling).
Proof. evalR. repeat constructor. Qed.

Lemma capture_rolling :
  onKeydown 3 Examples5.rolling KeyK = Ok Examples5.rolling_captured.
Proof. evalR. reflexivity. Qed.

Lemma run_rolling_playback :
  run (fun q _ _ => q) Mat3_inverse 3 Examples5.rolling_captured
      [Keydown ArrowLeft; Keydown KeyK; Keydown KeyP]
  = Ok Examples5.rolling_playback.
Proof. evalR. reflexivity. Qed.

Lemma Int_part_half : Int_part (0 + 1 / 2) = 0%Z.
Proof. symmetry. apply Int_part_spec. simpl. lra. Qed.

Lemma frame_rolling_playback :
  exists s2, draw (fun q _ _ => q) 3 Examples5.rolling_playback (1 / 2) = Ok s2.
Proof.
  unfold draw, incrementTime.
  change (mode Examples5.rolling_playback) with playback. cbv iota.
  change (time Examples5.rolling_playback) with 0.
  destruct (Rle_dec (getMaxTime Examples5.rolling_playback) (0 + 1 / 2)) as [H|H].
  { exfalso. unfold getMaxTime in H.
    change (length (keyFrames Examples5.rolling_playback)) with 2%nat in H.
    simpl in H. lra. }
  cbn [mode with_time_mode]. unfold playbackStep, keyFrame2Index, keyFrame1Index.
  cbn [time with_time_mode]. rewrite Int_part_half.
  evalR. eexists. reflexivity.
Qed.

Lemma run_app (QS : Quat -> Quat -> R -> Quat) (inv : Mat3 -> option Mat3)
    (fuel : nat) (es1 es2 : list Event) :
  forall s, run QS inv fuel s (es1 ++ es2)
            = (s' <- run QS inv fuel s es1 ;; run QS inv fuel s' es2).
Proof.
  induction es1 as [|e es1 IH]; intros s; simpl; [reflexivity|].
  destruct (step QS inv fuel s e); simpl; auto.
Qed.

(** A capture on the two-bone skeleton with its root selected, followed by
    a rotation of the root by the ArrowLeft key (with the update of the
    skeleton below it), a second capture, the playback key and a frame of
    playback, half a second long, which interpolates every bone between the
    two keyframes and recomputes the skeleton from its root. *)
Lemma keyframe_values_isolated_witness :
  exists s2 kf,
    onKeydown 3 Examples5.rolling KeyK = Ok Examples5.rolling_captured /\
    run (fun q _ _ => q) Mat3_inverse 3 Examples5.rolling_captured
        [Keydown ArrowLeft; Keydown KeyK; Keydown KeyP; Frame (1 / 2)] = Ok s2 /\
    nth_error (keyFrames s2) 0 = Some kf /\
    map (values (heap (mesh s2))) (kf_bones kf)
    = map (values (heap (mesh Examples5.rolling))) (bones (mesh Examples5.rolling)).
Proof.
  destruct frame_rolling_playback as [s2 Hframe].
  assert (Hrun : run (fun q _ _ => q) Mat3_inverse 3 Examples5.rolling_captured
                   [Keydown ArrowLeft; Keydown KeyK; Keydown KeyP; Frame (1 / 2)]
                 = Ok s2).
  { change [Keydown ArrowLeft; Keydown KeyK; Keydown KeyP; Frame (1 / 2)]
      with ([Keydown ArrowLeft; Keydown KeyK; Keydown KeyP] ++ [Frame (1 / 2)]).
    rewrite run_app, run_rolling_playback. cbn [bind run step].
    rewrite Hframe. reflexivity. }
  destruct (keyframe_values_isolated (fun q _ _ => q) Mat3_inverse 3
              Examples5.rolling Examples5.rolling_captured s2
              [Keydown ArrowLeft; Keydown KeyK; Keydown KeyP; Frame (1 / 2)])
    as [(kf & _ & Hn & _ & Hv) _].
  - split; [exact wf_mesh_rolling|constructor].
  - reflexivity.
  - exact capture_rolling.
  - exact Hrun.
  - exists s2, kf. split; [exact capture_rolling|]. split; [exact Hrun|].
    split; [exact Hn|exact Hv].
Defined.

(** C1 as stated fails: the capture is not a deep copy.  The keyframe
    captured from the one-bone skeleton holds the same [T_ij] and [R_i]
    objects as the live bone. *)
Lemma keyframe_shares_objects :
  exists s1 kf,
    onKeydown 0 Examples3.editing KeyK = Ok s1 /\
    keyFrames s1 = [kf] /\
    ~ shares_no_object kf (bones (mesh s1)).
Proof.
  exists Examples3.captured. eexists.
  split; [exact capture_editing|]. split; [reflexivity|].
  intros H.
  destruct (H (mkBone (-1) [] 4%nat 5%nat 2%nat false 0%nat 1%nat 6%nat 7%nat)
              Examples3.bone0) as (_ & Hq & _).
  - simpl; auto.
  - simpl; auto.
  - apply (Hq 1%nat); simpl; auto.
Qed.

(** ** Termination of the recursion over the hierarchy *)

Lemma link_at_links_of (bs : list Bone) (i : Z) :
  link_at (links_of bs) i = option_map links (bone_at bs i).
Proof.
  unfold link_at, bone_at, links_of. destruct (i <? 0)%Z; [reflexivity|].
  apply nth_error_map.
Qed.

Lemma depth_mono (sk : list (Z * list Z)) (f : nat) :
  forall f' i d, depth f sk i = Some d -> (f <= f')%nat -> depth f' sk i = Some d.
Proof.
  induction f as [|f IH]; simpl; intros f' i d H Hle; [discriminate|].
  destruct f' as [|f']; [lia|]. simpl.
  destruct (link_at sk i) as [[p cs]|]; [|discriminate].
  destruct (p =? -1)%Z; [exact H|].
  destruct (depth f sk p) as [d'|] eqn:Hd; [|discriminate].
  rewrite (IH f' p d' Hd) by lia. exact H.
Qed.

Lemma depth_bound (sk : list (Z * list Z)) (f : nat) :
  forall i d, depth f sk i = Some d -> (d < f)%nat.
Proof.
  induction f as [|f IH]; simpl; intros i d H; [discriminate|].
  destruct (link_at sk i) as [[p cs]|]; [|discriminate].
  destruct (p =? -1)%Z; [inversion H; lia|].
  destruct (depth f sk p) as [d'|] eqn:Hd; [|discriminate].
  apply IH in Hd. inversion H; lia.
Qed.

Lemma forest_from_spec (sk : list (Z * list Z)) (todo : list (Z * list Z)) :
  forall i0 k p cs,
    forest_from sk i0 todo = true -> nth_error todo k = Some (p, cs) ->
    (exists d, depth (length sk) sk (i0 + Z.of_nat k) = Some d) /\
    forall c, In c cs -> child_ok sk (i0 + Z.of_nat k) c = true.
Proof.
  induction todo as [|[p0 cs0] todo IH]; intros i0 k p cs H Hk.
  - destruct k; discriminate.
  - simpl in H. apply andb_true_iff in H as [H H3].
    apply andb_true_iff in H as [H1 H2].
    destruct k as [|k]; simpl in Hk.
    + inversion Hk; subst. rewrite Z.add_0_r. split.
      * destruct (depth (length sk) sk i0); [eauto|discriminate].
      * intros c Hc. rewrite forallb_forall in H2. auto.
    + replace (i0 + Z.of_nat (S k))%Z with ((i0 + 1) + Z.of_nat k)%Z by lia.
      eapply IH; eauto.
Qed.

Lemma forest_spec (sk : list (Z * list Z)) (i p : Z) (cs : list Z) :
  forest sk = true -> link_at sk i = Some (p, cs) ->
  (exists d, depth (length sk) sk i = Some d) /\
  forall c, In c cs -> child_ok sk i c = true.
Proof.
  unfold forest, link_at. intros Hf.
  destruct (i <? 0)%Z eqn:Hi; [discriminate|]. apply Z.ltb_ge in Hi.
  intros Hn.
  pose proof (forest_from_spec sk sk 0 (Z.to_nat i) p cs Hf Hn) as H.
  rewrite Z2Nat.id in H by lia. exact H.
Qed.

(** A child of a bone of depth [d] has depth [d + 1]. *)
Lemma child_depth (sk : list (Z * list Z)) (i c p : Z) (cs : list Z) (d : nat) :
  forest sk = true -> link_at sk i = Some (p, cs) -> In c cs ->
  depth (length sk) sk i = Some d ->
  depth (length sk) sk c = Some (S d) /\ exists lc, link_at sk c = Some lc.
Proof.
  intros Hf Hi Hc Hd.
  destruct (forest_spec sk i p cs Hf Hi) as [_ Hch].
  specialize (Hch c Hc). unfold child_ok in Hch.
  destruct (link_at sk c) as [[pc csc]|] eqn:Hlc; [|discriminate].
  apply Z.eqb_eq in Hch; subst pc.
  destruct (forest_spec sk c i csc Hf Hlc) as [[dc Hdc] _].
  split; [|eauto].
  assert (Hi0 : (0 <= i)%Z).
  { unfold link_at in Hi. destruct (i <? 0)%Z eqn:E; [discriminate|].
    now apply Z.ltb_ge in E. }
  destruct (length sk) as [|n] eqn:Hn; [discriminate|].
  simpl in Hdc. rewrite Hlc in Hdc.
  destruct (i =? -1)%Z eqn:E; [apply Z.eqb_eq in E; lia|].
  destruct (depth n sk i) as [d'|] eqn:Hd'; [|discriminate].
  pose proof (depth_mono sk n (S n) i d' Hd' (Nat.le_succ_diag_r n)) as Hm.
  rewrite Hm in Hd. inversion Hd; subst.
  simpl. now rewrite Hlc, E, Hd'.
Qed.

Lemma bone_link (bs : list Bone) (i : Z) (b : Bone) :
  bone_at bs i = Some b -> link_at (links_of bs) i = Some (parent b, children b).
Proof. intros H. rewrite link_at_links_of, H. reflexivity. Qed.

Lemma link_bone (bs : list Bone) (i : Z) (l : Z * list Z) :
  link_at (links_of bs) i = Some l ->
  exists b, bone_at bs i = Some b /\ l = (parent b, children b).
Proof.
  rewrite link_at_links_of. destruct (bone_at bs i) as [b|]; [|discriminate].
  intros H; inversion H; subst. eauto.
Qed.

Lemma getD_i_terminates (m : Mesh) (f : nat) :
  forall fuel bone d, depth f (links_of (bones m)) bone = Some d ->
    (d < fuel)%nat -> exists D, Scene.getD_i fuel m bone = Ok D.
Proof.
  induction f as [|f IH]; simpl; intros fuel bone d H Hlt; [discriminate|].
  destruct fuel as [|fuel]; [lia|]. simpl.
  rewrite link_at_links_of in H.
  destruct (bone_at (bones m) bone) as [b|]; [|discriminate]. simpl in H.
  destruct (parent b =? -1)%Z; [eauto|].
  destruct (depth f (links_of (bones m)) (parent b)) as [d'|] eqn:Hd;
    [|discriminate].
  inversion H; subst.
  destruct (IH fuel (parent b) d' Hd) as [D HD]; [lia|].
  rewrite HD; simpl; eauto.
Qed.

Lemma getR_i_terminates (m : Mesh) (f : nat) :
  forall fuel bone d, depth f (links_of (bones m)) bone = Some d ->
    (d < fuel)%nat -> exists q, Scene.getR_i fuel m bone = Ok q.
Proof.
  induction f as [|f IH]; simpl; intros fuel bone d H Hlt; [discriminate|].
  destruct fuel as [|fuel]; [lia|]. simpl.
  rewrite link_at_links_of in H.
  destruct (bone_at (bones m) bone) as [b|]; [|discriminate]. simpl in H.
  destruct (parent b =? -1)%Z; [eauto|].
  destruct (depth f (links_of (bones m)) (parent b)) as [d'|] eqn:Hd;
    [|discriminate].
  inversion H; subst.
  destruct (IH fuel (parent b) d' Hd) as [D HD]; [lia|].
  rewrite HD; simpl; eauto.
Qed.

Lemma getU_i_terminates (m : Mesh) (f : nat) :
  forall fuel bone d, depth f (links_of (bones m)) bone = Some d ->
    (d < fuel)%nat -> exists U, Scene.getU_i fuel m bone = Ok U.
Proof.
  induction f as [|f IH]; simpl; intros fuel bone d H Hlt; [discriminate|].
  destruct fuel as [|fuel]; [lia|]. simpl.
  rewrite link_at_links_of in H.
  destruct (bone_at (bones m) bone) as [b|]; [|discriminate]. simpl in H.
  destruct (parent b =? -1)%Z; [eauto|].
  destruct (depth f (links_of (bones m)) (parent b)) as [d'|] eqn:Hd;
    [|discriminate].
  inversion H; subst.
  destruct (IH fuel (parent b) d' Hd) as [D HD]; [lia|].
  rewrite HD; simpl; eauto.
Qed.

Lemma list_set_same {A : Type} (n : nat) (x : A) (l : list A) :
  nth_error l n = Some x -> list_set n x l = l.
Proof.
  revert n; induction l as [|y l IH]; intros [|n]; simpl; intros H;
    try discriminate; auto.
  - now inversion H.
  - f_equal; auto.
Qed.

Lemma map_list_set {A B : Type} (f : A -> B) (n : nat) (x : A) (l : list A) :
  map f (list_set n x l) = list_set n (f x) (map f l).
Proof.
  revert n; induction l as [|y l IH]; intros [|n]; simpl; auto.
  f_equal; auto.
Qed.

Lemma set_bone_links (bs : list Bone) (i : Z) (b b' : Bone) :
  bone_at bs i = Some b -> links b' = links b ->
  links_of (set_bone bs i b') = links_of bs.
Proof.
  intros Hb Hl. unfold links_of, set_bone. rewrite map_list_set, Hl.
  apply list_set_same. rewrite nth_error_map.
  apply bone_at_Some in Hb as (_ & -> & _). reflexivity.
Qed.

Lemma storePose_links (m : Mesh) (bone : Z) (D : Mat4) (b : Bone) :
  bone_at (bones m) bone = Some b ->
  exists m', Scene.storePose m bone D = Ok m' /\
             links_of (bones m') = links_of (bones m).
Proof.
  intros Hb. unfold Scene.storePose. rewrite Hb. simpl.
  eexists; split; [reflexivity|]. simpl.
  eapply set_bone_links; eauto.
Qed.

Lemma storeRotation_links (m : Mesh) (bone : Z) (q : Quat) (b : Bone) :
  bone_at (bones m) bone = Some b ->
  exists m', Scene.storeRotation m bone q = Ok m' /\
             links_of (bones m') = links_of (bones m).
Proof.
  intros Hb. unfold Scene.storeRotation. rewrite Hb. simpl.
  eexists; split; [reflexivity|]. simpl.
  eapply set_bone_links; eauto.
Qed.

Lemma fold_children_Ok {A : Type} (P : Mesh -> Prop) (f : Mesh -> A -> res Mesh) (cs : list A) :
  (forall m c, In c cs -> P m -> exists m', f m c = Ok m' /\ P m') ->
  forall m, P m ->
    exists m1, fold_left (fun acc c => m' <- acc ;; f m' c) cs (Ok m) = Ok m1 /\ P m1.
Proof.
  induction cs as [|c cs IH]; simpl; intros Hf m Hm; [eauto|].
  destruct (Hf m c (or_introl eq_refl) Hm) as (m' & Hc & Hm').
  rewrite Hc. apply IH; auto.
Qed.

Lemma updateMesh_S (fuel : nat) (m : Mesh) (bone : Z)
    (D_parent : option Mat4) (rot_parent : option Quat) :
  Scene.updateMesh (S fuel) m bone D_parent rot_parent
  = match bone_at (bones m) bone with
    | None => TypeError
    | Some boneInstance =>
        Dr <- match D_parent, rot_parent with
              | Some D, Some rot =>
                  Ok (Mat4_product D
                        (Mat4_product (getMat4 (heap m) (T_ij boneInstance))
                           (Quat_toMat4 (getQuat (heap m) (R_i boneInstance)))),
                      Quat_product rot (getQuat (heap m) (R_i boneInstance)))
              | _, _ =>
                  D <- Scene.getD_i (S fuel) m bone ;;
                  r <- Scene.getR_i (S fuel) m bone ;;
                  Ok (D, r)
              end ;;
        m1 <- fold_left
                (fun acc child =>
                   m' <- acc ;;
                   Scene.updateMesh fuel m' child (Some (fst Dr)) (Some (snd Dr)))
                (children boneInstance) (Ok m) ;;
        m2 <- Scene.storePose m1 bone (fst Dr) ;;
        Scene.storeRotation m2 bone (snd Dr)
    end.
Proof. reflexivity. Qed.

Lemma calculateD_iAndTranslate_S (fuel : nat) (m : Mesh) (bone : Z)
    (D_parent : option Mat4) :
  Scene.calculateD_iAndTranslate (S fuel) m bone D_parent
  = match bone_at (bones m) bone with
    | None => TypeError
    | Some boneInstance =>
        D_i <- match D_parent with
               | None => Scene.getD_i (S fuel) m bone
               | Some D =>
                   Ok (Mat4_product D
                         (Mat4_product (getMat4 (heap m) (T_ij boneInstance))
                            (Quat_toMat4 (getQuat (heap m) (R_i boneInstance)))))
               end ;;
        m1 <- fold_left
                (fun acc child =>
                   m' <- acc ;;
                   Scene.calculateD_iAndTranslate fuel m' child (Some D_i))
                (children boneInstance) (Ok m) ;;
        Scene.storePose m1 bone D_i
    end.
Proof. reflexivity. Qed.

Lemma updateMesh_terminates (sk : list (Z * list Z)) :
  forest sk = true ->
  forall fuel m bone Dp rp d,
    links_of (bones m) = sk -> depth (length sk) sk bone = Some d ->
    (length sk <= fuel + d)%nat ->
    match Dp, rp with Some _, Some _ => True | _, _ => (d < fuel)%nat end ->
    exists m', Scene.updateMesh fuel m bone Dp rp = Ok m' /\
               links_of (bones m') = sk.
Proof.
  intros Hf. induction fuel as [|fuel IH]; intros m bone Dp rp d Hsk Hd Hle Hroot.
  - apply depth_bound in Hd. lia.
  - pose proof (depth_bound _ _ _ _ Hd) as Hdn.
    assert (Hl : exists l, link_at sk bone = Some l).
    { destruct (length sk); [lia|]. simpl in Hd.
      destruct (link_at sk bone); [eauto|discriminate]. }
    destruct Hl as [l Hl]. pose proof Hl as Hl'. rewrite <- Hsk in Hl'.
    apply link_bone in Hl' as (b & Hb & ->).
    rewrite updateMesh_S, Hb.
    assert (HDr : exists Dr,
      match Dp, rp with
      | Some D, Some rot =>
          Ok (Mat4_product D
                (Mat4_product (getMat4 (heap m) (T_ij b))
                   (Quat_toMat4 (getQuat (heap m) (R_i b)))),
              Quat_product rot (getQuat (heap m) (R_i b)))
      | _, _ =>
          D <- Scene.getD_i (S fuel) m bone ;;
          r <- Scene.getR_i (S fuel) m bone ;;
          Ok (D, r)
      end = Ok Dr).
    { rewrite <- Hsk in Hd.
      destruct Dp as [D|]; [destruct rp as [rot|]|]; eauto;
        destruct (getD_i_terminates m _ (S fuel) bone d Hd) as [D' HD]; try lia;
        destruct (getR_i_terminates m _ (S fuel) bone d Hd) as [r' Hr]; try lia;
        rewrite HD, Hr; simpl; eauto. }
    destruct HDr as [Dr HDr]. rewrite HDr. cbn [bind].
    destruct (fold_children_Ok (fun x => links_of (bones x) = sk)
                (fun m' c => Scene.updateMesh fuel m' c (Some (fst Dr)) (Some (snd Dr)))
                (children b)) with (m := m) as (m1 & Hfold & Hsk1); auto.
    { intros x c Hc Hx.
      destruct (child_depth sk bone c (parent b) (children b) d Hf Hl Hc Hd)
        as [Hdc _].
      apply (IH x c _ _ (S d)); auto. lia. }
    rewrite Hfold. cbn [bind].
    assert (Hb1 : exists b1, bone_at (bones m1) bone = Some b1).
    { rewrite <- Hsk1 in Hl. apply link_bone in Hl as (b1 & Hb1 & _). eauto. }
    destruct Hb1 as [b1 Hb1].
    destruct (storePose_links m1 bone (fst Dr) b1 Hb1) as (m2 & Hp & Hsk2).
    rewrite Hp. cbn [bind].
    assert (Hb2 : exists b2, bone_at (bones m2) bone = Some b2).
    { rewrite <- Hsk1, <- Hsk2 in Hl. apply link_bone in Hl as (b2 & Hb2 & _). eauto. }
    destruct Hb2 as [b2 Hb2].
    destruct (storeRotation_links m2 bone (snd Dr) b2 Hb2) as (m3 & Hr & Hsk3).
    exists m3. split; [exact Hr|]. congruence.
Qed.

Lemma calculateD_iAndTranslate_terminates (sk : list (Z * list Z)) :
  forest sk = true ->
  forall fuel m bone Dp d,
    links_of (bones m) = sk -> depth (length sk) sk bone = Some d ->
    (length sk <= fuel + d)%nat ->
    match Dp with Some _ => True | None => (d < fuel)%nat end ->
    exists m', Scene.calculateD_iAndTranslate fuel m bone Dp = Ok m' /\
               links_of (bones m') = sk.
Proof.
  intros Hf. induction fuel as [|fuel IH]; intros m bone Dp d Hsk Hd Hle Hroot.
  - apply depth_bound in Hd. lia.
  - pose proof (depth_bound _ _ _ _ Hd) as Hdn.
    assert (Hl : exists l, link_at sk bone = Some l).
    { destruct (length sk); [lia|]. simpl in Hd.
      destruct (link_at sk bone); [eauto|discriminate]. }
    destruct Hl as [l Hl]. pose proof Hl as Hl'. rewrite <- Hsk in Hl'.
    apply link_bone in Hl' as (b & Hb & ->).
    rewrite calculateD_iAndTranslate_S, Hb.
    assert (HD : exists D_i,
      match Dp with
      | None => Scene.getD_i (S fuel) m bone
      | Some D =>
          Ok (Mat4_product D
                (Mat4_product (getMat4 (heap m) (T_ij b))
                   (Quat_toMat4 (getQuat (heap m) (R_i b)))))
      end = Ok D_i).
    { rewrite <- Hsk in Hd. destruct Dp as [D|]; eauto.
      apply (getD_i_terminates m _ (S fuel) bone d Hd). lia. }
    destruct HD as [D_i HD]. rewrite HD. cbn [bind].
    destruct (fold_children_Ok (fun x => links_of (bones x) = sk)
                (fun m' c => Scene.calculateD_iAndTranslate fuel m' c (Some D_i))
                (children b)) with (m := m) as (m1 & Hfold & Hsk1); auto.
    { intros x c Hc Hx.
      destruct (child_depth sk bone c (parent b) (children b) d Hf Hl Hc Hd)
        as [Hdc _].
      apply (IH x c _ (S d)); auto. lia. }
    rewrite Hfold. cbn [bind].
    assert (Hb1 : exists b1, bone_at (bones m1) bone = Some b1).
    { rewrite <- Hsk1 in Hl. apply link_bone in Hl as (b1 & Hb1 & _). eauto. }
    destruct Hb1 as [b1 Hb1].
    destruct (storePose_links m1 bone D_i b1 Hb1) as (m2 & Hp & Hsk2).
    exists m2. split; [exact Hp|]. congruence.
Qed.

(** C10. On a skeleton whose links form a forest, [getU_i], [getD_i],
    [getR_i], [updateMesh] and [calculateD_iAndTranslate] return for every
    bone of the skeleton: a recursion budget of one more than the number of
    bones is never exhausted, whatever the parent arguments. *)
Theorem hierarchy_recursion_terminates
    (m : Mesh) (bone : Z) (b : Bone) (fuel : nat) :
  forest (links_of (bones m)) = true ->
  bone_at (bones m) bone = Some b ->
  (length (bones m) < fuel)%nat ->
  (exists U, Scene.getU_i fuel m bone = Ok U) /\
  (exists D, Scene.getD_i fuel m bone = Ok D) /\
  (exists q, Scene.getR_i fuel m bone = Ok q) /\
  (forall Dp rp, exists m', Scene.updateMesh fuel m bone Dp rp = Ok m') /\
  (forall Dp, exists m', Scene.calculateD_iAndTranslate fuel m bone Dp = Ok m').
Proof.
  intros Hf Hb Hfuel.
  pose proof (bone_link _ _ _ Hb) as Hl.
  destruct (forest_spec _ _ _ _ Hf Hl) as [[d Hd] _].
  pose proof (depth_bound _ _ _ _ Hd) as Hdn.
  unfold links_of in Hdn, Hd. rewrite length_map in Hdn, Hd.
  fold (links_of (bones m)) in Hd.
  split; [eapply getU_i_terminates; eauto; lia|].
  split; [eapply getD_i_terminates; eauto; lia|].
  split; [eapply getR_i_terminates; eauto; lia|].
  split.
  - intros Dp rp.
    destruct (updateMesh_terminates (links_of (bones m)) Hf fuel m bone Dp rp d)
      as (m' & Hm' & _); eauto.
    + unfold links_of at 1; now rewrite length_map.
    + unfold links_of; rewrite length_map; lia.
    + destruct Dp, rp; auto; lia.
  - intros Dp.
    destruct (calculateD_iAndTranslate_terminates (links_of (bones m)) Hf fuel m bone Dp d)
      as (m' & Hm' & _); eauto.
    + unfold links_of at 1; now rewrite length_map.
    + unfold links_of; rewrite length_map; lia.
    + destruct Dp; auto; lia.
Qed.

(** The root of the two-bone skeleton. *)
Lemma hierarchy_recursion_terminates_witness :
  (exists D, Scene.getD_i 3 Examples3.mesh2 1 = Ok D) /\
  (exists m', Scene.updateMesh 3 Examples3.mesh2 0 None None = Ok m').
Proof.
  destruct (hierarchy_recursion_terminates Examples3.mesh2 1
              (mkBone 0 [] 4%nat 5%nat 2%nat false 1%nat 3%nat 6%nat 7%nat) 3
              eq_refl eq_refl) as (_ & HD & _); [simpl; lia|].
  destruct (hierarchy_recursion_terminates Examples3.mesh2 0
              (mkBone (-1) [1%Z] 0%nat 1%nat 0%nat false 0%nat 1%nat 2%nat 3%nat) 3
              eq_refl eq_refl) as (_ & _ & _ & HU & _); [simpl; lia|].
  split; [exact HD|apply HU].
Defined.

(** ** Bone length under rotation *)

Ltac alloc_as r h' Hlt Hext Hget :=
  match goal with
  | |- context [newVec3 ?h ?v] =>
      let E := fresh "E" in
      destruct (newVec3 h v) as [r h'] eqn:E;
      apply newVec3_spec in E; destruct E as [Hlt [Hext Hget]]
  | |- context [newQuat ?h ?v] =>
      let E := fresh "E" in
      destruct (newQuat h v) as [r h'] eqn:E;
      apply newQuat_spec in E; destruct E as [Hlt [Hext Hget]]
  | |- context [newMat4 ?h ?v] =>
      let E := fresh "E" in
      destruct (newMat4 h v) as [r h'] eqn:E;
      apply newMat4_spec in E; destruct E as [Hlt [Hext Hget]]
  end.

Lemma good_extends (h h' : Heap) (b : Bone) :
  extends h h' -> wf_bone h b -> good h b -> good h' b.
Proof.
  intros He (H1 & H2 & H3 & H4 & H5 & H6 & H7). unfold good.
  rewrite !(extends_getVec3 h h'), !(extends_getQuat h h'),
    !(extends_getMat4 h h') by assumption.
  auto.
Qed.

Lemma Forall_good_extends (h h' : Heap) (bs : list Bone) :
  extends h h' -> Forall (wf_bone h) bs -> Forall (good h) bs ->
  Forall (good h') bs.
Proof.
  intros He Hw Hg. rewrite Forall_forall in *. intros b Hb.
  apply (good_extends h h'); auto.
Qed.

Lemma local_rigid (h : Heap) (b : Bone) :
  good h b ->
  rigid (Mat4_product (getMat4 h (T_ij b)) (Quat_toMat4 (getQuat h (R_i b)))).
Proof.
  intros (Ht & Hr & _). apply Mat4_product_rigid; auto.
  now apply Quat_toMat4_rigid.
Qed.

Lemma getD_i_rigid (fuel : nat) :
  forall m bone D, Forall (good (heap m)) (bones m) ->
    Scene.getD_i fuel m bone = Ok D -> rigid D.
Proof.
  induction fuel as [|fuel IH]; simpl; intros m bone D Hg H; [discriminate|].
  destruct (bone_at (bones m) bone) as [b|] eqn:Hb; [|discriminate].
  apply bone_at_Some in Hb as (_ & _ & Hin).
  rewrite Forall_forall in Hg. pose proof (local_rigid _ _ (Hg b Hin)) as Hl.
  destruct (parent b =? -1)%Z.
  - inversion H; subst; exact Hl.
  - apply bind_Ok in H as (Dp & HDp & H). inversion H; subst.
    apply Mat4_product_rigid; auto.
    eapply IH; eauto. now apply Forall_forall.
Qed.

Lemma posed_length (D : Mat4) (ip ie : Vec3) :
  rigid D ->
  Vec3_squaredDistance (Mat4_multiplyPt3 D (mkVec3 0 0 0))
                       (Mat4_multiplyPt3 D (Vec3_difference ie ip))
  = Vec3_squaredDistance ip ie.
Proof.
  intros [_ Hd]. rewrite Hd.
  unfold Vec3_squaredDistance, Vec3_difference; simpl. ring.
Qed.

Lemma storePose_good (m m' : Mesh) (bone : Z) (D : Mat4) :
  wf_mesh m -> Forall (good (heap m)) (bones m) -> rigid D ->
  Scene.storePose m bone D = Ok m' -> Forall (good (heap m')) (bones m').
Proof.
  intros Hw Hg HD. unfold Scene.storePose.
  destruct (bone_at (bones m) bone) as [b|] eqn:Hb; [|discriminate].
  apply bone_at_Some in Hb as (_ & _ & Hin).
  alloc_as p h1 Hp Ea Ga. alloc_as e h2 He Eb Gb.
  intros H; inversion H; subst; clear H. simpl.
  assert (E02 : extends (heap m) h2) by (eapply extends_trans; eauto).
  unfold wf_mesh in Hw.
  apply Forall_list_set; [eapply Forall_good_extends; eauto|].
  rewrite Forall_forall in Hw, Hg.
  pose proof (Hw b Hin) as (H1 & H2 & H3 & H4 & H5 & H6 & H7).
  destruct (Hg b Hin) as (Ht & Hr & _).
  unfold good; simpl.
  rewrite (extends_getMat4 (heap m) h2), (extends_getQuat (heap m) h2)
    by assumption.
  split; [exact Ht|]. split; [exact Hr|].
  rewrite (extends_getVec3 h1 h2 p) by assumption.
  rewrite Ga, Gb.
  rewrite !(extends_getVec3 (heap m) h1), !(extends_getVec3 (heap m) h2)
    by assumption.
  now apply posed_length.
Qed.

Lemma storeRotation_good (m m' : Mesh) (bone : Z) (q : Quat) :
  wf_mesh m -> Forall (good (heap m)) (bones m) ->
  Scene.storeRotation m bone q = Ok m' -> Forall (good (heap m')) (bones m').
Proof.
  intros Hw Hg. unfold Scene.storeRotation.
  destruct (bone_at (bones m) bone) as [b|] eqn:Hb; [|discriminate].
  apply bone_at_Some in Hb as (_ & _ & Hin).
  alloc_as r h1 Hr Ea Ga.
  intros H; inversion H; subst; clear H. simpl.
  unfold wf_mesh in Hw.
  apply Forall_list_set; [eapply Forall_good_extends; eauto|].
  rewrite Forall_forall in Hw, Hg.
  apply (good_extends (heap m) h1) with (b := b) in Ea; auto.
Qed.

Lemma updateMesh_good (fuel : nat) :
  forall m bone Dp rp m',
    wf_mesh m -> Forall (good (heap m)) (bones m) ->
    (forall D, Dp = Some D -> rigid D) ->
    Scene.updateMesh fuel m bone Dp rp = Ok m' ->
    Forall (good (heap m')) (bones m').
Proof.
  induction fuel as [|fuel IH]; intros m bone Dp rp m' Hw Hg HDp H;
    [discriminate|].
  rewrite updateMesh_S in H.
  destruct (bone_at (bones m) bone) as [b|] eqn:Hb; [|discriminate].
  apply bind_Ok in H as (Dr & HDr & H).
  apply bind_Ok in H as (m1 & Hfold & H).
  apply bind_Ok in H as (m2 & Hpose & Hrot).
  assert (HD : rigid (fst Dr)).
  { pose proof (bone_at_Some _ _ _ Hb) as (_ & _ & Hin).
    pose proof (proj1 (Forall_forall _ _) Hg b Hin) as Hgb.
    destruct Dp as [D|]; [destruct rp as [rot|]|].
    - inversion HDr; subst; simpl.
      apply Mat4_product_rigid; auto using local_rigid.
    - apply bind_Ok in HDr as (D' & HD' & HDr).
      apply bind_Ok in HDr as (r' & _ & HDr). inversion HDr; subst; simpl.
      eapply getD_i_rigid; eauto.
    - apply bind_Ok in HDr as (D' & HD' & HDr).
      apply bind_Ok in HDr as (r' & _ & HDr). inversion HDr; subst; simpl.
      eapply getD_i_rigid; eauto. }
  assert (H1 : wf_mesh m1 /\ Forall (good (heap m1)) (bones m1)).
  { apply (fold_children_ind
             (fun x => wf_mesh x /\ Forall (good (heap x)) (bones x))
             (fun m' c => Scene.updateMesh fuel m' c (Some (fst Dr)) (Some (snd Dr)))
             (children b)) with (m := m); auto.
    intros x c x' _ [Hwx Hgx] Hc. split.
    - eapply updateMesh_evolves; eauto.
    - apply (IH x c (Some (fst Dr)) (Some (snd Dr)) x'); auto.
      intros D0 HDc; inversion HDc; subst; auto. }
  destruct H1 as [Hw1 Hg1].
  pose proof (storePose_evolves _ _ _ _ Hw1 Hpose) as (Hw2 & _ & _).
  pose proof (storePose_good _ _ _ _ Hw1 Hg1 HD Hpose) as Hg2.
  eapply storeRotation_good; eauto.
Qed.

Lemma calculateD_iAndTranslate_good (fuel : nat) :
  forall m bone Dp m',
    wf_mesh m -> Forall (good (heap m)) (bones m) ->
    (forall D, Dp = Some D -> rigid D) ->
    Scene.calculateD_iAndTranslate fuel m bone Dp = Ok m' ->
    Forall (good (heap m')) (bones m').
Proof.
  induction fuel as [|fuel IH]; intros m bone Dp m' Hw Hg HDp H;
    [discriminate|].
  rewrite calculateD_iAndTranslate_S in H.
  destruct (bone_at (bones m) bone) as [b|] eqn:Hb; [|discriminate].
  apply bind_Ok in H as (D_i & HDi & H).
  apply bind_Ok in H as (m1 & Hfold & Hpose).
  assert (HD : rigid D_i).
  { pose proof (bone_at_Some _ _ _ Hb) as (_ & _ & Hin).
    pose proof (proj1 (Forall_forall _ _) Hg b Hin) as Hgb.
    destruct Dp as [D|].
    - inversion HDi; subst.
      apply Mat4_product_rigid; auto using local_rigid.
    - eapply getD_i_rigid; eauto. }
  assert (H1 : wf_mesh m1 /\ Forall (good (heap m1)) (bones m1)).
  { apply (fold_children_ind
             (fun x => wf_mesh x /\ Forall (good (heap x)) (bones x))
             (fun m' c => Scene.calculateD_iAndTranslate fuel m' c (Some D_i))
             (children b)) with (m := m); auto.
    intros x c x' _ [Hwx Hgx] Hc. split.
    - eapply calculateD_iAndTranslate_evolves; eauto.
    - apply (IH x c (Some D_i) x'); auto.
      intros D0 HDc; inversion HDc; subst; auto. }
  destruct H1 as [Hw1 Hg1].
  eapply storePose_good; eauto.
Qed.

Lemma Mesh_rotateBone_good (m m' : Mesh) (i : Z) (axis : Vec3) (angle : R) :
  wf_mesh m -> Forall (good (heap m)) (bones m) ->
  unitQuat (Quat_fromAxisAngle axis angle) ->
  Scene.Mesh_rotateBone m i axis angle = Ok m' ->
  Forall (good (heap m')) (bones m').
Proof.
  intros Hw Hg Hu. unfold Scene.Mesh_rotateBone, Scene.rotateBone.
  destruct (bone_at (bones m) i) as [b|] eqn:Hb; [|discriminate].
  apply bone_at_Some in Hb as (_ & _ & Hin).
  alloc_as r h1 Hr Ea Ga.
  intros H; inversion H; subst; clear H. simpl.
  unfold wf_mesh in Hw.
  apply Forall_list_set; [eapply Forall_good_extends; eauto|].
  rewrite Forall_forall in Hw, Hg.
  pose proof (Hw b Hin) as (H1 & H2 & H3 & H4 & H5 & H6 & H7).
  destruct (Hg b Hin) as (Ht & Hq & Hlen).
  unfold good; simpl.
  rewrite (extends_getMat4 (heap m) h1), !(extends_getVec3 (heap m) h1)
    by assumption.
  split; [exact Ht|]. split; [|exact Hlen].
  rewrite Ga. now apply Quat_product_unit.
Qed.

(** ** The Mesh constructor of the later revision *)

Lemma Mat4_translate_rigid (m : Mat4) (v : Vec3) :
  rigid m -> rigid (Mat4_translate m v).
Proof.
  intros [(H3 & H7 & H11 & H15) Hd]. split.
  - unfold affine; simpl. rewrite H3, H7, H11, H15. repeat split; ring.
  - intros a b.
    assert (Hshift : forall u,
      Mat4_multiplyPt3 (Mat4_translate m v) u
      = Mat4_multiplyPt3 m (mkVec3 (vx u + vx v) (vy u + vy v) (vz u + vz v))).
    { intros u. unfold Mat4_multiplyPt3; simpl. f_equal; ring. }
    rewrite !Hshift, Hd. unfold Vec3_squaredDistance; simpl. ring.
Qed.

Lemma Mat4_identity_rigid : rigid Mat4_identity.
Proof.
  split.
  - unfold affine; simpl; auto.
  - intros a b. unfold Vec3_squaredDistance, Mat4_multiplyPt3; simpl. ring.
Qed.

Lemma Bone_new_spec (h : Heap) (l : BoneLoader) :
  extends h (snd (Scene.Bone_constructor h (inl l))) /\
  wf_bone (snd (Scene.Bone_constructor h (inl l)))
          (fst (Scene.Bone_constructor h (inl l))) /\
  loaded (snd (Scene.Bone_constructor h (inl l))) l
         (fst (Scene.Bone_constructor h (inl l))).
Proof.
  unfold Scene.Bone_constructor. cbv beta iota.
  alloc_as ref1 hp1 Hlt1 Hex1 Hgt1. alloc_as ref2 hp2 Hlt2 Hex2 Hgt2. alloc_as ref3 hp3 Hlt3 Hex3 Hgt3.
  alloc_as ref4 hp4 Hlt4 Hex4 Hgt4. alloc_as ref5 hp5 Hlt5 Hex5 Hgt5. alloc_as ref6 hp6 Hlt6 Hex6 Hgt6.
  alloc_as ref7 hp7 Hlt7 Hex7 Hgt7. cbn [fst snd].
  pose proof (extends_length _ _ Hex1). pose proof (extends_length _ _ Hex2).
  pose proof (extends_length _ _ Hex3). pose proof (extends_length _ _ Hex4).
  pose proof (extends_length _ _ Hex5). pose proof (extends_length _ _ Hex6).
  pose proof (extends_length _ _ Hex7).
  assert (Hex1g : extends hp1 hp7) by eauto 10 using extends_trans.
  assert (Hex2g : extends hp2 hp7) by eauto 10 using extends_trans.
  assert (Hex3g : extends hp3 hp7) by eauto 10 using extends_trans.
  assert (Hex4g : extends hp4 hp7) by eauto 10 using extends_trans.
  assert (Hex5g : extends hp5 hp7) by eauto 10 using extends_trans.
  assert (Hex6g : extends hp6 hp7) by eauto 10 using extends_trans.
  split; [eauto 10 using extends_trans|]. split.
  - unfold wf_bone; simpl. lia.
  - split; [|reflexivity]. unfold values; simpl. f_equal.
    + rewrite (extends_getVec3 hp1 hp7 ref1); auto.
    + rewrite (extends_getVec3 hp2 hp7 ref2); auto.
    + rewrite (extends_getQuat hp3 hp7 ref3); auto.
    + rewrite (extends_getMat4 hp6 hp7 ref6); auto.
    + exact Hgt7.
    + rewrite (extends_getVec3 hp4 hp7 ref4); auto. rewrite Hgt4.
      rewrite (extends_getVec3 hp1 hp3 ref1); eauto using extends_trans.
    + rewrite (extends_getVec3 hp5 hp7 ref5); auto. rewrite Hgt5.
      rewrite (extends_getVec3 hp2 hp4 ref2); eauto using extends_trans.
Qed.

Lemma pushBones_cons (h : Heap) (l : BoneLoader) (ls : list BoneLoader) :
  Scene.pushBones h (l :: ls)
  = (let '(b, h1) := Scene.Bone_constructor h (inl l) in
     let '(bs, h2) := Scene.pushBones h1 ls in (b :: bs, h2)).
Proof. reflexivity. Qed.

Lemma loaded_extends (h h' : Heap) (l : BoneLoader) (b : Bone) :
  extends h h' -> wf_bone h b -> loaded h l b -> loaded h' l b.
Proof.
  intros He Hw [Hv Hl]. split; [|exact Hl].
  now rewrite (extends_values h h').
Qed.

Lemma pushBones_spec (ls : list BoneLoader) :
  forall h,
    extends h (snd (Scene.pushBones h ls)) /\
    Forall (wf_bone (snd (Scene.pushBones h ls))) (fst (Scene.pushBones h ls)) /\
    Forall2 (loaded (snd (Scene.pushBones h ls))) ls (fst (Scene.pushBones h ls)).
Proof.
  induction ls as [|l ls IH]; intros h.
  - simpl. split; [apply extends_refl|]. split; constructor.
  - rewrite pushBones_cons.
    pose proof (Bone_new_spec h l) as (He & Hw & Hl).
    destruct (Scene.Bone_constructor h (inl l)) as [b h1]. cbn [fst snd] in *.
    specialize (IH h1). destruct IH as (He' & Hw' & Hl').
    destruct (Scene.pushBones h1 ls) as [bs h2]. cbn [fst snd] in *.
    split; [eapply extends_trans; eauto|].
    split; constructor; auto.
    + eapply extends_wf_bone; eauto.
    + eapply loaded_extends; eauto.
Qed.

Lemma loaded_good (h : Heap) (l : BoneLoader) (b : Bone) :
  loaded h l b -> good h b.
Proof.
  intros [Hv _]. unfold values in Hv. injection Hv as Hp He Hr Ht Hq Hip Hie.
  unfold good. rewrite Ht, Hq, Hp, He, Hip, Hie.
  split; [apply Mat4_identity_rigid|]. split; [apply Quat_identity_unit|].
  reflexivity.
Qed.

Lemma initT_ij_same_but_mat4 (all : list Bone) (h h' : Heap) (bone : Bone) :
  Scene.initT_ij all h bone = Ok h' -> same_but_mat4 h h'.
Proof.
  unfold Scene.initT_ij. intros H.
  apply bind_Ok in H as (translation & _ & H). inversion H; subst; clear H.
  unfold same_but_mat4; simpl.
  split; [reflexivity|]. split; [reflexivity|].
  split; [apply list_set_length|].
  - intros r Hr. unfold getMat4 in *; simpl.
    destruct (Nat.eq_dec (T_ij bone) r) as [->|Hne].
    + destruct (Nat.lt_ge_cases r (length (mat4s h))) as [Hlt|Hge].
      * rewrite nth_list_set_eq by assumption. now apply Mat4_translate_rigid.
      * rewrite nth_overflow in * by (try rewrite list_set_length; lia).
        exact Hr.
    + now rewrite nth_list_set_neq.
Qed.

Lemma initT_ij_loop_same_but_mat4 (all todo : list Bone) :
  forall h h', Scene.initT_ij_loop all h todo = Ok h' -> same_but_mat4 h h'.
Proof.
  induction todo as [|b todo IH]; simpl; intros h h' H.
  - inversion H; subst. unfold same_but_mat4; auto.
  - apply bind_Ok in H as (h1 & H1 & H2).
    apply initT_ij_same_but_mat4 in H1 as (Hv & Hq & Hl & Hr).
    apply IH in H2 as (Hv' & Hq' & Hl' & Hr').
    unfold same_but_mat4.
    split; [congruence|]. split; [congruence|]. split; [congruence|]. auto.
Qed.

Lemma Mesh_constructor_spec (h : Heap) (ls : list BoneLoader) (m : Mesh) :
  Scene.Mesh_constructor h ls = Ok m ->
  wf_mesh m /\ Forall (good (heap m)) (bones m) /\
  links_of (bones m) = map (fun l => (l_parent l, l_children l)) ls /\
  map (fun b => getVec3 (heap m) (initPosition b)) (bones m) = map l_position ls /\
  map (fun b => getVec3 (heap m) (initEndpoint b)) (bones m) = map l_endpoint ls.
Proof.
  unfold Scene.Mesh_constructor.
  pose proof (pushBones_spec ls h) as (He & Hw & Hl).
  destruct (Scene.pushBones h ls) as [bs h1]. cbn [fst snd] in *.
  intros H. apply bind_Ok in H as (h2 & Hloop & H). inversion H; subst; clear H.
  apply initT_ij_loop_same_but_mat4 in Hloop as (Hv & Hq & Hlen & Hr).
  simpl. split; [|split; [|split; [|split]]].
  - unfold wf_mesh; simpl. eapply Forall_impl; [|exact Hw].
    intros b. unfold wf_bone. rewrite Hv, Hq, Hlen. auto.
  - clear Hw. induction Hl as [|l b ls' bs' Hlb Hl IH]; constructor; auto.
    apply loaded_good in Hlb. destruct Hlb as (Ht & Hu & Hd).
    unfold good, getVec3, getQuat in *. rewrite Hv, Hq. auto.
  - clear Hw. induction Hl as [|l b ls' bs' [_ Hlb] Hl IH]; simpl; f_equal; auto.
  - clear Hw. induction Hl as [|l b ls' bs' [Hlb _] Hl IH]; simpl; f_equal; auto.
    unfold values in Hlb. inversion Hlb. unfold getVec3 in *. now rewrite Hv.
  - clear Hw. induction Hl as [|l b ls' bs' [Hlb _] Hl IH]; simpl; f_equal; auto.
    unfold values in Hlb. inversion Hlb. unfold getVec3 in *. now rewrite Hv.
Qed.

(** ** Edit sessions *)

Lemma Forall2_same_bind_links (bs bs' : list Bone) :
  Forall2 same_bind bs bs' -> links_of bs' = links_of bs.
Proof.
  induction 1 as [|b b' bs bs' (Hp & Hc & _) _ IH]; auto.
  unfold links_of in *. cbn [map]. rewrite IH. unfold links.
  now rewrite Hp, Hc.
Qed.

Lemma bone_at_in_range (bs : list Bone) (i : Z) :
  (0 <= i < Z.of_nat (length bs))%Z -> exists b, bone_at bs i = Some b.
Proof.
  intros Hi. unfold bone_at.
  destruct (i <? 0)%Z eqn:E; [apply Z.ltb_lt in E; lia|].
  destruct (nth_error bs (Z.to_nat i)) eqn:Hn; [eauto|].
  apply nth_error_None in Hn. lia.
Qed.

Lemma links_of_length (bs : list Bone) : length (links_of bs) = length bs.
Proof. apply length_map. Qed.

Lemma applyEdit_invariant (sk : list (Z * list Z)) (fuel : nat) (m : Mesh) (e : Edit) :
  forest sk = true -> (length sk < fuel)%nat -> edit_ok (length sk) e ->
  wf_mesh m -> Forall (good (heap m)) (bones m) -> links_of (bones m) = sk ->
  exists m', applyEdit fuel m e = Ok m' /\
    wf_mesh m' /\ Forall (good (heap m')) (bones m') /\ links_of (bones m') = sk.
Proof.
  intros Hf Hfuel He Hw Hg Hsk.
  assert (Hlen : length (bones m) = length sk)
    by (rewrite <- Hsk; symmetry; apply links_of_length).
  assert (Hdepth : forall i, (0 <= i < Z.of_nat (length sk))%Z ->
            exists d, depth (length sk) sk i = Some d).
  { intros i Hi. rewrite <- Hlen in Hi.
    destruct (bone_at_in_range _ _ Hi) as [b Hb].
    apply bone_link in Hb. rewrite Hsk in Hb.
    now destruct (forest_spec sk i _ _ Hf Hb). }
  destruct e as [i axis angle|i|i]; cbn [applyEdit edit_ok] in *.
  - destruct He as [Hi Hu]. rewrite <- Hlen in Hi.
    destruct (bone_at_in_range _ _ Hi) as [b Hb].
    assert (Hok : exists m', Scene.Mesh_rotateBone m i axis angle = Ok m').
    { unfold Scene.Mesh_rotateBone. rewrite Hb.
      destruct (Scene.rotateBone (heap m) b axis angle); eauto. }
    destruct Hok as [m' Hm']. exists m'. split; [exact Hm'|].
    pose proof (Mesh_rotateBone_evolves _ _ _ _ _ Hw Hm') as (Hw' & _ & Hb').
    split; [exact Hw'|]. split; [apply (Mesh_rotateBone_good m m' i axis angle); auto|].
    apply Forall2_same_bind_links in Hb'. congruence.
  - destruct (Hdepth i He) as [d Hd].
    pose proof (depth_bound _ _ _ _ Hd).
    destruct (updateMesh_terminates sk Hf fuel m i None None d)
      as (m' & Hm' & Hsk'); auto; try lia.
    exists m'. split; [exact Hm'|].
    split; [eapply updateMesh_evolves; eauto|].
    split; [|exact Hsk'].
    apply (updateMesh_good fuel m i None None m'); auto. discriminate.
  - destruct (Hdepth i He) as [d Hd].
    pose proof (depth_bound _ _ _ _ Hd).
    destruct (calculateD_iAndTranslate_terminates sk Hf fuel m i None d)
      as (m' & Hm' & Hsk'); auto; try lia.
    exists m'. split; [exact Hm'|].
    split; [eapply calculateD_iAndTranslate_evolves; eauto|].
    split; [|exact Hsk'].
    apply (calculateD_iAndTranslate_good fuel m i None m'); auto. discriminate.
Qed.

Lemma runEdits_invariant (sk : list (Z * list Z)) (fuel : nat) (es : list Edit) :
  forest sk = true -> (length sk < fuel)%nat -> Forall (edit_ok (length sk)) es ->
  forall m,
    wf_mesh m -> Forall (good (heap m)) (bones m) -> links_of (bones m) = sk ->
    exists m', runEdits fuel m es = Ok m' /\
      wf_mesh m' /\ Forall (good (heap m')) (bones m') /\ links_of (bones m') = sk.
Proof.
  intros Hf Hfuel. induction 1 as [|e es He Hes IH]; intros m Hw Hg Hsk; simpl.
  - eauto.
  - destruct (applyEdit_invariant sk fuel m e Hf Hfuel He Hw Hg Hsk)
      as (m1 & H1 & Hw1 & Hg1 & Hsk1).
    rewrite H1; simpl. now apply IH.
Qed.

(** C4. On a skeleton built by the constructor whose links form a forest,
    every finite sequence of rotateBone calls by unit quaternions, updateMesh
    calls and calculateD_iAndTranslate calls runs to completion, and
    afterwards the distance between each bone's position and endpoint is the
    distance between its initPosition and initEndpoint. *)
Theorem bone_length_invariant
    (h : Heap) (ls : list BoneLoader) (m0 : Mesh) (edits : list Edit) (fuel : nat) :
  Scene.Mesh_constructor h ls = Ok m0 ->
  forest (links_of (bones m0)) = true ->
  Forall (edit_ok (length ls)) edits ->
  (length ls < fuel)%nat ->
  exists m,
    runEdits fuel m0 edits = Ok m /\
    forall i b, bone_at (bones m) i = Some b ->
      Vec3_distance (getVec3 (heap m) (position b)) (getVec3 (heap m) (endpoint b))
      = Vec3_distance (getVec3 (heap m) (initPosition b))
                      (getVec3 (heap m) (initEndpoint b)).
Proof.
  intros Hc Hf Hes Hfuel.
  apply Mesh_constructor_spec in Hc as (Hw & Hg & Hl & _).
  assert (Hn : length (links_of (bones m0)) = length ls)
    by (rewrite Hl; apply length_map).
  destruct (runEdits_invariant (links_of (bones m0)) fuel edits Hf) with (m := m0)
    as (m & Hrun & _ & Hgm & _); auto; try (rewrite Hn; auto).
  exists m. split; [exact Hrun|].
  intros i b Hb. apply bone_at_Some in Hb as (_ & _ & Hin).
  rewrite Forall_forall in Hgm. destruct (Hgm b Hin) as (_ & _ & Hd).
  unfold Vec3_distance. now rewrite Hd.
Qed.

(** The root of the two-bone skeleton turned by one radian about the Y axis,
    then recomputed. *)
Lemma bone_length_invariant_witness :
  exists m,
    runEdits 3 Examples3.mesh2
      [RotateBone 0 (mkVec3 0 1 0) 1; UpdateMesh 0] = Ok m /\
    forall i b, bone_at (bones m) i = Some b ->
      Vec3_distance (getVec3 (heap m) (position b)) (getVec3 (heap m) (endpoint b))
      = Vec3_distance (getVec3 (heap m) (initPosition b))
                      (getVec3 (heap m) (initEndpoint b)).
Proof.
  apply (bone_length_invariant Store.empty [Examples2.rootL; Examples2.childL]).
  - evalR. reflexivity.
  - reflexivity.
  - repeat constructor; simpl; try lia.
    apply Quat_fromAxisAngle_unit; simpl; ring.
  - simpl; lia.
Defined.

(** ** The picking pass *)

Lemma nearest_spec (ints : list (option R)) :
  forall i hi mt,
    snd (nearest ints i (hi, mt)) <= mt /\
    (forall k t, nth_error ints k = Some (Some t) ->
       snd (nearest ints i (hi, mt)) <= t) /\
    ((fst (nearest ints i (hi, mt)) = hi /\ snd (nearest ints i (hi, mt)) = mt /\
      forall k t, nth_error ints k = Some (Some t) -> mt < t) \/
     (exists k, fst (nearest ints i (hi, mt)) = Some (i + Z.of_nat k)%Z /\
        nth_error ints k = Some (Some (snd (nearest ints i (hi, mt)))))).
Proof.
  induction ints as [|x ints IH]; intros i hi mt; simpl.
  - split; [lra|]. split; [intros [|k] t H; discriminate|].
    left. repeat split. intros [|k] t H; discriminate.
  - unfold nearest_step at 1 2 3 4 5 6; simpl.
    destruct x as [t0|].
    + destruct (Rle_dec t0 mt) as [Hle|Hgt].
      * destruct (IH (i + 1)%Z (Some i) t0) as (H1 & H2 & H3).
        split; [lra|]. split.
        -- intros [|k] t H; simpl in H; [inversion H; subst; lra|eauto].
        -- right. destruct H3 as [(Hf & Hs & Hall)|(k & Hf & Hk)].
           ++ exists 0%nat. rewrite Hf, Hs. simpl. now rewrite Z.add_0_r.
           ++ exists (S k). rewrite Hf. simpl. split; [f_equal; lia|exact Hk].
      * destruct (IH (i + 1)%Z hi mt) as (H1 & H2 & H3).
        split; [exact H1|]. split.
        -- intros [|k] t H; simpl in H; [inversion H; subst; lra|eauto].
        -- destruct H3 as [(Hf & Hs & Hall)|(k & Hf & Hk)].
           ++ left. repeat split; auto.
              intros [|k] t H; simpl in H; [inversion H; subst; lra|eauto].
           ++ right. exists (S k). rewrite Hf. simpl.
              split; [f_equal; lia|exact Hk].
    + destruct (IH (i + 1)%Z hi mt) as (H1 & H2 & H3).
      split; [exact H1|]. split.
      * intros [|k] t H; simpl in H; [discriminate|eauto].
      * destruct H3 as [(Hf & Hs & Hall)|(k & Hf & Hk)].
        -- left. repeat split; auto.
           intros [|k] t H; simpl in H; [discriminate|eauto].
        -- right. exists (S k). rewrite Hf. simpl.
           split; [f_equal; lia|exact Hk].
Qed.

Lemma bone_at_app_middle (pre post : list Bone) (b : Bone) :
  bone_at (pre ++ b :: post) (Z.of_nat (length pre)) = Some b.
Proof.
  unfold bone_at.
  destruct (Z.of_nat (length pre) <? 0)%Z eqn:E; [apply Z.ltb_lt in E; lia|].
  rewrite Nat2Z.id, nth_error_app2, Nat.sub_diag by lia. reflexivity.
Qed.

Lemma set_bone_app_middle (pre post : list Bone) (b b' : Bone) :
  set_bone (pre ++ b :: post) (Z.of_nat (length pre)) b' = pre ++ b' :: post.
Proof.
  unfold set_bone. rewrite Nat2Z.id.
  induction pre as [|a pre IH]; simpl; auto. now rewrite IH.
Qed.

Lemma highlightLoop_total (ints : list (option R)) :
  forall pre post hi mt sel,
    length post = length ints ->
    highlightLoop ints (Z.of_nat (length pre)) (mkPickVars hi mt (pre ++ post) sel)
    = Ok (mkPickVars
            (fst (nearest ints (Z.of_nat (length pre)) (hi, mt)))
            (snd (nearest ints (Z.of_nat (length pre)) (hi, mt)))
            (pre ++ map unhighlight post)
            (match ints with [] => sel | _ :: _ => NaN end)).
Proof.
  induction ints as [|x ints IH]; intros pre post hi mt sel Hlen.
  - destruct post; [|discriminate]. reflexivity.
  - destruct post as [|b post]; [discriminate|].
    cbn [highlightLoop nearest p_bones minT HighlightIndex map].
    rewrite bone_at_app_middle, set_bone_app_middle.
    replace (pre ++ setHighlight b false :: post)
      with ((pre ++ [setHighlight b false]) ++ post)
      by (rewrite <- app_assoc; reflexivity).
    replace (Z.of_nat (length pre) + 1)%Z
      with (Z.of_nat (length (pre ++ [setHighlight b false])))
      by (rewrite length_app; simpl; lia).
    assert (Hstep :
      (match x with
       | Some t => if Rle_dec t mt then (Some (Z.of_nat (length pre)), t)
                   else (hi, mt)
       | None => (hi, mt)
       end) = nearest_step (hi, mt) (Z.of_nat (length pre)) x)
      by reflexivity.
    rewrite Hstep.
    destruct (nearest_step (hi, mt) (Z.of_nat (length pre)) x) as [hi1 mt1].
    rewrite IH by (simpl in Hlen; lia).
    rewrite <- app_assoc. simpl.
    destruct ints; reflexivity.
Qed.

Section PickTheorem.

Variable inverse : Mat3 -> option Mat3.

Lemma intersectLoop_spec (h : Heap) (p d : Vec3) (bs : list Bone) :
  Forall (fun b => exists r, intersectBone inverse h b p d = Ok r) bs ->
  exists ints,
    intersectLoop inverse h bs p d = Ok ints /\
    Forall2 (fun b r => intersectBone inverse h b p d = Ok r) bs ints.
Proof.
  induction 1 as [|b bs [r Hr] _ (ints & Hi & Hf)]; simpl.
  - eauto.
  - rewrite Hr, Hi. simpl. eauto.
Qed.

Lemma bone_at_map_unhighlight (bs : list Bone) (j : Z) (b' : Bone) :
  bone_at (map unhighlight bs) j = Some b' -> isHighlight b' = false.
Proof.
  unfold bone_at. destruct (j <? 0)%Z; [discriminate|].
  rewrite nth_error_map. destruct (nth_error bs (Z.to_nat j)); [|discriminate].
  intros H; inversion H; reflexivity.
Qed.

Lemma hit_nth (s : State) (p d : Vec3) (ints : list (option R)) :
  Forall2 (fun b r => intersectBone inverse (heap (mesh s)) b p d = Ok r)
          (bones (mesh s)) ints ->
  forall k t, hit inverse s p d k t <->
              ((0 <= k)%Z /\ nth_error ints (Z.to_nat k) = Some (Some t)).
Proof.
  intros Hf k t. unfold hit, bone_at. split.
  - intros (b & Hb & Hr).
    destruct (k <? 0)%Z eqn:E; [discriminate|]. apply Z.ltb_ge in E.
    split; [exact E|].
    destruct (Forall2_nth_error _ _ _ _ _ Hf Hb) as (r & Hn & Hr').
    congruence.
  - intros [Hk Hn].
    destruct (k <? 0)%Z eqn:E; [apply Z.ltb_lt in E; lia|].
    assert (Hlen : length (bones (mesh s)) = length ints)
      by (eapply Forall2_length; eauto).
    destruct (nth_error (bones (mesh s)) (Z.to_nat k)) as [b|] eqn:Hb.
    + exists b. split; [reflexivity|].
      destruct (Forall2_nth_error _ _ _ _ _ Hf Hb) as (r & Hn' & Hr').
      congruence.
    + apply nth_error_None in Hb.
      assert (nth_error ints (Z.to_nat k) <> None) by congruence.
      apply nth_error_Some in H. lia.
Qed.

(** What a picking pass over a non-empty bone list does, the frame of every
    bone having been inverted: at most one bone is highlighted afterwards; if
    some bone is hit at a distance of at most [Number.MAX_SAFE_INTEGER], the
    selected bone is hit, its distance is the smallest of all hit distances,
    of any sign, and it is the only highlighted bone; if every hit distance
    exceeds that bound, no bone is highlighted and the selection is [NaN]. *)
Lemma pick_spec (s : State) (p d : Vec3) :
  bones (mesh s) <> [] ->
  Forall (fun b => exists r, intersectBone inverse (heap (mesh s)) b p d = Ok r)
         (bones (mesh s)) ->
  exists s',
    pick inverse s p d = Ok s' /\
    (forall i j bi bj,
       bone_at (bones (mesh s')) i = Some bi ->
       bone_at (bones (mesh s')) j = Some bj ->
       isHighlight bi = true -> isHighlight bj = true -> i = j) /\
    ((exists k t, hit inverse s p d k t /\ t <= MAX_SAFE_INTEGER) ->
     exists hi t,
       selectedBone s' = Some hi /\ hit inverse s p d hi t /\
       (forall k t', hit inverse s p d k t' -> t <= t') /\
       (forall j bj, bone_at (bones (mesh s')) j = Some bj ->
          (isHighlight bj = true <-> j = hi))) /\
    ((forall k t, hit inverse s p d k t -> MAX_SAFE_INTEGER < t) ->
     selectedBone s' = NaN /\
     forall j bj, bone_at (bones (mesh s')) j = Some bj -> isHighlight bj = false).
Proof.
  intros Hne Hall.
  destruct (intersectLoop_spec _ _ _ _ Hall) as (ints & Hloop & Hf2).
  pose proof (hit_nth s p d ints Hf2) as Hhit.
  assert (Hlen : length (bones (mesh s)) = length ints)
    by (eapply Forall2_length; eauto).
  unfold pick. rewrite Hloop. cbn [bind].
  pose proof (highlightLoop_total ints [] (bones (mesh s)) NaN MAX_SAFE_INTEGER
                (selectedBone s) Hlen) as Hhl.
  cbn [length app Z.of_nat] in Hhl. rewrite Hhl. cbn [bind HighlightIndex p_bones
    p_selectedBone].
  destruct (nearest_spec ints 0 NaN MAX_SAFE_INTEGER) as (Hmin & Hleast & Hcase).
  destruct (fst (nearest ints 0 (NaN, MAX_SAFE_INTEGER))) as [hi|] eqn:Hfst.
  - destruct Hcase as [(Hc & _)|(k & Hk & Hn)]; [discriminate|].
    inversion Hk; subst hi. rewrite Z.add_0_l in *.
    assert (Hklt : (k < length (bones (mesh s)))%nat).
    { rewrite Hlen. apply nth_error_Some. congruence. }
    destruct (nth_error (bones (mesh s)) k) as [b|] eqn:Hb;
      [|apply nth_error_None in Hb; lia].
    assert (Hbk : bone_at (map unhighlight (bones (mesh s))) (Z.of_nat k)
                  = Some (unhighlight b)).
    { unfold bone_at.
      destruct (Z.of_nat k <? 0)%Z eqn:E; [apply Z.ltb_lt in E; lia|].
      now rewrite Nat2Z.id, nth_error_map, Hb. }
    rewrite Hbk. eexists. split; [reflexivity|]. cbn [mesh bones selectedBone].
    assert (Hhl' : forall j bj,
              bone_at (set_bone (map unhighlight (bones (mesh s))) (Z.of_nat k)
                         (setHighlight (unhighlight b) true)) j = Some bj ->
              (isHighlight bj = true <-> j = Z.of_nat k)).
    { intros j bj Hj. destruct (Z.eq_dec j (Z.of_nat k)) as [->|Hne'].
      - rewrite (bone_at_set_eq _ _ _ _ Hbk) in Hj. inversion Hj; subst.
        split; auto.
      - rewrite bone_at_set_neq in Hj by (try lia; congruence).
        apply bone_at_map_unhighlight in Hj. rewrite Hj.
        split; [discriminate|intros; contradiction]. }
    split; [|split].
    + intros i j bi bj Hi Hj Hbi Hbj.
      apply (Hhl' i bi Hi) in Hbi. apply (Hhl' j bj Hj) in Hbj. congruence.
    + intros _. exists (Z.of_nat k), (snd (nearest ints 0 (NaN, MAX_SAFE_INTEGER))).
      split; [reflexivity|]. split; [|split; [|exact Hhl']].
      * apply Hhit. rewrite Nat2Z.id. split; [lia|exact Hn].
      * intros k' t' Hk'. apply Hhit in Hk' as [_ Hk']. eauto.
    + intros Hnone. exfalso.
      assert (Hh : hit inverse s p d (Z.of_nat k)
                     (snd (nearest ints 0 (NaN, MAX_SAFE_INTEGER)))).
      { apply Hhit. rewrite Nat2Z.id. split; [lia|exact Hn]. }
      apply Hnone in Hh. lra.
  - destruct Hcase as [(_ & _ & Hfar)|(k & Hk & _)]; [|discriminate].
    eexists. split; [reflexivity|]. cbn [mesh bones selectedBone].
    assert (Hsel : match ints with [] => selectedBone s | _ :: _ => NaN end = NaN).
    { destruct ints; [|reflexivity].
      destruct (bones (mesh s)); [contradiction|discriminate]. }
    split; [|split].
    + intros i j bi bj Hi _ Hbi _.
      apply bone_at_map_unhighlight in Hi. congruence.
    + intros (k & t & Hk & Ht). apply Hhit in Hk as [_ Hk].
      apply Hfar in Hk. lra.
    + intros _. split; [exact Hsel|].
      intros j bj Hj. eapply bone_at_map_unhighlight; eauto.
Qed.

End PickTheorem.

(** ** A picking pass with a bone behind the camera *)

Lemma Vec3_normalize_unit (v : Vec3) :
  Vec3_dot v v = 1 -> Vec3_normalize v = v.
Proof.
  intros H. unfold Vec3_normalize, Vec3_length. rewrite H, sqrt_1.
  destruct (Req_EM_T 1 0) as [E|_]; [lra|].
  destruct v; simpl. f_equal; field.
Qed.

Lemma MAX_VALUE_big : 1000000 < MAX_VALUE.
Proof. unfold MAX_VALUE, MAX_VALUE_Z. lra. Qed.

Lemma Rleb_true (a b : R) : a <= b -> Rleb a b = true.
Proof. intros H. unfold Rleb. destruct (Rle_dec a b); [reflexivity|lra]. Qed.

Lemma intersectCilinder_side (x0 : R) :
  Rabs x0 < 1000 ->
  intersectCilinder (mkVec3 x0 (1 / 2) 0) (mkVec3 (-1) 0 0) 1 = Some (x0 - 1 / 10).
Proof.
  intros Hx. apply Rabs_def2 in Hx.
  unfold intersectCilinder.
  rewrite Vec3_normalize_unit by (unfold Vec3_dot; simpl; ring).
  cbn [vx vy vz].
  replace (-1 * -1 + 0 * 0) with 1 by ring.
  replace (2 * (x0 * -1 + 0 * 0) * (2 * (x0 * -1 + 0 * 0)) -
           4 * 1 * (x0 * x0 + 0 * 0 - RADIUS_BONE * RADIUS_BONE))
    with (1 / 5 * (1 / 5)) by (unfold RADIUS_BONE; field).
  rewrite sqrt_square by lra.
  replace ((- (2 * (x0 * -1 + 0 * 0)) - 1 / 5) / (2 * 1)) with (x0 - 1 / 10)
    by field.
  replace ((- (2 * (x0 * -1 + 0 * 0)) + 1 / 5) / (2 * 1)) with (x0 + 1 / 10)
    by field.
  replace (1 / 2 + (x0 - 1 / 10) * 0) with (1 / 2) by ring.
  replace (1 / 2 + (x0 + 1 / 10) * 0) with (1 / 2) by ring.
  destruct (Rlt_dec (1 / 5 * (1 / 5)) 0) as [H|_]; [lra|].
  destruct (Req_EM_T 1 0) as [H|_]; [lra|].
  pose proof MAX_VALUE_big as HM.
  rewrite !Rleb_true by lra. cbn [andb].
  rewrite (Rmin_right MAX_VALUE (x0 - 1 / 10)) by lra.
  rewrite (Rmin_left (x0 - 1 / 10) (x0 + 1 / 10)) by lra.
  destruct (Req_EM_T (x0 - 1 / 10) MAX_VALUE) as [H|_]; [lra|reflexivity].
Qed.

Lemma intersectBone_upright (h : Heap) (b : Bone) (px py pz : R) (p d : Vec3) :
  getVec3 h (position b) = mkVec3 px py pz ->
  getVec3 h (endpoint b) = mkVec3 px (py + 1) pz ->
  intersectBone Mat3_inverse h b p d
  = Ok (intersectCilinder
          (mkVec3 (- (vz p - pz)) (vy p - py) (- (vx p - px)))
          (mkVec3 (- vz d) (vy d) (- vx d)) 1).
Proof.
  intros Hp He. unfold intersectBone. rewrite Hp, He.
  replace (Vec3_distance (mkVec3 px (py + 1) pz) (mkVec3 px py pz)) with 1.
  2:{ unfold Vec3_distance, Vec3_squaredDistance; simpl.
      replace ((px - px) * (px - px) + (py + 1 - py) * (py + 1 - py) +
               (pz - pz) * (pz - pz)) with 1 by ring.
      now rewrite sqrt_1. }
  replace (Vec3_difference (mkVec3 px (py + 1) pz) (mkVec3 px py pz))
    with (mkVec3 0 1 0)
    by (unfold Vec3_difference; simpl; f_equal; ring).
  rewrite (Vec3_normalize_unit (mkVec3 0 1 0))
    by (unfold Vec3_dot; simpl; ring).
  replace (Vec3_dot (mkVec3 0 1 0) (mkVec3 0 1 0)) with 1
    by (unfold Vec3_dot; simpl; ring).
  rewrite Rabs_R1.
  destruct (Rlt_dec 1 (999 / 1000)) as [H|_]; [lra|].
  replace (Vec3_cross (mkVec3 0 1 0) (mkVec3 1 0 0)) with (mkVec3 0 0 (-1))
    by (unfold Vec3_cross; simpl; f_equal; ring).
  rewrite (Vec3_normalize_unit (mkVec3 0 0 (-1)))
    by (unfold Vec3_dot; simpl; ring).
  replace (Vec3_cross (mkVec3 0 1 0) (mkVec3 0 0 (-1))) with (mkVec3 (-1) 0 0)
    by (unfold Vec3_cross; simpl; f_equal; ring).
  rewrite (Vec3_normalize_unit (mkVec3 (-1) 0 0))
    by (unfold Vec3_dot; simpl; ring).
  cbn [vx vy vz].
  unfold Mat3_inverse.
  replace (Mat3_det (mkMat3 0 0 (-1) 0 1 0 (-1) 0 0)) with (-1)
    by (unfold Mat3_det; simpl; ring).
  destruct (Req_EM_T (-1) 0) as [H|_]; [lra|].
  f_equal. f_equal.
  - unfold Mat3_multiplyVec3, Vec3_difference; destruct p; simpl. f_equal; field.
  - unfold Mat3_multiplyVec3; destruct d; simpl. f_equal; field.
Qed.

Lemma hover_hit_A :
  intersectBone Mat3_inverse (heap (mesh Examples4.hover)) Examples4.boneA
    Examples4.eye Examples4.ahead = Ok (Some (5 - 1 / 10)).
Proof.
  rewrite (intersectBone_upright _ _ 0 0 5)
    by (evalR; f_equal; ring).
  rewrite <- (intersectCilinder_side 5)
    by (rewrite Rabs_right; lra).
  unfold Examples4.eye, Examples4.ahead; cbn [vx vy vz].
  do 2 f_equal; f_equal; lra.
Qed.

Lemma hover_hit_B :
  intersectBone Mat3_inverse (heap (mesh Examples4.hover)) Examples4.boneB
    Examples4.eye Examples4.ahead = Ok (Some (- 5 - 1 / 10)).
Proof.
  rewrite (intersectBone_upright _ _ 0 0 (-5))
    by (evalR; f_equal; ring).
  rewrite <- (intersectCilinder_side (-5))
    by (rewrite Rabs_left; lra).
  unfold Examples4.eye, Examples4.ahead; cbn [vx vy vz].
  do 2 f_equal; f_equal; lra.
Qed.

Lemma hover_frames :
  Forall (fun b => exists r,
            intersectBone Mat3_inverse (heap (mesh Examples4.hover)) b
              Examples4.eye Examples4.ahead = Ok r)
         (bones (mesh Examples4.hover)).
Proof.
  constructor; [rewrite hover_hit_A; eauto|].
  constructor; [rewrite hover_hit_B; eauto|constructor].
Qed.

Lemma hit_functional (inverse : Mat3 -> option Mat3) (s : State) (p d : Vec3)
    (k : Z) (t t' : R) :
  hit inverse s p d k t -> hit inverse s p d k t' -> t = t'.
Proof.
  intros (b & Hb & Hr) (b' & Hb' & Hr'). congruence.
Qed.

Lemma hover_hits :
  hit Mat3_inverse Examples4.hover Examples4.eye Examples4.ahead 0 (5 - 1 / 10) /\
  hit Mat3_inverse Examples4.hover Examples4.eye Examples4.ahead 1 (- 5 - 1 / 10).
Proof.
  split.
  - exists Examples4.boneA. split; [reflexivity|exact hover_hit_A].
  - exists Examples4.boneB. split; [reflexivity|exact hover_hit_B].
Qed.

(** C2 (code bug).  Two upright bones of length 1, [boneA] five units in
    front of the camera and [boneB] five units behind it, and a ray from the
    camera straight ahead.  The ray meets the cylinder of [boneA] at the
    distance 4.9; the cylinder of [boneB] is met only by the line continued
    backwards, at the distance -5.1.  [intersectCilinder] returns both
    numbers, the second loop of the pass takes the smaller one, and the pass
    highlights and selects [boneB], the bone behind the camera: the selected
    bone does not attain the smallest positive hit distance, which is that
    of [boneA]. *)
Theorem pick_selects_bone_behind_camera :
  exists s',
    pick Mat3_inverse Examples4.hover Examples4.eye Examples4.ahead = Ok s' /\
    selectedBone s' = Some 1%Z /\
    (forall j bj, bone_at (bones (mesh s')) j = Some bj ->
       (isHighlight bj = true <-> j = 1%Z)) /\
    hit Mat3_inverse Examples4.hover Examples4.eye Examples4.ahead 0 (5 - 1 / 10) /\
    hit Mat3_inverse Examples4.hover Examples4.eye Examples4.ahead 1 (- 5 - 1 / 10) /\
    nearest_positive_hit Mat3_inverse Examples4.hover Examples4.eye
      Examples4.ahead 0 /\
    ~ nearest_positive_hit Mat3_inverse Examples4.hover Examples4.eye
        Examples4.ahead 1.
Proof.
  destruct hover_hits as [HA HB].
  destruct (pick_spec Mat3_inverse Examples4.hover Examples4.eye Examples4.ahead)
    as (s' & Hp & _ & Hhit & _); [discriminate|exact hover_frames|].
  destruct Hhit as (hi & t & Hs & Hh & Hmin & Hflag).
  { exists 0%Z, (5 - 1 / 10). split; [exact HA|].
    unfold MAX_SAFE_INTEGER; lra. }
  exists s'. split; [exact Hp|].
  pose proof (Hmin _ _ HB) as Hle.
  assert (Hhi : hi = 1%Z).
  { destruct Hh as (b & Hb & Hr). pose proof Hb as Hb'.
    apply bone_at_Some in Hb' as (H0 & Hn & _).
    destruct (Z.to_nat hi) as [|[|n]] eqn:E.
    - assert (hi = 0%Z) by lia. subst hi.
      assert (t = 5 - 1 / 10)
        by (eapply hit_functional; [exists b; split; eauto|exact HA]).
      lra.
    - lia.
    - simpl in Hn. destruct n; discriminate. }
  subst hi. split; [exact Hs|]. split; [exact Hflag|].
  split; [exact HA|]. split; [exact HB|]. split.
  - exists (5 - 1 / 10). split; [exact HA|]. split; [lra|].
    intros k t' (b & Hb & Hr) Hpos. pose proof Hb as Hb'.
    apply bone_at_Some in Hb' as (H0 & Hn & _).
    destruct (Z.to_nat k) as [|[|n]] eqn:E.
    + assert (k = 0%Z) by lia. subst k.
      assert (t' = 5 - 1 / 10)
        by (eapply hit_functional; [exists b; split; eauto|exact HA]).
      lra.
    + assert (k = 1%Z) by lia. subst k.
      assert (t' = - 5 - 1 / 10)
        by (eapply hit_functional; [exists b; split; eauto|exact HB]).
      lra.
    + simpl in Hn. destruct n; discriminate.
  - intros (t' & Ht' & Hpos & _).
    assert (t' = - 5 - 1 / 10) by (eapply hit_functional; eauto).
    lra.
Qed.

(** ** What a hit distance means *)

Lemma quadratic_root (a b c s t : R) :
  a <> 0 -> s * s = b * b - 4 * a * c ->
  (t = (- b - s) / (2 * a) \/ t = (- b + s) / (2 * a)) ->
  a * (t * t) + b * t + c = 0.
Proof.
  intros Ha Hs Ht.
  assert (H2 : (2 * a * t + b) * (2 * a * t + b) = s * s).
  { destruct Ht as [-> | ->].
    - replace (2 * a * ((- b - s) / (2 * a)) + b) with (- s) by (field; lra).
      ring.
    - replace (2 * a * ((- b + s) / (2 * a)) + b) with s by (field; lra).
      ring. }
  rewrite Hs in H2.
  assert (H4 : 4 * a * (a * (t * t) + b * t + c) = 0) by lra.
  apply Rmult_integral in H4 as [H4|H4]; [lra|exact H4].
Qed.

Lemma Rleb_spec (a b : R) : Rleb a b = true <-> a <= b.
Proof.
  unfold Rleb. destruct (Rle_dec a b); split; intros; auto; try discriminate;
    try contradiction.
Qed.

(** When [intersectCilinder] returns a number [t], the point of the ray at
    parameter [t] lies on the cylinder of radius [RADIUS_BONE] about the
    local Y axis, between heights 0 and [dist]. *)
Lemma intersectCilinder_sound (pos dirNotN : Vec3) (dist t : R) :
  intersectCilinder pos dirNotN dist = Some t ->
  (vx pos + t * vx (Vec3_normalize dirNotN))
  * (vx pos + t * vx (Vec3_normalize dirNotN))
  + (vz pos + t * vz (Vec3_normalize dirNotN))
    * (vz pos + t * vz (Vec3_normalize dirNotN))
  = RADIUS_BONE * RADIUS_BONE /\
  0 <= vy pos + t * vy (Vec3_normalize dirNotN) <= dist.
Proof.
  unfold intersectCilinder.
  set (dir := Vec3_normalize dirNotN).
  set (a := vx dir * vx dir + vz dir * vz dir).
  set (b := 2 * (vx pos * vx dir + vz pos * vz dir)).
  set (c := vx pos * vx pos + vz pos * vz pos - RADIUS_BONE * RADIUS_BONE).
  cbv zeta.
  destruct (Rlt_dec (b * b - 4 * a * c) 0) as [|Hd]; [discriminate|].
  destruct (Req_EM_T a 0) as [|Ha]; [discriminate|].
  set (s := sqrt (b * b - 4 * a * c)).
  assert (Hs : s * s = b * b - 4 * a * c) by (apply sqrt_sqrt; lra).
  set (t1 := (- b - s) / (2 * a)). set (t2 := (- b + s) / (2 * a)).
  assert (Hroot : forall u, u = t1 \/ u = t2 ->
            (vx pos + u * vx dir) * (vx pos + u * vx dir)
            + (vz pos + u * vz dir) * (vz pos + u * vz dir)
            = RADIUS_BONE * RADIUS_BONE).
  { intros u Hu. pose proof (quadratic_root a b c s u Ha Hs Hu) as Hq.
    unfold a, b, c in Hq. lra. }
  destruct (Rleb 0 (vy pos + t1 * vy dir) && Rleb (vy pos + t1 * vy dir) dist)
    eqn:H1;
  destruct (Rleb 0 (vy pos + t2 * vy dir) && Rleb (vy pos + t2 * vy dir) dist)
    eqn:H2;
  try (apply andb_true_iff in H1 as [H1a H1b];
       apply Rleb_spec in H1a; apply Rleb_spec in H1b);
  try (apply andb_true_iff in H2 as [H2a H2b];
       apply Rleb_spec in H2a; apply Rleb_spec in H2b);
  match goal with
  | |- (if Req_EM_T ?x MAX_VALUE then _ else _) = _ -> _ =>
      destruct (Req_EM_T x MAX_VALUE) as [|Hx]; [discriminate|];
      intros Ht; inversion Ht; subst t; clear Ht
  end.
  - unfold Rmin in *.
    destruct (Rle_dec MAX_VALUE t1); destruct (Rle_dec _ t2);
      try contradiction; split; try apply Hroot; auto; lra.
  - unfold Rmin in *.
    destruct (Rle_dec MAX_VALUE t1); try contradiction.
    split; [apply Hroot; auto|lra].
  - unfold Rmin in *.
    destruct (Rle_dec MAX_VALUE t2); try contradiction.
    split; [apply Hroot; auto|lra].
  - contradiction.
Qed.

(** ** Bones of length zero in a picking pass *)

Lemma Vec3_normalize_null (v : Vec3) :
  Vec3_dot v v = 0 -> Vec3_normalize v = Vec3_zero.
Proof.
  intros H. unfold Vec3_normalize, Vec3_length. rewrite H, sqrt_0.
  destruct (Req_EM_T 0 0) as [_|E]; [reflexivity|contradiction].
Qed.

(** For a bone whose endpoint equals its position the frame matrix handed
    to [Mat3.inverse] is the zero matrix, and the segment has length 0. *)
Lemma intersectBone_degenerate
    (inverse : Mat3 -> option Mat3) (h : Heap) (b : Bone) (p d : Vec3) :
  getVec3 h (endpoint b) = getVec3 h (position b) ->
  intersectBone inverse h b p d
  = match inverse (mkMat3 0 0 0 0 0 0 0 0 0) with
    | None => TypeError
    | Some Tmatrix =>
        Ok (intersectCilinder
              (Mat3_multiplyVec3 Tmatrix (Vec3_difference p (getVec3 h (position b))))
              (Mat3_multiplyVec3 Tmatrix d) 0)
    end.
Proof.
  intros He. unfold intersectBone. rewrite He.
  set (q := getVec3 h (position b)).
  replace (Vec3_distance q q) with 0.
  2:{ unfold Vec3_distance, Vec3_squaredDistance.
      replace ((vx q - vx q) * (vx q - vx q) + (vy q - vy q) * (vy q - vy q) +
               (vz q - vz q) * (vz q - vz q)) with 0 by ring.
      now rewrite sqrt_0. }
  rewrite (Vec3_normalize_null (Vec3_difference q q))
    by (unfold Vec3_dot, Vec3_difference; simpl; ring).
  replace (Vec3_dot Vec3_zero (mkVec3 0 1 0)) with 0
    by (unfold Vec3_dot; simpl; ring).
  rewrite Rabs_R0.
  destruct (Rlt_dec 0 (999 / 1000)) as [_|H]; [|lra].
  rewrite (Vec3_normalize_null (Vec3_cross Vec3_zero (mkVec3 0 1 0)))
    by (unfold Vec3_dot, Vec3_cross; simpl; ring).
  rewrite (Vec3_normalize_null (Vec3_cross Vec3_zero Vec3_zero))
    by (unfold Vec3_dot, Vec3_cross; simpl; ring).
  reflexivity.
Qed.

(** If the library has no inverse to return for the zero matrix, the pass
    fails on a bone of length zero. *)
Lemma degenerate_bone_fails_without_inverse
    (inverse : Mat3 -> option Mat3) (h : Heap) (b : Bone) (p d : Vec3) :
  inverse (mkMat3 0 0 0 0 0 0 0 0 0) = None ->
  getVec3 h (endpoint b) = getVec3 h (position b) ->
  intersectBone inverse h b p d = TypeError.
Proof.
  intros Hi He. rewrite intersectBone_degenerate by assumption.
  now rewrite Hi.
Qed.

(** If the library returns the zero matrix unchanged, a bone of length zero
    yields no hit distance. *)
Lemma degenerate_bone_unselectable
    (inverse : Mat3 -> option Mat3) (h : Heap) (b : Bone) (p d : Vec3) :
  inverse (mkMat3 0 0 0 0 0 0 0 0 0) = Some (mkMat3 0 0 0 0 0 0 0 0 0) ->
  getVec3 h (endpoint b) = getVec3 h (position b) ->
  intersectBone inverse h b p d = Ok None.
Proof.
  intros Hi He. rewrite intersectBone_degenerate by assumption.
  rewrite Hi. f_equal. unfold intersectCilinder.
  rewrite (Vec3_normalize_null (Mat3_multiplyVec3 _ d))
    by (unfold Vec3_dot, Mat3_multiplyVec3; simpl; ring).
  cbn [vx vy vz Vec3_zero].
  destruct (Rlt_dec _ 0) as [|_]; [reflexivity|].
  destruct (Req_EM_T (0 * 0 + 0 * 0) 0) as [_|H]; [reflexivity|].
  exfalso; apply H; ring.
Qed.

(** ** Dragging with no bone selected *)

Section DragFacts.

Variable Quat_slerpShort : Quat -> Quat -> R -> Quat.
Variable inverse : Mat3 -> option Mat3.

Lemma arrowKey_drag_fields (fuel : nat) (s s' : State) (angle : R) :
  arrowKey fuel s angle = Ok s' ->
  boneDragging s' = boneDragging s /\ dragging s' = dragging s /\
  selectedBone s' = selectedBone s.
Proof.
  unfold arrowKey. destruct (selected_bone s); [|discriminate].
  destruct (selectedBone s) eqn:Hsel.
  - intros H. apply bind_Ok in H as (m1 & _ & H).
    apply bind_Ok in H as (m2 & _ & H). inversion H; subst; simpl; auto.
  - intros H; inversion H; subst; simpl; auto.
Qed.

Lemma dragMove_drag_fields (fuel : nat) (s s' : State) (mouse : MouseEvent) (view : View) :
  dragMove fuel s mouse view = Ok s' ->
  boneDragging s' = boneDragging s /\ dragging s' = dragging s /\
  selectedBone s' = selectedBone s.
Proof.
  unfold dragMove.
  destruct (boneDragging s && (buttons mouse =? 1)%Z).
  - destruct (selected_bone s); [|discriminate].
    destruct (selectedBone s) eqn:Hsel.
    + intros H. apply bind_Ok in H as (m1 & _ & H).
      apply bind_Ok in H as (m2 & _ & H). inversion H; subst; simpl; auto.
    + intros H; inversion H; subst; simpl; auto.
  - destruct (buttons mouse =? 1)%Z; [intros H; inversion H; subst; simpl; auto|].
    destruct (buttons mouse =? 2)%Z; intros H; inversion H; subst; simpl; auto.
Qed.

Lemma pick_drag_fields (s s' : State) (p d : Vec3) :
  pick inverse s p d = Ok s' ->
  boneDragging s' = boneDragging s /\ dragging s' = dragging s.
Proof.
  unfold pick. intros H.
  apply bind_Ok in H as (ints & _ & H). apply bind_Ok in H as (v & _ & H).
  destruct (HighlightIndex v).
  - destruct (bone_at (p_bones v) z); [|discriminate].
    inversion H; subst; auto.
  - inversion H; subst; auto.
Qed.

Lemma playbackStep_drag_fields (fuel : nat) (s s' : State) :
  playbackStep Quat_slerpShort fuel s = Ok s' ->
  boneDragging s' = boneDragging s /\ dragging s' = dragging s /\
  selectedBone s' = selectedBone s.
Proof.
  unfold playbackStep. intros H.
  apply bind_Ok in H as (m1 & _ & H). apply bind_Ok in H as (m2 & _ & H).
  inversion H; subst; auto.
Qed.

Lemma step_drag_ok (fuel : nat) (s s' : State) (e : Event) :
  drag_ok s -> step Quat_slerpShort inverse fuel s e = Ok s' -> drag_ok s'.
Proof.
  unfold drag_ok. intros Hs H.
  destruct e as [key|mouse|mouse view| |dT]; simpl in H.
  - destruct key; simpl in H;
      try (inversion H; subst; exact Hs).
    + apply arrowKey_drag_fields in H as (-> & -> & ->). exact Hs.
    + apply arrowKey_drag_fields in H as (-> & -> & ->). exact Hs.
    + destruct (mode s); [inversion H; subst; exact Hs|].
      destruct (KeyFrame_constructor _ _). inversion H; subst; exact Hs.
    + destruct (mode s); [inversion H; subst; exact Hs|].
      destruct (1 <? getNumKeyFrames s)%nat; inversion H; subst; exact Hs.
  - inversion H; subst. unfold dragStart.
    destruct (Rlt_dec 600 (offsetY mouse)); [exact Hs|]. simpl.
    destruct (selectedBone s); [intros _; split; [reflexivity|discriminate]|].
    intros Hb. destruct (Hs Hb) as [_ Hn]. now destruct Hn.
  - unfold drag in H. destruct (dragging s) eqn:Hd.
    + destruct (Req_EM_T _ 0); [destruct (Req_EM_T _ 0)|];
        try (apply dragMove_drag_fields in H as (-> & -> & ->); simpl;
             exact Hs).
      inversion H; subst; simpl. exact Hs.
    + apply pick_drag_fields in H as [Hb Hdr]. rewrite Hb.
      intros Hbd. destruct (Hs Hbd) as [Hdd _]. congruence.
  - inversion H; subst; simpl. discriminate.
  - unfold draw, incrementTime in H. destruct (mode s) eqn:Hm.
    + destruct (Rle_dec (getMaxTime s) (time s + dT)); simpl in H.
      * inversion H; subst; exact Hs.
      * apply playbackStep_drag_fields in H as (-> & -> & ->). exact Hs.
    + rewrite Hm in H. inversion H; subst; exact Hs.
Qed.


End DragFacts.

(** ** Bind pose in the later revision *)

Section BindPose.

Variable Quat_slerpShort : Quat -> Quat -> R -> Quat.
Variable inverse : Mat3 -> option Mat3.

(** In the later revision every event leaves every bone's [initPosition]
    and [initEndpoint] objects, and their values, as they were. *)
Lemma bind_pose_kept (fuel : nat) (s s' : State) (es : list Event) :
  wf_state s -> run Quat_slerpShort inverse fuel s es = Ok s' ->
  Forall2 (fun b b' =>
             initPosition b' = initPosition b /\
             initEndpoint b' = initEndpoint b /\
             getVec3 (heap (mesh s')) (initPosition b')
             = getVec3 (heap (mesh s)) (initPosition b) /\
             getVec3 (heap (mesh s')) (initEndpoint b')
             = getVec3 (heap (mesh s)) (initEndpoint b))
          (bones (mesh s)) (bones (mesh s')).
Proof.
  intros Hs Hrun.
  destruct (run_evolves Quat_slerpShort inverse fuel es s s' Hs Hrun)
    as (_ & (_ & He & Hb) & _).
  destruct Hs as [Hw _]. unfold wf_mesh in Hw.
  induction Hb as [|b b' bs bs' (_ & _ & _ & Hip & Hie) _ IH];
    constructor; inversion Hw; subst; auto.
  destruct H1 as (_ & _ & H3 & H4 & _).
  rewrite Hip, Hie. repeat split; apply extends_getVec3; auto.
Qed.

End BindPose.

(** * Further properties of the code *)

(** ** The cursor stays on the timeline *)

Section TimelineFacts.

Variable Quat_slerpShort : Quat -> Quat -> R -> Quat.
Variable inverse : Mat3 -> option Mat3.

Lemma getMaxTime_two (s : State) :
  (2 <= getNumKeyFrames s)%nat -> 1 <= getMaxTime s.
Proof.
  unfold getMaxTime, getNumKeyFrames. intros H.
  apply le_INR in H. simpl in H. lra.
Qed.

Lemma timeline_ok_same (s s' : State) :
  time s' = time s /\ mode s' = mode s /\ keyFrames s' = keyFrames s ->
  timeline_ok s -> timeline_ok s'.
Proof.
  intros (Ht & Hm & Hk) (H0 & H1 & H2).
  unfold timeline_ok, getMaxTime, getNumKeyFrames in *.
  rewrite Ht, Hm, Hk. auto.
Qed.

Lemma incrementTime_timeline_ok (s : State) (dT : R) :
  timeline_ok s -> 0 <= dT -> timeline_ok (incrementTime s dT).
Proof.
  intros (H0 & H1 & H2) HdT. unfold incrementTime.
  destruct (mode s) eqn:Hm;
    [|split; [exact H0|split; [exact H1|rewrite Hm; discriminate]]].
  destruct (Rle_dec (getMaxTime s) (time s + dT)) as [Hle|Hlt].
  - repeat split; simpl; try lra; auto.
  - repeat split; simpl; try lra; auto.
    right. rewrite getMaxTime_with_time_mode. lra.
Qed.

Lemma step_timeline_ok (fuel : nat) (s s' : State) (e : Event) :
  timeline_ok s -> elapsed_ok e ->
  step Quat_slerpShort inverse fuel s e = Ok s' -> timeline_ok s'.
Proof.
  intros Hs He H. destruct e as [key|mouse|mouse view| |dT]; simpl in H.
  - destruct key; simpl in H;
      try (inversion H; subst; eapply timeline_ok_same; [|exact Hs];
           simpl; auto; fail).
    + apply arrowKey_time_mode in H. eapply timeline_ok_same; eauto.
    + apply arrowKey_time_mode in H. eapply timeline_ok_same; eauto.
    + destruct (mode s) eqn:Hm; [inversion H; subst; exact Hs|].
      destruct (KeyFrame_constructor _ _) as [kf h]. inversion H; subst; clear H.
      destruct Hs as (H0 & H1 & H2).
      unfold timeline_ok, getMaxTime, getNumKeyFrames in *; simpl.
      rewrite length_app, plus_INR; simpl.
      repeat split; auto; [|discriminate].
      destruct H1 as [H1|H1]; [left; exact H1|right; lra].
    + destruct (mode s) eqn:Hm.
      * inversion H; subst; clear H. destruct Hs as (H0 & H1 & H2).
        repeat split; simpl; auto.
      * destruct (1 <? getNumKeyFrames s)%nat eqn:Hn;
          inversion H; subst; clear H; [|exact Hs].
        apply Nat.ltb_lt in Hn. destruct Hs as (H0 & H1 & H2).
        repeat split; simpl; try lra; auto.
  - inversion H; subst. eapply timeline_ok_same; [|exact Hs].
    unfold dragStart. destruct (Rlt_dec 600 (offsetY mouse)); simpl; auto.
  - apply (drag_time_mode inverse) in H. eapply timeline_ok_same; eauto.
  - inversion H; subst. eapply timeline_ok_same; [|exact Hs]. simpl; auto.
  - simpl in He. unfold draw in H.
    pose proof (incrementTime_timeline_ok s dT Hs He) as Hi.
    destruct (mode (incrementTime s dT)).
    + apply (playbackStep_time_mode Quat_slerpShort) in H.
      eapply timeline_ok_same; eauto.
    + inversion H; subst; exact Hi.
Qed.

Lemma run_timeline_ok (fuel : nat) (es : list Event) :
  forall s s', timeline_ok s -> Forall elapsed_ok es ->
  run Quat_slerpShort inverse fuel s es = Ok s' -> timeline_ok s'.
Proof.
  induction es as [|e es IH]; intros s s' Hs He H; simpl in H.
  - inversion H; subst; exact Hs.
  - apply bind_Ok in H as (s1 & H1 & H2). inversion He; subst.
    apply (IH s1 s'); auto. apply (step_timeline_ok fuel s s1 e); auto.
Qed.

(** X2: from a state whose cursor is on the timeline (as after [reset()]),
    after any sequence of events with frame times that are not negative,
    whenever [draw] draws the slider its position lies on the timeline:
    at or after its left end and before its right end. *)
Theorem slider_stays_on_timeline
    (fuel : nat) (s s' : State) (es : list Event) (x : R) :
  timeline_ok s -> Forall elapsed_ok es ->
  run Quat_slerpShort inverse fuel s es = Ok s' ->
  sliderPosition s' = Some x ->
  timelineX <= x < timelineX + timelineWidth.
Proof.
  intros Hs He Hrun Hx.
  destruct (run_timeline_ok fuel es s s' Hs He Hrun) as (H0 & H1 & _).
  unfold sliderPosition in Hx.
  destruct (1 <? length (keyFrames s'))%nat eqn:Hn; [|discriminate].
  inversion Hx; subst x; clear Hx. apply Nat.ltb_lt in Hn.
  assert (Hmax : 1 <= getMaxTime s') by (apply getMaxTime_two; exact Hn).
  unfold getMaxTime, getNumKeyFrames in *.
  set (T := INR (length (keyFrames s')) - 1) in *.
  unfold timelineX, timelineWidth.
  assert (Hq : 0 <= time s' / T < 1).
  { split.
    - apply Rmult_le_pos; [exact H0|]. left. apply Rinv_0_lt_compat. lra.
    - apply Rmult_lt_reg_r with T; [lra|].
      unfold Rdiv. rewrite Rmult_assoc, Rinv_l by lra.
      destruct H1 as [H1|H1]; lra. }
  lra.
Qed.

End TimelineFacts.


Section PlaybackEnds.

Variable Quat_slerpShort : Quat -> Quat -> R -> Quat.
Variable inverse : Mat3 -> option Mat3.

Lemma frames_in_edit (fuel : nat) (dts : list R) (s : State) :
  mode s = edit ->
  run Quat_slerpShort inverse fuel s (map Frame dts) = Ok s.
Proof.
  intros Hm. induction dts as [|dT dts IH]; simpl; [reflexivity|].
  unfold draw, incrementTime. rewrite Hm. simpl. rewrite Hm. simpl. exact IH.
Qed.

(** X3: a playback that is on with the cursor before the last keyframe ends
    by itself: once the frame times add up to the rest of the animation,
    the editor is back in Edit mode with the cursor at 0, whatever the frame
    times are one by one. *)
Theorem playback_ends (fuel : nat) (dts : list R) :
  forall s s',
    mode s = playback -> time s < getMaxTime s ->
    run Quat_slerpShort inverse fuel s (map Frame dts) = Ok s' ->
    getMaxTime s <= time s + total dts ->
    mode s' = edit /\ time s' = 0.
Proof.
  induction dts as [|dT dts IH]; intros s s' Hm Hlt Hrun Hsum.
  - unfold total in Hsum; simpl in Hsum. lra.
  - simpl in Hrun. apply bind_Ok in Hrun as (s1 & Hstep & Hrest).
    unfold draw, incrementTime in Hstep. rewrite Hm in Hstep.
    destruct (Rle_dec (getMaxTime s) (time s + dT)) as [Hle|Hnle];
      simpl in Hstep.
    + inversion Hstep; subst s1; clear Hstep.
      rewrite frames_in_edit in Hrest by reflexivity.
      inversion Hrest; subst s'. simpl. auto.
    + apply (playbackStep_time_mode Quat_slerpShort) in Hstep
        as (Ht & Hmode & Hk). simpl in Ht, Hmode, Hk.
      apply (IH s1 s'); auto.
      * unfold getMaxTime in *. rewrite Hk, Ht. lra.
      * unfold getMaxTime in *. rewrite Hk, Ht.
        unfold total in *; simpl in Hsum. lra.
Qed.

End PlaybackEnds.

Lemma playback_ends_witness :
  exists s',
    run (fun q _ _ => q) Mat3_inverse 0 Examples.playing
        (map Frame [1 / 2; 1 / 2]) = Ok s' /\
    mode s' = edit /\ time s' = 0.
Proof.
  assert (Hmax : getMaxTime Examples.playing = 1)
    by (unfold getMaxTime; simpl; lra).
  assert (Hrun : exists s',
            run (fun q _ _ => q) Mat3_inverse 0 Examples.playing
                (map Frame [1 / 2; 1 / 2]) = Ok s').
  { simpl. unfold draw at 1, incrementTime. simpl.
    destruct (Rle_dec (getMaxTime Examples.playing) (0 + 1 / 2)) as [H|H];
      [rewrite Hmax in H; lra|].
    simpl. unfold draw, incrementTime. simpl.
    destruct (Rle_dec _ _); simpl; eauto. }
  destruct Hrun as (s' & Hrun). exists s'. split; [exact Hrun|].
  apply (playback_ends (fun q _ _ => q) Mat3_inverse 0 [1 / 2; 1 / 2]
           Examples.playing s'); auto.
  - rewrite Hmax; simpl; lra.
  - rewrite Hmax; unfold total; simpl; lra.
Defined.

Section SelectionFacts.

Variable Quat_slerpShort : Quat -> Quat -> R -> Quat.
Variable inverse : Mat3 -> option Mat3.

Lemma highlightLoop_selection (ints : list (option R)) :
  forall i v v', highlightLoop ints i v = Ok v' ->
    p_selectedBone v' = NaN \/ (ints = [] /\ v' = v).
Proof.
  induction ints as [|x ints IH]; intros i v v' H; simpl in H.
  - right. split; [reflexivity|]. now inversion H.
  - left. destruct (match x with
                    | Some t => if Rle_dec t (minT v) then (Some i, t)
                                else (HighlightIndex v, minT v)
                    | None => (HighlightIndex v, minT v)
                    end) as [hi mt].
    destruct (bone_at (p_bones v) i); [|discriminate].
    apply IH in H as [H|[_ H]]; [exact H|]. subst v'. reflexivity.
Qed.

Lemma intersectLoop_nil (h : Heap) (bs : list Bone) (p d : Vec3) :
  intersectLoop inverse h bs p d = Ok [] -> bs = [].
Proof.
  destruct bs as [|b bs]; [reflexivity|]. simpl. intros H.
  apply bind_Ok in H as (r & _ & H). apply bind_Ok in H as (rs & _ & H).
  discriminate.
Qed.

Lemma pick_selection_ok (s s' : State) (p d : Vec3) :
  selection_ok s -> pick inverse s p d = Ok s' -> selection_ok s'.
Proof.
  intros Hs H. unfold pick in H.
  apply bind_Ok in H as (ints & Hi & H). apply bind_Ok in H as (v & Hv & H).
  destruct (HighlightIndex v) as [hi|].
  - destruct (bone_at (p_bones v) hi) as [b|] eqn:Hb; [|discriminate].
    inversion H; subst s'; clear H. intros i Hsel; simpl in *.
    inversion Hsel; subst i. eexists. eapply bone_at_set_eq; eauto.
  - inversion H; subst s'; clear H. intros i Hsel; simpl in *.
    apply highlightLoop_selection in Hv as [Hn|[Hnil Hv]].
    + rewrite Hn in Hsel. discriminate.
    + subst v ints. simpl in *. apply intersectLoop_nil in Hi.
      destruct (Hs i Hsel) as (b & Hb). rewrite Hi in Hb.
      unfold bone_at in Hb. destruct (i <? 0)%Z; [discriminate|].
      destruct (Z.to_nat i); discriminate.
Qed.

Lemma selection_ok_later (s s' : State) :
  selection_ok s -> selectedBone s' = selectedBone s ->
  evolves same_bind (mesh s) (mesh s') -> selection_ok s'.
Proof.
  intros Hs Hsel (_ & _ & Hb) i Hi. rewrite Hsel in Hi.
  destruct (Hs i Hi) as (b & Hbi).
  destruct (Forall2_bone_at _ _ _ _ _ Hb Hbi) as (b' & Hb' & _). eauto.
Qed.

Lemma step_selection_ok (fuel : nat) (s s' : State) (e : Event) :
  wf_state s -> selection_ok s ->
  step Quat_slerpShort inverse fuel s e = Ok s' -> selection_ok s'.
Proof.
  intros Hw Hs H.
  destruct (step_evolves Quat_slerpShort inverse fuel s s' e Hw H)
    as (_ & Hev & _).
  assert (Hsame : selectedBone s' = selectedBone s -> selection_ok s')
    by (intros Hsel; eapply selection_ok_later; eauto).
  destruct e as [key|mouse|mouse view| |dT]; simpl in H.
  - destruct key; simpl in H;
      try (inversion H; subst; apply Hsame; reflexivity).
    + apply arrowKey_drag_fields in H as (_ & _ & Hsel). auto.
    + apply arrowKey_drag_fields in H as (_ & _ & Hsel). auto.
    + destruct (mode s); [inversion H; subst; apply Hsame; reflexivity|].
      destruct (KeyFrame_constructor _ _).
      inversion H; subst; apply Hsame; reflexivity.
    + destruct (mode s); [inversion H; subst; apply Hsame; reflexivity|].
      destruct (1 <? getNumKeyFrames s)%nat; inversion H; subst;
        apply Hsame; reflexivity.
  - inversion H; subst. apply Hsame. unfold dragStart.
    destruct (Rlt_dec 600 (offsetY mouse)); reflexivity.
  - unfold drag in H. destruct (dragging s).
    + destruct (Req_EM_T _ 0); [destruct (Req_EM_T _ 0)|];
        try (apply dragMove_drag_fields in H as (_ & _ & Hsel);
             apply Hsame; exact Hsel).
      inversion H; subst. apply Hsame. reflexivity.
    + eapply pick_selection_ok; eauto.
  - inversion H; subst. apply Hsame. reflexivity.
  - unfold draw, incrementTime in H. destruct (mode s) eqn:Hm.
    + destruct (Rle_dec (getMaxTime s) (time s + dT)); simpl in H.
      * inversion H; subst. apply Hsame. reflexivity.
      * apply (playbackStep_drag_fields Quat_slerpShort) in H
          as (_ & _ & Hsel). apply Hsame. exact Hsel.
    + rewrite Hm in H. inversion H; subst. apply Hsame. reflexivity.
Qed.

(** X4: from a well-formed state, after any sequence of events, a bone drag
    is in progress only while dragging and with a bone selected, and the
    selection, when there is one, is the index of a bone of the skeleton. *)
Theorem selection_stays_valid (fuel : nat) (es : list Event) :
  forall s s',
    wf_state s -> drag_ok s -> selection_ok s ->
    run Quat_slerpShort inverse fuel s es = Ok s' ->
    drag_ok s' /\ selection_ok s'.
Proof.
  induction es as [|e es IH]; intros s s' Hw Hd Hs H; simpl in H.
  - inversion H; subst; auto.
  - apply bind_Ok in H as (s1 & H1 & H2).
    apply (IH s1 s'); auto.
    + now destruct (step_evolves Quat_slerpShort inverse fuel s s1 e Hw H1).
    + exact (step_drag_ok Quat_slerpShort inverse fuel s s1 e Hd H1).
    + exact (step_selection_ok fuel s s1 e Hw Hs H1).
Qed.

End SelectionFacts.

(** ** The arrow keys with a bone selected *)

Lemma Quat_product_assoc (a b c : Quat) :
  Quat_product (Quat_product a b) c = Quat_product a (Quat_product b c).
Proof. unfold Quat_product; simpl. f_equal; ring. Qed.

Lemma Quat_product_identity_r (q : Quat) : Quat_product q Quat_identity = q.
Proof. destruct q. unfold Quat_product, Quat_identity; simpl. f_equal; ring. Qed.

Lemma Quat_fromAxisAngle_inverse (axis : Vec3) (angle : R) :
  Vec3_dot axis axis = 1 ->
  Quat_product (Quat_fromAxisAngle axis angle) (Quat_fromAxisAngle axis (- angle))
  = Quat_identity.
Proof.
  intros Hu. unfold Quat_fromAxisAngle, Quat_product, Quat_identity; simpl.
  replace (- angle * / 2) with (- (angle * / 2)) by ring.
  rewrite sin_neg, cos_neg.
  pose proof (sin2_cos2 (angle * / 2)) as Hsc. unfold Rsqr in Hsc.
  unfold Vec3_dot in Hu.
  set (s := sin (angle * / 2)) in *. set (c := cos (angle * / 2)) in *.
  f_equal; try ring.
  replace (c * c - vx axis * s * (vx axis * - s) - vy axis * s * (vy axis * - s)
           - vz axis * s * (vz axis * - s))
    with (c * c + s * s * (vx axis * vx axis + vy axis * vy axis + vz axis * vz axis))
    by ring.
  rewrite Hu. lra.
Qed.

(** What an arrow key does to a state in which bone [i] is selected. *)
Lemma arrowKey_spec (fuel : nat) (s : State) (i : Z) (b : Bone) (angle : R) :
  wf_mesh (mesh s) ->
  selectedBone s = Some i -> bone_at (bones (mesh s)) i = Some b ->
  forest (links_of (bones (mesh s))) = true ->
  (length (bones (mesh s)) < fuel)%nat ->
  exists s' b',
    arrowKey fuel s angle = Ok s' /\
    bone_at (bones (mesh s')) i = Some b' /\
    getQuat (heap (mesh s')) (R_i b')
    = Quat_product (getQuat (heap (mesh s)) (R_i b))
        (Quat_fromAxisAngle
           (Vec3_difference (getVec3 (heap (mesh s)) (initEndpoint b))
                            (getVec3 (heap (mesh s)) (initPosition b))) angle) /\
    getVec3 (heap (mesh s')) (initEndpoint b')
    = getVec3 (heap (mesh s)) (initEndpoint b) /\
    getVec3 (heap (mesh s')) (initPosition b')
    = getVec3 (heap (mesh s)) (initPosition b) /\
    wf_mesh (mesh s') /\
    links_of (bones (mesh s')) = links_of (bones (mesh s)) /\
    selectedBone s' = Some i.
Proof.
  intros Hw Hsel Hb Hf Hfuel.
  set (axis := Vec3_difference (getVec3 (heap (mesh s)) (initEndpoint b))
                               (getVec3 (heap (mesh s)) (initPosition b))).
  (* the rotation *)
  assert (Hrot : exists m1 b1,
            Scene.Mesh_rotateBone (mesh s) i axis angle = Ok m1 /\
            bone_at (bones m1) i = Some b1 /\
            getQuat (heap m1) (R_i b1)
            = Quat_product (getQuat (heap (mesh s)) (R_i b))
                           (Quat_fromAxisAngle axis angle) /\
            (R_i b1 < length (quats (heap m1)))%nat /\
            initEndpoint b1 = initEndpoint b /\ initPosition b1 = initPosition b).
  { unfold Scene.Mesh_rotateBone, Scene.rotateBone. rewrite Hb. simpl.
    eexists. eexists. split; [reflexivity|]. simpl.
    split; [eapply bone_at_set_eq; eauto|]. simpl.
    split; [unfold getQuat; simpl; now rewrite nth_middle|].
    split; [rewrite length_app; simpl; lia|]. auto. }
  destruct Hrot as (m1 & b1 & Hm1 & Hb1 & Hq1 & Hr1 & Hie1 & Hip1).
  pose proof (Mesh_rotateBone_evolves _ _ _ _ _ Hw Hm1) as (Hw1 & He1 & Hbs1).
  pose proof (Forall2_same_bind_links _ _ Hbs1) as Hl1.
  (* the update *)
  pose proof (bone_link _ _ _ Hb1) as Hlink. 
  assert (Hf1 : forest (links_of (bones m1)) = true) by (rewrite Hl1; exact Hf).
  destruct (forest_spec _ _ _ _ Hf1 Hlink) as [[d Hd] _].
  pose proof (depth_bound _ _ _ _ Hd) as Hdn.
  assert (Hlen : length (links_of (bones m1)) = length (bones (mesh s))).
  { rewrite Hl1. apply links_of_length. }
  destruct (updateMesh_terminates (links_of (bones m1)) Hf1 fuel m1 i None None d)
    as (m2 & Hm2 & Hl2); auto; try lia.
  pose proof (updateMesh_evolves fuel m1 i None None m2 Hw1 Hm2)
    as (Hw2 & He2 & Hbs2).
  destruct (Forall2_bone_at _ _ _ _ _ Hbs2 Hb1) as (b2 & Hb2 & Hloc).
  destruct Hloc as ((_ & _ & _ & Hip2 & Hie2) & Hri2 & _).
  exists (with_mesh s m2), b2.
  assert (Hwb : wf_bone (heap (mesh s)) b).
  { unfold wf_mesh in Hw. rewrite Forall_forall in Hw. apply Hw.
    now apply bone_at_Some in Hb. }
  destruct Hwb as (_ & _ & Hwip & Hwie & _).
  split.
  { unfold arrowKey, selected_bone. rewrite Hsel, Hb. fold axis.
    rewrite Hm1. simpl. rewrite Hm2. reflexivity. }
  simpl. split; [exact Hb2|].
  split.
  { rewrite Hri2, <- Hq1. apply extends_getQuat; auto. }
  pose proof (extends_trans _ _ _ He1 He2) as He.
  split; [rewrite Hie2, Hie1; apply extends_getVec3; auto|].
  split; [rewrite Hip2, Hip1; apply extends_getVec3; auto|].
  split; [exact Hw2|]. split; [congruence|exact Hsel].
Qed.

(** X5: with bone [i] selected in a skeleton whose links form a forest, the
    arrow keys do not fail: ArrowLeft replaces the bone's local rotation by
    its product with the rotation by [rotationSpeed] about the bone's
    bind-pose axis (from [initPosition] to [initEndpoint], as it is, not
    normalised), and ArrowRight by the product with the rotation by
    [- rotationSpeed]. *)
Theorem arrow_keys_roll_selected_bone (fuel : nat) (s : State) (i : Z) (b : Bone) :
  wf_mesh (mesh s) ->
  selectedBone s = Some i -> bone_at (bones (mesh s)) i = Some b ->
  forest (links_of (bones (mesh s))) = true ->
  (length (bones (mesh s)) < fuel)%nat ->
  (exists s' b',
     onKeydown fuel s ArrowLeft = Ok s' /\
     bone_at (bones (mesh s')) i = Some b' /\
     getQuat (heap (mesh s')) (R_i b')
     = Quat_product (getQuat (heap (mesh s)) (R_i b))
         (Quat_fromAxisAngle
            (Vec3_difference (getVec3 (heap (mesh s)) (initEndpoint b))
                             (getVec3 (heap (mesh s)) (initPosition b)))
            rotationSpeed)) /\
  (exists s' b',
     onKeydown fuel s ArrowRight = Ok s' /\
     bone_at (bones (mesh s')) i = Some b' /\
     getQuat (heap (mesh s')) (R_i b')
     = Quat_product (getQuat (heap (mesh s)) (R_i b))
         (Quat_fromAxisAngle
            (Vec3_difference (getVec3 (heap (mesh s)) (initEndpoint b))
                             (getVec3 (heap (mesh s)) (initPosition b)))
            (- rotationSpeed))).
Proof.
  intros Hw Hsel Hb Hf Hfuel. split.
  - destruct (arrowKey_spec fuel s i b rotationSpeed Hw Hsel Hb Hf Hfuel)
      as (s' & b' & H & Hb' & Hq & _).
    exists s', b'. auto.
  - destruct (arrowKey_spec fuel s i b (- rotationSpeed) Hw Hsel Hb Hf Hfuel)
      as (s' & b' & H & Hb' & Hq & _).
    exists s', b'. auto.
Qed.

(** X6: for a selected bone whose bind-pose length is 1, ArrowLeft followed
    by ArrowRight gives the bone's local rotation [R_i] its value back. *)
Theorem arrow_left_right_round_trip (fuel : nat) (s : State) (i : Z) (b : Bone) :
  wf_mesh (mesh s) ->
  selectedBone s = Some i -> bone_at (bones (mesh s)) i = Some b ->
  forest (links_of (bones (mesh s))) = true ->
  (length (bones (mesh s)) < fuel)%nat ->
  Vec3_squaredDistance (getVec3 (heap (mesh s)) (initEndpoint b))
                       (getVec3 (heap (mesh s)) (initPosition b)) = 1 ->
  exists s1 s2 b2,
    onKeydown fuel s ArrowLeft = Ok s1 /\
    onKeydown fuel s1 ArrowRight = Ok s2 /\
    bone_at (bones (mesh s2)) i = Some b2 /\
    getQuat (heap (mesh s2)) (R_i b2) = getQuat (heap (mesh s)) (R_i b).
Proof.
  intros Hw Hsel Hb Hf Hfuel Hu.
  destruct (arrowKey_spec fuel s i b rotationSpeed Hw Hsel Hb Hf Hfuel)
    as (s1 & b1 & H1 & Hb1 & Hq1 & Hie1 & Hip1 & Hw1 & Hl1 & Hsel1).
  assert (Hf1 : forest (links_of (bones (mesh s1))) = true) by (rewrite Hl1; exact Hf).
  assert (Hfuel1 : (length (bones (mesh s1)) < fuel)%nat).
  { rewrite <- (links_of_length (bones (mesh s1))), Hl1, links_of_length.
    exact Hfuel. }
  destruct (arrowKey_spec fuel s1 i b1 (- rotationSpeed) Hw1 Hsel1 Hb1 Hf1 Hfuel1)
    as (s2 & b2 & H2 & Hb2 & Hq2 & _).
  exists s1, s2, b2. split; [exact H1|]. split; [exact H2|].
  split; [exact Hb2|].
  rewrite Hq2, Hq1, Hie1, Hip1, Quat_product_assoc.
  rewrite Quat_fromAxisAngle_inverse.
  - apply Quat_product_identity_r.
  - unfold Vec3_squaredDistance in Hu. unfold Vec3_dot, Vec3_difference; simpl.
    exact Hu.
Qed.

Lemma quadratic_roots_only (a b c s t : R) :
  a <> 0 -> s * s = b * b - 4 * a * c ->
  a * (t * t) + b * t + c = 0 ->
  t = (- b - s) / (2 * a) \/ t = (- b + s) / (2 * a).
Proof.
  intros Ha Hs Hq.
  assert (H : (2 * a * t + b - s) * (2 * a * t + b + s) = 0).
  { replace ((2 * a * t + b - s) * (2 * a * t + b + s))
      with (4 * a * (a * (t * t) + b * t + c) + (b * b - 4 * a * c) - s * s)
      by ring.
    rewrite Hq, Hs. ring. }
  apply Rmult_integral in H as [H|H].
  - right. apply Rmult_eq_reg_l with (2 * a); [|lra].
    replace (2 * a * ((- b + s) / (2 * a))) with (- b + s) by (field; lra). lra.
  - left. apply Rmult_eq_reg_l with (2 * a); [|lra].
    replace (2 * a * ((- b - s) / (2 * a))) with (- b - s) by (field; lra). lra.
Qed.

Lemma Rmin_which (x y : R) :
  (Rmin x y = x /\ x <= y) \/ (Rmin x y = y /\ y <= x).
Proof. unfold Rmin; destruct (Rle_dec x y); [left|right]; split; lra. Qed.

Lemma in_range_spec (y dist : R) :
  Rleb 0 y && Rleb y dist = true <-> 0 <= y <= dist.
Proof.
  rewrite andb_true_iff, !Rleb_spec. tauto.
Qed.

(** X7: [intersectCilinder] returns the number [t] exactly when the
    normalised ray is not parallel to the cylinder's axis, its point at
    parameter [t] lies on the side of the cylinder within the bone's length,
    [t] is below [Number.MAX_VALUE], and no point of the ray on the side of
    the cylinder within the bone's length has a smaller parameter.  The end
    caps are not tested, and the sign of [t] is not either. *)
Theorem intersectCilinder_nearest_side_point (pos dirNotN : Vec3) (dist t : R) :
  intersectCilinder pos dirNotN dist = Some t <->
  (vx (Vec3_normalize dirNotN) * vx (Vec3_normalize dirNotN)
   + vz (Vec3_normalize dirNotN) * vz (Vec3_normalize dirNotN) <> 0 /\
   on_side pos (Vec3_normalize dirNotN) dist t /\
   t < MAX_VALUE /\
   forall t', on_side pos (Vec3_normalize dirNotN) dist t' -> t <= t').
Proof.
  unfold intersectCilinder, on_side.
  set (dir := Vec3_normalize dirNotN).
  set (a := vx dir * vx dir + vz dir * vz dir).
  set (b := 2 * (vx pos * vx dir + vz pos * vz dir)).
  set (c := vx pos * vx pos + vz pos * vz pos - RADIUS_BONE * RADIUS_BONE).
  cbv zeta.
  assert (Hcircle : forall u,
            (vx pos + u * vx dir) * (vx pos + u * vx dir)
            + (vz pos + u * vz dir) * (vz pos + u * vz dir)
            = RADIUS_BONE * RADIUS_BONE <->
            a * (u * u) + b * u + c = 0).
  { intros u.
    assert (Hid : a * (u * u) + b * u + c
                  = (vx pos + u * vx dir) * (vx pos + u * vx dir)
                    + (vz pos + u * vz dir) * (vz pos + u * vz dir)
                    - RADIUS_BONE * RADIUS_BONE)
      by (unfold a, b, c; ring).
    rewrite Hid. split; intros H.
    - rewrite H. ring.
    - apply Rminus_diag_uniq. exact H. }
  destruct (Rlt_dec (b * b - 4 * a * c) 0) as [Hneg|Hd].
  { split; [discriminate|]. intros (_ & (Hc & _) & _). exfalso.
    apply Hcircle in Hc.
    pose proof (Rle_0_sqr (2 * a * t + b)) as H. unfold Rsqr in H.
    replace ((2 * a * t + b) * (2 * a * t + b))
      with (4 * a * (a * (t * t) + b * t + c) + (b * b - 4 * a * c)) in H by ring.
    rewrite Hc in H. lra. }
  destruct (Req_EM_T a 0) as [Ha0|Ha].
  { split; [discriminate|]. intros (Hna & _). contradiction. }
  set (s := sqrt (b * b - 4 * a * c)).
  assert (Hs : s * s = b * b - 4 * a * c) by (apply sqrt_sqrt; lra).
  set (t1 := (- b - s) / (2 * a)). set (t2 := (- b + s) / (2 * a)).
  assert (Hroot : forall u, u = t1 \/ u = t2 -> a * (u * u) + b * u + c = 0).
  { intros u Hu. exact (quadratic_root a b c s u Ha Hs Hu). }
  assert (Honly : forall u, a * (u * u) + b * u + c = 0 -> u = t1 \/ u = t2).
  { intros u Hu. exact (quadratic_roots_only a b c s u Ha Hs Hu). }
  set (y1 := vy pos + t1 * vy dir). set (y2 := vy pos + t2 * vy dir).
  set (ans1 := if Rleb 0 y1 && Rleb y1 dist then Rmin MAX_VALUE t1 else MAX_VALUE).
  set (ans := if Rleb 0 y2 && Rleb y2 dist then Rmin ans1 t2 else ans1).
  assert (Hans : ans <= MAX_VALUE /\
                 (ans = MAX_VALUE \/ (ans = t1 /\ 0 <= y1 <= dist)
                  \/ (ans = t2 /\ 0 <= y2 <= dist)) /\
                 (0 <= y1 <= dist -> ans <= t1) /\
                 (0 <= y2 <= dist -> ans <= t2)).
  { unfold ans, ans1.
    destruct (Rleb 0 y1 && Rleb y1 dist) eqn:H1;
    destruct (Rleb 0 y2 && Rleb y2 dist) eqn:H2;
    try (apply in_range_spec in H1); try (apply in_range_spec in H2);
    try (assert (N1 : ~ 0 <= y1 <= dist)
           by (intros N; apply in_range_spec in N; congruence));
    try (assert (N2 : ~ 0 <= y2 <= dist)
           by (intros N; apply in_range_spec in N; congruence));
    [ destruct (Rmin_which MAX_VALUE t1) as [[E1 L1]|[E1 L1]]; rewrite E1;
      destruct (Rmin_which (Rmin MAX_VALUE t1) t2) as [[E2 L2]|[E2 L2]];
      rewrite E1 in E2, L2; rewrite E2
    | destruct (Rmin_which MAX_VALUE t1) as [[E1 L1]|[E1 L1]]; rewrite E1
    | destruct (Rmin_which MAX_VALUE t2) as [[E2 L2]|[E2 L2]]; rewrite E2
    | ];
    (split; [lra|]); (split; [auto|]); (split; [try tauto; intros; lra|]);
    try tauto; intros; lra. }
  destruct Hans as (Hmax & Hwhich & Hle1 & Hle2).
  destruct (Req_EM_T ans MAX_VALUE) as [Heq|Hne].
  - split; [discriminate|]. intros (_ & (Hc & Hy) & Hlt & _). exfalso.
    apply Hcircle in Hc. apply Honly in Hc as [-> | ->].
    + specialize (Hle1 Hy). lra.
    + specialize (Hle2 Hy). lra.
  - split.
    + intros H; inversion H; subst t; clear H.
      split; [exact Ha|]. split.
      * destruct Hwhich as [E|[[E Hy]|[E Hy]]]; [contradiction| |];
          rewrite E; (split; [apply Hcircle; apply Hroot; auto|exact Hy]).
      * split; [lra|]. intros t' (Hc & Hy).
        apply Hcircle in Hc. apply Honly in Hc as [-> | ->]; auto.
    + intros (_ & (Hc & Hy) & Hlt & Hmin). f_equal.
      assert (Hle : ans <= t).
      { apply Hcircle in Hc. apply Honly in Hc as [-> | ->]; auto. }
      assert (Hge : t <= ans).
      { apply Hmin.
        destruct Hwhich as [E|[[E Hy']|[E Hy']]]; [contradiction| |];
          rewrite E; (split; [apply Hcircle; apply Hroot; auto|exact Hy']). }
      lra.
Qed.

(** ** The outcome of a picking pass *)

Lemma nearest_last (ints : list (option R)) :
  forall i hi mt,
    (fst (nearest ints i (hi, mt)) = hi /\ snd (nearest ints i (hi, mt)) = mt /\
     forall k t, nth_error ints k = Some (Some t) -> mt < t) \/
    (exists k, fst (nearest ints i (hi, mt)) = Some (i + Z.of_nat k)%Z /\
       nth_error ints k = Some (Some (snd (nearest ints i (hi, mt)))) /\
       forall k' t', (k < k')%nat -> nth_error ints k' = Some (Some t') ->
                     snd (nearest ints i (hi, mt)) < t').
Proof.
  induction ints as [|x ints IH]; intros i hi mt; simpl.
  - left. repeat split. intros [|k] t H; discriminate.
  - unfold nearest_step; simpl.
    assert (Hshift : forall hi' mt',
              (exists k, fst (nearest ints (i + 1) (hi', mt'))
                         = Some (i + 1 + Z.of_nat k)%Z /\
                 nth_error ints k
                 = Some (Some (snd (nearest ints (i + 1) (hi', mt')))) /\
                 forall k' t', (k < k')%nat ->
                   nth_error ints k' = Some (Some t') ->
                   snd (nearest ints (i + 1) (hi', mt')) < t') ->
              exists k, fst (nearest ints (i + 1) (hi', mt'))
                        = Some (i + Z.of_nat k)%Z /\
                 nth_error (x :: ints) k
                 = Some (Some (snd (nearest ints (i + 1) (hi', mt')))) /\
                 forall k' t', (k < k')%nat ->
                   nth_error (x :: ints) k' = Some (Some t') ->
                   snd (nearest ints (i + 1) (hi', mt')) < t').
    { intros hi' mt' (k & Hf & Hk & Hlater). exists (S k).
      split; [rewrite Hf; f_equal; lia|]. split; [exact Hk|].
      intros [|k'] t' Hlt Hn; [lia|]. simpl in Hn.
      apply (Hlater k' t'); [lia|exact Hn]. }
    destruct x as [t0|].
    + destruct (Rle_dec t0 mt) as [Hle|Hgt].
      * right. destruct (IH (i + 1)%Z (Some i) t0) as [(Hf & Hs & Hall)|H].
        -- exists 0%nat. rewrite Hf, Hs. simpl. rewrite Z.add_0_r.
           split; [reflexivity|]. split; [reflexivity|].
           intros [|k'] t' Hlt Hn; [lia|]. simpl in Hn. eauto.
        -- apply Hshift. exact H.
      * destruct (IH (i + 1)%Z hi mt) as [(Hf & Hs & Hall)|H].
        -- left. repeat split; auto.
           intros [|k] t H; simpl in H; [inversion H; subst; lra|eauto].
        -- right. apply Hshift. exact H.
    + destruct (IH (i + 1)%Z hi mt) as [(Hf & Hs & Hall)|H].
      * left. repeat split; auto.
        intros [|k] t H; simpl in H; [discriminate|eauto].
      * right. apply Hshift. exact H.
Qed.

Section PickOutcome.

Variable inverse : Mat3 -> option Mat3.

Lemma intersectLoop_Ok (h : Heap) (p d : Vec3) (bs : list Bone) :
  forall ints, intersectLoop inverse h bs p d = Ok ints ->
    Forall2 (fun b r => intersectBone inverse h b p d = Ok r) bs ints.
Proof.
  induction bs as [|b bs IH]; intros ints H; simpl in H.
  - inversion H; subst. constructor.
  - apply bind_Ok in H as (r & Hr & H). apply bind_Ok in H as (rs & Hrs & H).
    inversion H; subst. constructor; auto.
Qed.

Lemma intersectLoop_Forall2 (h : Heap) (p d : Vec3) (bs : list Bone) :
  forall ints,
    Forall2 (fun b r => intersectBone inverse h b p d = Ok r) bs ints ->
    intersectLoop inverse h bs p d = Ok ints.
Proof.
  induction bs as [|b bs IH]; intros ints H; inversion H; subst; simpl.
  - reflexivity.
  - rewrite H2. simpl. rewrite (IH _ H4). reflexivity.
Qed.

Lemma pick_picked (s : State) (p d : Vec3) (ints : list (option R)) :
  intersectLoop inverse (heap (mesh s)) (bones (mesh s)) p d = Ok ints ->
  pick inverse s p d = picked s ints.
Proof.
  intros Hloop.
  assert (Hlen : length (bones (mesh s)) = length ints).
  { apply intersectLoop_Ok in Hloop. eapply Forall2_length; eauto. }
  unfold pick, picked. rewrite Hloop. cbn [bind].
  pose proof (highlightLoop_total ints [] (bones (mesh s)) NaN MAX_SAFE_INTEGER
                (selectedBone s) Hlen) as Hhl.
  cbn [length app Z.of_nat] in Hhl. rewrite Hhl.
  cbn [bind HighlightIndex p_bones p_selectedBone].
  reflexivity.
Qed.

Lemma intersectBone_same_refs (h : Heap) (b b' : Bone) (p d : Vec3) :
  same_refs b b' ->
  intersectBone inverse h b' p d = intersectBone inverse h b p d.
Proof.
  intros (_ & Hp & He & _). unfold intersectBone. now rewrite Hp, He.
Qed.

Lemma unhighlight_idem (b : Bone) : unhighlight (unhighlight b) = unhighlight b.
Proof. reflexivity. Qed.

Lemma map_unhighlight_idem (bs : list Bone) :
  map unhighlight (map unhighlight bs) = map unhighlight bs.
Proof. rewrite map_map. apply map_ext. intros; apply unhighlight_idem. Qed.

Lemma map_unhighlight_set (bs : list Bone) (hi : Z) (b : Bone) :
  bone_at (map unhighlight bs) hi = Some b ->
  map unhighlight (set_bone (map unhighlight bs) hi (setHighlight b true))
  = map unhighlight bs.
Proof.
  intros Hb. unfold set_bone. rewrite map_list_set, map_unhighlight_idem.
  apply list_set_same. apply bone_at_Some in Hb as (_ & Hn & _).
  rewrite Hn. f_equal.
  rewrite nth_error_map in Hn.
  destruct (nth_error bs (Z.to_nat hi)) as [b0|]; [|discriminate].
  inversion Hn; subst. reflexivity.
Qed.

(** X8: a picking pass changes nothing but the highlight flags of the bones
    and the selection: the object store, the references the bones hold, the
    keyframes, the cursor, the mode, the camera and the drag state are as
    before. *)
Theorem pointer_move_changes_flags_only
    (fuel : nat) (s s' : State) (mouse : MouseEvent) (view : View) :
  dragging s = false ->
  drag inverse fuel s mouse view = Ok s' ->
  s' = mkState (mkMesh (heap (mesh s)) (bones (mesh s')))
         (keyFrames s) (selectedBone s') (boneDragging s) (dragging s)
         (prevX s) (prevY s) (time s) (mode s) (camera s) /\
  map unhighlight (bones (mesh s')) = map unhighlight (bones (mesh s)).
Proof.
  intros Hd H. unfold drag in H. rewrite Hd in H.
  assert (Hloop : exists ints,
            intersectLoop inverse (heap (mesh s)) (bones (mesh s))
              (pos view) (mouse_dir view) = Ok ints).
  { unfold pick in H. apply bind_Ok in H as (ints & Hi & _). eauto. }
  destruct Hloop as (ints & Hloop).
  rewrite (pick_picked s _ _ ints Hloop) in H. unfold picked in H.
  destruct (fst (nearest ints 0 (NaN, MAX_SAFE_INTEGER))) as [hi|].
  - destruct (bone_at (map unhighlight (bones (mesh s))) hi) as [b|] eqn:Hb;
      [|discriminate].
    inversion H; subst s'; clear H. cbn [mesh bones selectedBone].
    split; [reflexivity|]. apply map_unhighlight_set. exact Hb.
  - inversion H; subst s'; clear H. cbn [mesh bones selectedBone].
    split; [reflexivity|]. apply map_unhighlight_idem.
Qed.

(** X9: a second picking pass along the same ray changes nothing: the state
    a pass ends in is a fixed point of the pass. *)
Theorem pick_twice (s s' : State) (p d : Vec3) :
  pick inverse s p d = Ok s' -> pick inverse s' p d = Ok s'.
Proof.
  intros H.
  assert (Hloop : exists ints,
            intersectLoop inverse (heap (mesh s)) (bones (mesh s)) p d = Ok ints).
  { unfold pick in H. apply bind_Ok in H as (ints & Hi & _). eauto. }
  destruct Hloop as (ints & Hloop).
  destruct (pick_same_refs inverse s s' p d H) as (Hh & Hrefs & _).
  assert (Hloop' : intersectLoop inverse (heap (mesh s')) (bones (mesh s')) p d
                   = Ok ints).
  { apply intersectLoop_Forall2. rewrite Hh.
    apply intersectLoop_Ok in Hloop.
    revert Hloop. generalize ints. clear - Hrefs.
    induction Hrefs as [|b b' bs bs' Hb _ IH]; intros ints Hf;
      inversion Hf; subst; constructor; auto.
    rewrite (intersectBone_same_refs _ _ _ _ _ Hb). assumption. }
  rewrite (pick_picked s' p d ints Hloop').
  rewrite (pick_picked s p d ints Hloop) in H. unfold picked in *.
  destruct (fst (nearest ints 0 (NaN, MAX_SAFE_INTEGER))) as [hi|].
  - destruct (bone_at (map unhighlight (bones (mesh s))) hi) as [b|] eqn:Hb;
      [|discriminate].
    inversion H; subst s'; clear H. cbn [mesh bones heap keyFrames boneDragging
      dragging prevX prevY time mode camera].
    rewrite (map_unhighlight_set _ _ _ Hb), Hb. reflexivity.
  - inversion H; subst s'; clear H. cbn [mesh bones heap keyFrames boneDragging
      dragging prevX prevY time mode camera selectedBone].
    rewrite map_unhighlight_idem. destruct ints; reflexivity.
Qed.

(** X10: when several bones are hit at the same smallest distance, the pass
    selects the one with the largest index: every other bone is hit farther
    away, or at the same distance and has a smaller index. *)
Theorem pick_prefers_last_of_equals (s : State) (p d : Vec3) :
  Forall (fun b => exists r, intersectBone inverse (heap (mesh s)) b p d = Ok r)
         (bones (mesh s)) ->
  (exists k t, hit inverse s p d k t /\ t <= MAX_SAFE_INTEGER) ->
  exists s' hi t,
    pick inverse s p d = Ok s' /\
    selectedBone s' = Some hi /\ hit inverse s p d hi t /\
    forall k t', hit inverse s p d k t' ->
                 t < t' \/ (t = t' /\ (k <= hi)%Z).
Proof.
  intros Hall (k0 & t0 & Hk0 & Ht0).
  destruct (intersectLoop_spec _ _ _ _ _ Hall) as (ints & Hloop & Hf2).
  pose proof (hit_nth inverse s p d ints Hf2) as Hhit.
  assert (Hlen : length (bones (mesh s)) = length ints)
    by (eapply Forall2_length; eauto).
  rewrite (pick_picked s p d ints Hloop). unfold picked.
  destruct (nearest_spec ints 0 NaN MAX_SAFE_INTEGER) as (_ & Hleast & _).
  destruct (nearest_last ints 0 NaN MAX_SAFE_INTEGER)
    as [(_ & _ & Hfar)|(k & Hk & Hn & Hlater)].
  { apply Hhit in Hk0 as [_ Hk0]. apply Hfar in Hk0. lra. }
  rewrite Hk, Z.add_0_l.
  assert (Hklt : (k < length (bones (mesh s)))%nat).
  { rewrite Hlen. apply nth_error_Some. congruence. }
  destruct (nth_error (bones (mesh s)) k) as [b|] eqn:Hb;
    [|apply nth_error_None in Hb; lia].
  assert (Hbk : bone_at (map unhighlight (bones (mesh s))) (Z.of_nat k)
                = Some (unhighlight b)).
  { unfold bone_at.
    destruct (Z.of_nat k <? 0)%Z eqn:E; [apply Z.ltb_lt in E; lia|].
    now rewrite Nat2Z.id, nth_error_map, Hb. }
  rewrite Hbk. eexists. exists (Z.of_nat k).
  exists (snd (nearest ints 0 (NaN, MAX_SAFE_INTEGER))).
  split; [reflexivity|]. split; [reflexivity|]. split.
  - apply Hhit. rewrite Nat2Z.id. split; [lia|exact Hn].
  - intros k' t' Hk'. apply Hhit in Hk' as [Hpos Hk'].
    pose proof (Hleast _ _ Hk') as Hle.
    destruct (Rle_lt_or_eq_dec _ _ Hle) as [Hlt|Heq]; [left; exact Hlt|].
    right. split; [exact Heq|].
    destruct (Nat.le_gt_cases (Z.to_nat k') k) as [Hle'|Hgt]; [lia|].
    pose proof (Hlater _ _ Hgt Hk'). lra.
Qed.

End PickOutcome.

(** ** The properties on sample data *)

Lemma slider_stays_on_timeline_witness :
  exists s' x,
    run (fun q _ _ => q) Mat3_inverse 0 Examples.twoKeyFrames
        [Keydown KeyP; Frame (1 / 2)] = Ok s' /\
    sliderPosition s' = Some x /\
    timelineX <= x < timelineX + timelineWidth.
Proof.
  assert (Hrun : run (fun q _ _ => q) Mat3_inverse 0 Examples.twoKeyFrames
                   [Keydown KeyP; Frame (1 / 2)]
                 = Ok (with_time_mode Examples.twoKeyFrames (0 + 1 / 2) playback)).
  { cbn [run step onKeydown Examples.twoKeyFrames mode getNumKeyFrames keyFrames
         length Nat.ltb Nat.leb bind].
    unfold draw, incrementTime. cbn [mode with_time_mode time].
    destruct (Rle_dec _ _) as [H|H].
    - unfold getMaxTime in H; simpl in H. lra.
    - reflexivity. }
  eexists. eexists. split; [exact Hrun|]. split; [reflexivity|].
  eapply (slider_stays_on_timeline (fun q _ _ => q) Mat3_inverse 0
            Examples.twoKeyFrames
            (with_time_mode Examples.twoKeyFrames (0 + 1 / 2) playback)
            [Keydown KeyP; Frame (1 / 2)]).
  - unfold timeline_ok; simpl. repeat split; try lra; auto.
  - repeat constructor. simpl. lra.
  - exact Hrun.
  - reflexivity.
Defined.

Lemma wf_state_hover : wf_state Examples4.hover.
Proof.
  split; [|constructor].
  repeat constructor; simpl; lia.
Qed.

Lemma selection_stays_valid_witness :
  exists s',
    run (fun q _ _ => q) Mat3_inverse 0 Examples4.hover
        [MouseMove Examples5.move Examples5.look; MouseDown Examples5.move] = Ok s' /\
    drag_ok s' /\ selection_ok s'.
Proof.
  destruct (pick_spec Mat3_inverse Examples4.hover Examples4.eye Examples4.ahead)
    as (s1 & Hp & _); [discriminate|exact hover_frames|].
  assert (Hrun : run (fun q _ _ => q) Mat3_inverse 0 Examples4.hover
                   [MouseMove Examples5.move Examples5.look;
                    MouseDown Examples5.move]
                 = Ok (dragStart s1 Examples5.move)).
  { cbn [run step]. unfold drag.
    change (dragging Examples4.hover) with false. cbv iota.
    change (pos Examples5.look) with Examples4.eye.
    change (mouse_dir Examples5.look) with Examples4.ahead.
    rewrite Hp. reflexivity. }
  exists (dragStart s1 Examples5.move). split; [exact Hrun|].
  apply (selection_stays_valid (fun q _ _ => q) Mat3_inverse 0
           [MouseMove Examples5.move Examples5.look; MouseDown Examples5.move]
           Examples4.hover).
  - exact wf_state_hover.
  - intros H; discriminate.
  - intros i H; discriminate.
  - exact Hrun.
Defined.

Lemma forest_rolling :
  forest (links_of (bones (mesh Examples5.rolling))) = true.
Proof. evalR. reflexivity. Qed.

Lemma arrow_keys_roll_selected_bone_witness :
  exists b s' b',
    bone_at (bones (mesh Examples5.rolling)) 0 = Some b /\
    onKeydown 3 Examples5.rolling ArrowLeft = Ok s' /\
    bone_at (bones (mesh s')) 0 = Some b' /\
    getQuat (heap (mesh s')) (R_i b')
    = Quat_product (getQuat (heap (mesh Examples5.rolling)) (R_i b))
        (Quat_fromAxisAngle
           (Vec3_difference
              (getVec3 (heap (mesh Examples5.rolling)) (initEndpoint b))
              (getVec3 (heap (mesh Examples5.rolling)) (initPosition b)))
           rotationSpeed).
Proof.
  destruct (bone_at (bones (mesh Examples5.rolling)) 0) as [b|] eqn:Hb;
    [|discriminate].
  destruct (arrow_keys_roll_selected_bone 3 Examples5.rolling 0 b)
    as [(s' & b' & H) _].
  - exact wf_mesh_rolling.
  - reflexivity.
  - exact Hb.
  - exact forest_rolling.
  - simpl. lia.
  - exists b, s', b'. split; [reflexivity|exact H].
Defined.

Lemma arrow_left_right_round_trip_witness :
  exists b s1 s2 b2,
    bone_at (bones (mesh Examples5.rolling)) 0 = Some b /\
    onKeydown 3 Examples5.rolling ArrowLeft = Ok s1 /\
    onKeydown 3 s1 ArrowRight = Ok s2 /\
    bone_at (bones (mesh s2)) 0 = Some b2 /\
    getQuat (heap (mesh s2)) (R_i b2)
    = getQuat (heap (mesh Examples5.rolling)) (R_i b).
Proof.
  destruct (bone_at (bones (mesh Examples5.rolling)) 0) as [b|] eqn:Hb;
    [|discriminate].
  destruct (arrow_left_right_round_trip 3 Examples5.rolling 0 b)
    as (s1 & s2 & b2 & H).
  - exact wf_mesh_rolling.
  - reflexivity.
  - exact Hb.
  - exact forest_rolling.
  - simpl. lia.
  - inversion Hb; subst b. unfold Vec3_squaredDistance. evalR. ring.
  - exists b, s1, s2, b2. split; [reflexivity|exact H].
Defined.

Lemma pick_hover :
  exists s', pick Mat3_inverse Examples4.hover Examples4.eye Examples4.ahead = Ok s'.
Proof.
  destruct (pick_spec Mat3_inverse Examples4.hover Examples4.eye Examples4.ahead)
    as (s1 & Hp & _); [discriminate|exact hover_frames|]. eauto.
Qed.

Lemma pointer_move_changes_flags_only_witness :
  exists s',
    drag Mat3_inverse 0 Examples4.hover Examples5.move Examples5.look = Ok s' /\
    map unhighlight (bones (mesh s')) = map unhighlight (bones (mesh Examples4.hover)).
Proof.
  destruct pick_hover as (s' & Hp). exists s'.
  assert (Hd : drag Mat3_inverse 0 Examples4.hover Examples5.move Examples5.look
               = Ok s') by exact Hp.
  split; [exact Hd|].
  apply (pointer_move_changes_flags_only Mat3_inverse 0 Examples4.hover s'
           Examples5.move Examples5.look eq_refl Hd).
Defined.

Lemma pick_twice_witness :
  exists s',
    pick Mat3_inverse Examples4.hover Examples4.eye Examples4.ahead = Ok s' /\
    pick Mat3_inverse s' Examples4.eye Examples4.ahead = Ok s'.
Proof.
  destruct pick_hover as (s' & Hp). exists s'. split; [exact Hp|].
  exact (pick_twice Mat3_inverse Examples4.hover s' Examples4.eye Examples4.ahead Hp).
Defined.

Lemma twins_hits :
  hit Mat3_inverse Examples5.twins Examples4.eye Examples4.ahead 0 (5 - 1 / 10) /\
  hit Mat3_inverse Examples5.twins Examples4.eye Examples4.ahead 1 (5 - 1 / 10).
Proof.
  split; exists Examples4.boneA; (split; [reflexivity|exact hover_hit_A]).
Qed.

Lemma pick_prefers_last_of_equals_witness :
  exists s',
    pick Mat3_inverse Examples5.twins Examples4.eye Examples4.ahead = Ok s' /\
    selectedBone s' = Some 1%Z.
Proof.
  destruct twins_hits as [H0 H1].
  destruct (pick_prefers_last_of_equals Mat3_inverse Examples5.twins
              Examples4.eye Examples4.ahead) as (s' & hi & t & Hp & Hs & Hh & Hlast).
  - repeat constructor; eexists; exact hover_hit_A.
  - exists 0%Z, (5 - 1 / 10). split; [exact H0|]. unfold MAX_SAFE_INTEGER; lra.
  - exists s'. split; [exact Hp|]. rewrite Hs. f_equal.
    assert (Ht : t = 5 - 1 / 10).
    { destruct Hh as (b & Hb & Hr). pose proof Hb as Hb'.
      apply bone_at_Some in Hb' as (Hpos & Hn & _).
      destruct (Z.to_nat hi) as [|[|n]] eqn:E; simpl in Hn.
      - assert (hi = 0%Z) by lia. subst hi.
        eapply hit_functional; [exists b; split; eauto|exact H0].
      - assert (hi = 1%Z) by lia. subst hi.
        eapply hit_functional; [exists b; split; eauto|exact H1].
      - destruct n; discriminate. }
    assert (Hle : (hi <= 1)%Z).
    { destruct Hh as (b & Hb & _). apply bone_at_Some in Hb as (Hpos & Hn & _).
      destruct (Z.to_nat hi) as [|[|n]] eqn:E; simpl in Hn; try lia.
      destruct n; discriminate. }
    destruct (Hlast _ _ H1) as [Hlt|[_ Hge]]; [lra|lia].
Defined.


(** ** The arrays handed to the shaders *)

Lemma list_set_app_middle {A : Type} (pre l : list A) (k : nat) (x : A) :
  list_set (length pre + k) x (pre ++ l) = pre ++ list_set k x l.
Proof.
  induction pre as [|a pre IH]; simpl; [reflexivity|]. now rewrite IH.
Qed.

Lemma forEachBone_chunks (width : nat) (g : Bone -> list R)
    (f : list R -> Bone -> nat -> list R) :
  (forall b, length (g b) = width) ->
  (forall pre rest b index,
     length pre = (width * index)%nat ->
     f (pre ++ repeat 0 width ++ rest) b index = pre ++ g b ++ rest) ->
  forall bs pre index,
    length pre = (width * index)%nat ->
    Scene.forEachBone f bs index (pre ++ repeat 0 (width * length bs))
    = pre ++ flat_map g bs.
Proof.
  intros Hg Hf. induction bs as [|b bs IH]; intros pre index Hpre; simpl.
  - rewrite Nat.mul_0_r. reflexivity.
  - replace (width * S (length bs))%nat with (width + width * length bs)%nat by lia.
    rewrite repeat_app, Hf by exact Hpre.
    rewrite app_assoc, IH.
    + now rewrite <- app_assoc.
    + rewrite length_app, Hg, Hpre. lia.
Qed.

Lemma nth_error_flat_map_chunks {A B : Type} (width : nat) (g : A -> list B) :
  (forall a, length (g a) = width) ->
  forall l i a k, nth_error l i = Some a -> (k < width)%nat ->
    nth_error (flat_map g l) (width * i + k) = nth_error (g a) k.
Proof.
  intros Hg. induction l as [|x l IH]; intros [|i] a k Hn Hk; simpl in Hn;
    try discriminate.
  - inversion Hn; subst. simpl. rewrite Nat.mul_0_r. simpl.
    apply nth_error_app1. rewrite Hg. exact Hk.
  - simpl flat_map. rewrite nth_error_app2 by (rewrite Hg; lia).
    rewrite Hg. replace (width * S i + k - width)%nat with (width * i + k)%nat by lia.
    now apply IH.
Qed.

Lemma getBoneTranslations_flat (m : Mesh) :
  Scene.getBoneTranslations m
  = flat_map (fun b => Scene.xyz (getVec3 (heap m) (position b))) (bones m).
Proof.
  unfold Scene.getBoneTranslations, Scene.Float32Array_new.
  apply (forEachBone_chunks 3
           (fun b => Scene.xyz (getVec3 (heap m) (position b))) _
           (fun _ => eq_refl)) with (pre := []) (index := 0%nat);
    [|reflexivity].
  intros pre rest b index Hpre. cbn [Scene.copyInto Scene.xyz repeat app].
  replace (3 * index)%nat with (length pre) by lia.
  rewrite !list_set_app_middle. reflexivity.
Qed.

Lemma getBoneRotations_flat (m : Mesh) :
  Scene.getBoneRotations m
  = flat_map (fun b => Scene.xyzw (getQuat (heap m) (rotation b))) (bones m).
Proof.
  unfold Scene.getBoneRotations, Scene.Float32Array_new.
  apply (forEachBone_chunks 4
           (fun b => Scene.xyzw (getQuat (heap m) (rotation b))) _
           (fun _ => eq_refl)) with (pre := []) (index := 0%nat);
    [|reflexivity].
  intros pre rest b index Hpre. cbn [Scene.copyInto Scene.xyzw repeat app].
  replace (4 * index)%nat with (length pre) by lia.
  rewrite !list_set_app_middle. reflexivity.
Qed.

Lemma getBoneColors_flat (m : Mesh) :
  Scene.getBoneColors m
  = flat_map (fun b => if isHighlight b then green else red) (bones m).
Proof.
  unfold Scene.getBoneColors, Scene.Float32Array_new.
  apply (forEachBone_chunks 4
           (fun b => if isHighlight b then green else red)) with (pre := [])
           (index := 0%nat); [| |reflexivity].
  - intros b. destruct (isHighlight b); reflexivity.
  - intros pre rest b index Hpre. cbn [repeat app].
    replace (index * 4)%nat with (length pre + 0)%nat by lia.
    replace (length pre + 0 + 1)%nat with (length pre + 1)%nat by lia.
    replace (length pre + 0 + 2)%nat with (length pre + 2)%nat by lia.
    replace (length pre + 0 + 3)%nat with (length pre + 3)%nat by lia.
    destruct (isHighlight b); rewrite !list_set_app_middle; reflexivity.
Qed.

(** X11: the array of bone translations holds, for bone [i], the
    three coordinates of its position at indices 3i to 3i+2, and the array
    of bone rotations the four components of its rotation at indices 4i to
    4i+3; nothing else is in them. *)
Theorem bone_uniforms_layout (m : Mesh) :
  Scene.getBoneTranslations m
  = flat_map (fun b => Scene.xyz (getVec3 (heap m) (position b))) (bones m) /\
  Scene.getBoneRotations m
  = flat_map (fun b => Scene.xyzw (getQuat (heap m) (rotation b))) (bones m) /\
  (forall i b k, nth_error (bones m) i = Some b -> (k < 3)%nat ->
     nth_error (Scene.getBoneTranslations m) (3 * i + k)
     = nth_error (Scene.xyz (getVec3 (heap m) (position b))) k) /\
  (forall i b k, nth_error (bones m) i = Some b -> (k < 4)%nat ->
     nth_error (Scene.getBoneRotations m) (4 * i + k)
     = nth_error (Scene.xyzw (getQuat (heap m) (rotation b))) k).
Proof.
  split; [apply getBoneTranslations_flat|].
  split; [apply getBoneRotations_flat|]. split.
  - intros i b k Hb Hk. rewrite getBoneTranslations_flat.
    apply (nth_error_flat_map_chunks 3
             (fun b => Scene.xyz (getVec3 (heap m) (position b)))
             (fun _ => eq_refl) _ _ _ _ Hb Hk).
  - intros i b k Hb Hk. rewrite getBoneRotations_flat.
    apply (nth_error_flat_map_chunks 4
             (fun b => Scene.xyzw (getQuat (heap m) (rotation b)))
             (fun _ => eq_refl) _ _ _ _ Hb Hk).
Qed.

Section Colours.

Variable inverse : Mat3 -> option Mat3.

(** X12: the colour array holds green for a highlighted bone and red
    for every other one, four numbers a bone; so after a picking pass in
    which a bone is hit within the bound, the bone drawn in green is the
    selected one, and it is the only one. *)
Theorem selected_bone_is_drawn_green (s : State) (p d : Vec3) :
  (forall m, Scene.getBoneColors m
             = flat_map (fun b => if isHighlight b then green else red) (bones m)) /\
  (Forall (fun b => exists r, intersectBone inverse (heap (mesh s)) b p d = Ok r)
          (bones (mesh s)) ->
   (exists k t, hit inverse s p d k t /\ t <= MAX_SAFE_INTEGER) ->
   exists s' hi,
     pick inverse s p d = Ok s' /\ selectedBone s' = Some hi /\
     Scene.getBoneColors (mesh s')
     = flat_map (fun j => if (Z.of_nat j =? hi)%Z then green else red)
                (seq 0 (length (bones (mesh s))))).
Proof.
  split; [exact getBoneColors_flat|]. intros Hall Hhit.
  destruct (pick_spec inverse s p d) as (s' & Hp & _ & Hsel & _); auto.
  { destruct Hhit as (k & t & (b & Hb & _) & _).
    intros E. rewrite E in Hb. unfold bone_at in Hb.
    destruct (k <? 0)%Z; [discriminate|]. destruct (Z.to_nat k); discriminate. }
  destruct (Hsel Hhit) as (hi & t & Hs & _ & _ & Hflag).
  exists s', hi. split; [exact Hp|]. split; [exact Hs|].
  rewrite getBoneColors_flat.
  destruct (pick_same_refs inverse s s' p d Hp) as (_ & Hrefs & _).
  apply Forall2_length in Hrefs. rewrite Hrefs.
  assert (Hgen : forall bs n,
            (forall j bj, nth_error bs j = Some bj ->
               (isHighlight bj = true <-> Z.of_nat (n + j) = hi)) ->
            flat_map (fun b => if isHighlight b then green else red) bs
            = flat_map (fun j => if (Z.of_nat j =? hi)%Z then green else red)
                       (seq n (length bs))).
  { induction bs as [|b bs IH]; intros n H; simpl; [reflexivity|].
    f_equal.
    - specialize (H 0%nat b eq_refl). rewrite Nat.add_0_r in H.
      destruct (isHighlight b).
      + destruct H as [H _]. rewrite (H eq_refl), Z.eqb_refl. reflexivity.
      + destruct (Z.of_nat n =? hi)%Z eqn:E; [|reflexivity].
        apply Z.eqb_eq in E. destruct H as [_ H]. specialize (H E). discriminate.
    - apply IH. intros j bj Hj. specialize (H (S j) bj Hj).
      now rewrite Nat.add_succ_r in H. }
  apply Hgen. intros j bj Hj. simpl.
  apply (Hflag (Z.of_nat j) bj). unfold bone_at.
  destruct (Z.of_nat j <? 0)%Z eqn:E; [apply Z.ltb_lt in E; lia|].
  now rewrite Nat2Z.id.
Qed.

End Colours.

Lemma selected_bone_is_drawn_green_witness :
  exists s' hi,
    pick Mat3_inverse Examples4.hover Examples4.eye Examples4.ahead = Ok s' /\
    selectedBone s' = Some hi /\
    Scene.getBoneColors (mesh s')
    = flat_map (fun j => if (Z.of_nat j =? hi)%Z then green else red) [0; 1]%nat.
Proof.
  destruct (selected_bone_is_drawn_green Mat3_inverse Examples4.hover
              Examples4.eye Examples4.ahead) as [_ H].
  apply H.
  - exact hover_frames.
  - exists 0%Z, (5 - 1 / 10). split; [apply hover_hits|].
    unfold MAX_SAFE_INTEGER; lra.
Defined.

(** ** Hierarchies with a cycle *)

(** X13: on a bone from which the parent links never reach a root (they
    run into a cycle) [getD_i], [getR_i] and [getU_i] return nothing,
    however deep the recursion is allowed to go. *)
Theorem parent_cycle_never_returns (m : Mesh) (S : Z -> Prop) (fuel : nat) :
  rootless (bones m) S ->
  forall i, S i ->
    Scene.getD_i fuel m i = OutOfFuel /\
    Scene.getR_i fuel m i = OutOfFuel /\
    Scene.getU_i fuel m i = OutOfFuel.
Proof.
  intros Hr. induction fuel as [|fuel IH]; intros i Hi; [repeat split|].
  destruct (Hr i Hi) as (b & Hb & Hp & HS).
  apply Z.eqb_neq in Hp.
  destruct (IH _ HS) as (HD & HR & HU).
  simpl. rewrite Hb, Hp, HD, HR, HU. repeat split.
Qed.

Lemma parent_cycle_never_returns_witness :
  Scene.getD_i 100 Examples6.loop 0 = OutOfFuel /\
  Scene.getR_i 100 Examples6.loop 0 = OutOfFuel /\
  Scene.getU_i 100 Examples6.loop 0 = OutOfFuel.
Proof.
  apply (parent_cycle_never_returns Examples6.loop (fun i => i = 0%Z) 100).
  - intros i ->. eexists. split; [reflexivity|]. split; [discriminate|reflexivity].
  - reflexivity.
Defined.

(** ** Construction of a skeleton *)

Lemma initT_ij_cases (all : list Bone) (h : Heap) (bone : Bone) :
  (parent bone = (-1)%Z \/ (exists p, bone_at all (parent bone) = Some p) ->
   exists h', Scene.initT_ij all h bone = Ok h') /\
  (parent bone <> (-1)%Z -> bone_at all (parent bone) = None ->
   Scene.initT_ij all h bone = TypeError).
Proof.
  unfold Scene.initT_ij. split.
  - intros [Hp|(p & Hp)].
    + rewrite Hp. simpl. eauto.
    + destruct (parent bone =? -1)%Z; simpl; [eauto|]. rewrite Hp. simpl. eauto.
  - intros Hp Hn. apply Z.eqb_neq in Hp. rewrite Hp, Hn. reflexivity.
Qed.

Lemma initT_ij_loop_Ok (all todo : list Bone) :
  Forall (fun b => parent b = (-1)%Z \/ exists p, bone_at all (parent b) = Some p)
         todo ->
  forall h, exists h', Scene.initT_ij_loop all h todo = Ok h'.
Proof.
  induction 1 as [|b todo Hb _ IH]; intros h; simpl; [eauto|].
  destruct (proj1 (initT_ij_cases all h b) Hb) as (h' & Hh'). rewrite Hh'. simpl.
  apply IH.
Qed.

Lemma initT_ij_loop_TypeError (all todo : list Bone) :
  Exists (fun b => parent b <> (-1)%Z /\ bone_at all (parent b) = None) todo ->
  forall h, Scene.initT_ij_loop all h todo = TypeError.
Proof.
  induction todo as [|b todo IH]; intros He h; [inversion He|]. simpl.
  destruct (Z.eq_dec (parent b) (-1)) as [Hp|Hp].
  - destruct (proj1 (initT_ij_cases all h b) (or_introl Hp)) as (h' & Hh').
    rewrite Hh'. simpl. apply IH. inversion He; subst; [|assumption].
    destruct H0; contradiction.
  - destruct (bone_at all (parent b)) as [p|] eqn:Hbp.
    + destruct (proj1 (initT_ij_cases all h b) (or_intror (ex_intro _ p Hbp)))
        as (h' & Hh').
      rewrite Hh'. simpl. apply IH. inversion He; subst; [|assumption].
      destruct H0; congruence.
    + rewrite (proj2 (initT_ij_cases all h b) Hp Hbp). reflexivity.
Qed.

Lemma pushBones_parents (h : Heap) (ls : list BoneLoader) :
  map parent (fst (Scene.pushBones h ls)) = map l_parent ls.
Proof.
  destruct (pushBones_spec ls h) as (_ & _ & Hl).
  induction Hl as [|l b ls' bs' [_ Hlk] _ IH]; simpl; [reflexivity|].
  unfold links in Hlk. inversion Hlk. now rewrite IH.
Qed.

Lemma bone_at_None_iff (bs : list Bone) (i : Z) :
  bone_at bs i = None <-> ~ (0 <= i < Z.of_nat (length bs))%Z.
Proof.
  unfold bone_at. destruct (i <? 0)%Z eqn:E.
  - apply Z.ltb_lt in E. split; [lia|reflexivity].
  - apply Z.ltb_ge in E. rewrite nth_error_None. lia.
Qed.

(** X14: the constructor of [Mesh] builds a skeleton when every
    parent index of the loaded bones is -1 or the index of a loaded bone,
    and fails with a [TypeError] otherwise. *)
Theorem Mesh_constructor_needs_parents (h : Heap) (ls : list BoneLoader) :
  (parents_ok ls = true -> exists m, Scene.Mesh_constructor h ls = Ok m) /\
  (parents_ok ls = false -> Scene.Mesh_constructor h ls = TypeError).
Proof.
  unfold Scene.Mesh_constructor.
  pose proof (pushBones_parents h ls) as Hpar.
  destruct (Scene.pushBones h ls) as [bs h1]. simpl in Hpar.
  assert (Hlen : length bs = length ls).
  { rewrite <- (length_map parent), Hpar. apply length_map. }
  assert (Hcrit : forall b, In b bs ->
            ((parent b =? -1)%Z
             || ((0 <=? parent b)%Z && (parent b <? Z.of_nat (length ls))%Z) = true
             <-> (parent b = (-1)%Z \/ exists p, bone_at bs (parent b) = Some p))).
  { intros b _. rewrite orb_true_iff, andb_true_iff, Z.eqb_eq, Z.leb_le, Z.ltb_lt.
    rewrite <- Hlen. split; (intros [Hp|Hp]; [left; exact Hp|right]).
    - apply bone_at_in_range. exact Hp.
    - destruct Hp as (p & Hp).
      destruct (bone_at bs (parent b)) eqn:E; [|discriminate].
      destruct (Z_lt_le_dec (parent b) 0); [|destruct (Z_lt_le_dec (parent b) (Z.of_nat (length bs)))];
        try lia; exfalso;
        assert (N : bone_at bs (parent b) = None) by (apply bone_at_None_iff; lia);
        congruence. }
  assert (Hok : parents_ok ls
                = forallb (fun b => (parent b =? -1)%Z
                                    || ((0 <=? parent b)%Z
                                        && (parent b <? Z.of_nat (length ls))%Z)) bs).
  { unfold parents_ok. clear - Hpar. revert bs Hpar.
    generalize (Z.of_nat (length ls)) as n.
    induction ls as [|l ls IH]; intros n [|b bs] Hpar; simpl in *;
      try discriminate; [reflexivity|].
    inversion Hpar. rewrite H0. f_equal. now apply IH. }
  rewrite Hok. split.
  - intros H. rewrite forallb_forall in H.
    destruct (initT_ij_loop_Ok bs bs) with (h := h1) as (h' & Hh').
    + apply Forall_forall. intros b Hb. apply Hcrit; auto.
    + rewrite Hh'. simpl. eauto.
  - intros H.
    rewrite initT_ij_loop_TypeError; [reflexivity|].
    apply Exists_exists.
    assert (Hex : exists b, In b bs /\
              (parent b =? -1)%Z
              || ((0 <=? parent b)%Z && (parent b <? Z.of_nat (length ls))%Z)
              = false).
    { clear - H. induction bs as [|b bs IH]; simpl in H; [discriminate|].
      apply andb_false_iff in H as [H|H].
      - exists b. split; [left; reflexivity|exact H].
      - destruct (IH H) as (b' & Hin & Hb'). exists b'. split; [right|]; auto. }
    destruct Hex as (b & Hin & Hb). exists b. split; [exact Hin|].
    apply orb_false_iff in Hb as [Hb1 Hb2]. apply Z.eqb_neq in Hb1.
    split; [exact Hb1|].
    destruct (bone_at bs (parent b)) as [p|] eqn:E; [|reflexivity].
    assert (Hc : (parent b =? -1)%Z
                 || ((0 <=? parent b)%Z && (parent b <? Z.of_nat (length ls))%Z)
                 = true) by (apply Hcrit; eauto).
    apply orb_true_iff in Hc as [Hc|Hc]; [apply Z.eqb_eq in Hc; contradiction|].
    congruence.
Qed.

Lemma Mesh_constructor_needs_parents_witness :
  (exists m, Scene.Mesh_constructor Store.empty [Examples2.rootL; Examples2.childL]
             = Ok m) /\
  Scene.Mesh_constructor Store.empty [Examples2.rootL; Examples6.orphanL] = TypeError.
Proof.
  split.
  - apply (Mesh_constructor_needs_parents Store.empty
             [Examples2.rootL; Examples2.childL]). reflexivity.
  - apply (Mesh_constructor_needs_parents Store.empty
             [Examples2.rootL; Examples6.orphanL]). reflexivity.
Defined.

(** ** Forward kinematics *)

Lemma getD_i_mono (m : Mesh) (f : nat) :
  forall f' i D, Scene.getD_i f m i = Ok D -> (f <= f')%nat ->
    Scene.getD_i f' m i = Ok D.
Proof.
  induction f as [|f IH]; intros f' i D H Hle; [discriminate|].
  destruct f' as [|f']; [lia|]. simpl in *.
  destruct (bone_at (bones m) i) as [b|]; [|discriminate].
  destruct (parent b =? -1)%Z; [exact H|].
  apply bind_Ok in H as (Dp & HDp & H).
  rewrite (IH f' _ _ HDp) by lia. exact H.
Qed.

Lemma getR_i_mono (m : Mesh) (f : nat) :
  forall f' i q, Scene.getR_i f m i = Ok q -> (f <= f')%nat ->
    Scene.getR_i f' m i = Ok q.
Proof.
  induction f as [|f IH]; intros f' i q H Hle; [discriminate|].
  destruct f' as [|f']; [lia|]. simpl in *.
  destruct (bone_at (bones m) i) as [b|]; [|discriminate].
  destruct (parent b =? -1)%Z; [exact H|].
  apply bind_Ok in H as (rp & Hrp & H).
  rewrite (IH f' _ _ Hrp) by lia. exact H.
Qed.

Lemma bone_at_None_length (bs bs' : list Bone) (i : Z) :
  length bs' = length bs -> bone_at bs i = None -> bone_at bs' i = None.
Proof.
  unfold bone_at. intros Hl. destruct (i <? 0)%Z; [reflexivity|].
  rewrite !nth_error_None. lia.
Qed.

(** What a later state of the mesh has for a bone of the earlier one. *)
Lemma later_bone (m m' : Mesh) (i : Z) (b : Bone) :
  wf_mesh m -> evolves same_local m m' -> bone_at (bones m) i = Some b ->
  exists b', bone_at (bones m') i = Some b' /\
    parent b' = parent b /\ children b' = children b /\
    getMat4 (heap m') (T_ij b') = getMat4 (heap m) (T_ij b) /\
    getQuat (heap m') (R_i b') = getQuat (heap m) (R_i b) /\
    getVec3 (heap m') (initPosition b') = getVec3 (heap m) (initPosition b) /\
    getVec3 (heap m') (initEndpoint b') = getVec3 (heap m) (initEndpoint b).
Proof.
  intros Hw (_ & He & Hbs) Hb.
  destruct (Forall2_bone_at _ _ _ _ _ Hbs Hb) as (b' & Hb' & Hloc).
  destruct Hloc as ((Hp & Hc & Ht & Hip & Hie) & Hri & _).
  assert (Hwb : wf_bone (heap m) b).
  { unfold wf_mesh in Hw. rewrite Forall_forall in Hw. apply Hw.
    now apply bone_at_Some in Hb. }
  destruct Hwb as (_ & _ & Hwip & Hwie & _ & Hwri & Hwt).
  exists b'. split; [exact Hb'|]. split; [exact Hp|]. split; [exact Hc|].
  rewrite Ht, Hri, Hip, Hie.
  split; [apply extends_getMat4; auto|]. split; [apply extends_getQuat; auto|].
  split; apply extends_getVec3; auto.
Qed.

Lemma getD_i_later (m m' : Mesh) (f : nat) :
  wf_mesh m -> evolves same_local m m' ->
  forall i, Scene.getD_i f m' i = Scene.getD_i f m i.
Proof.
  intros Hw Hev. induction f as [|f IH]; intros i; [reflexivity|]. simpl.
  destruct (bone_at (bones m) i) as [b|] eqn:Hb.
  - destruct (later_bone m m' i b Hw Hev Hb)
      as (b' & Hb' & Hp & _ & Ht & Hri & _).
    rewrite Hb', Hp, Ht, Hri, IH. reflexivity.
  - rewrite (bone_at_None_length (bones m) (bones m') i); auto.
    destruct Hev as (_ & _ & Hbs). symmetry. eapply Forall2_length; eauto.
Qed.

Lemma getR_i_later (m m' : Mesh) (f : nat) :
  wf_mesh m -> evolves same_local m m' ->
  forall i, Scene.getR_i f m' i = Scene.getR_i f m i.
Proof.
  intros Hw Hev. induction f as [|f IH]; intros i; [reflexivity|]. simpl.
  destruct (bone_at (bones m) i) as [b|] eqn:Hb.
  - destruct (later_bone m m' i b Hw Hev Hb)
      as (b' & Hb' & Hp & _ & Ht & Hri & _).
    rewrite Hb', Hp, Hri, IH. reflexivity.
  - rewrite (bone_at_None_length (bones m) (bones m') i); auto.
    destruct Hev as (_ & _ & Hbs). symmetry. eapply Forall2_length; eauto.
Qed.

Lemma posed_later (m m' : Mesh) (j : Z) :
  wf_mesh m -> evolves same_local m m' ->
  bone_at (bones m') j = bone_at (bones m) j -> posed m j -> posed m' j.
Proof.
  intros Hw Hev Hsame (f & b & D & q & Hb & HD & Hq & Hpos & Hend & Hrot).
  exists f, b, D, q.
  rewrite Hsame, (getD_i_later m m' f Hw Hev), (getR_i_later m m' f Hw Hev).
  assert (Hwb : wf_bone (heap m) b).
  { unfold wf_mesh in Hw. rewrite Forall_forall in Hw. apply Hw.
    now apply bone_at_Some in Hb. }
  destruct Hev as (_ & He & _).
  destruct Hwb as (Hwp & Hwe & Hwip & Hwie & Hwr & _).
  rewrite !(extends_getVec3 (heap m) (heap m')), (extends_getQuat (heap m) (heap m'))
    by assumption.
  auto 10.
Qed.

Lemma placed_later (m m' : Mesh) (j : Z) :
  wf_mesh m -> evolves same_local m m' ->
  bone_at (bones m') j = bone_at (bones m) j -> placed m j -> placed m' j.
Proof.
  intros Hw Hev Hsame (f & b & D & Hb & HD & Hpos & Hend).
  exists f, b, D. rewrite Hsame, (getD_i_later m m' f Hw Hev).
  assert (Hwb : wf_bone (heap m) b).
  { unfold wf_mesh in Hw. rewrite Forall_forall in Hw. apply Hw.
    now apply bone_at_Some in Hb. }
  destruct Hev as (_ & He & _).
  destruct Hwb as (Hwp & Hwe & Hwip & Hwie & Hwr & _).
  rewrite !(extends_getVec3 (heap m) (heap m')) by assumption.
  auto 10.
Qed.

Lemma posed_placed (m : Mesh) (j : Z) : posed m j -> placed m j.
Proof.
  intros (f & b & D & q & Hb & HD & _ & Hpos & Hend & _). exists f, b, D. auto.
Qed.

(** The tail of [calculateD_iAndTranslate]. *)
Lemma storePose_placed (m1 m2 : Mesh) (bone : Z) (F : nat) (D : Mat4) :
  wf_mesh m1 -> Scene.storePose m1 bone D = Ok m2 ->
  Scene.getD_i F m1 bone = Ok D ->
  placed m2 bone /\
  (forall b1, bone_at (bones m1) bone = Some b1 ->
     exists b2, bone_at (bones m2) bone = Some b2 /\ rotation b2 = rotation b1) /\
  (forall j, j <> bone -> bone_at (bones m2) j = bone_at (bones m1) j).
Proof.
  intros Hw Hp HD.
  pose proof (storePose_evolves _ _ _ _ Hw Hp) as Hev.
  unfold Scene.storePose in Hp.
  destruct (bone_at (bones m1) bone) as [b|] eqn:Hb; [|discriminate].
  assert (Hwb : wf_bone (heap m1) b).
  { unfold wf_mesh in Hw. rewrite Forall_forall in Hw. apply Hw.
    now apply bone_at_Some in Hb. }
  destruct Hwb as (_ & _ & Hwip & Hwie & _).
  pose proof (bone_at_Some _ _ _ Hb) as (Hi & _ & _).
  revert Hp.
  alloc_as rp hp Hltp Hexp Hgp. alloc_as re he Hlte Hexe Hge.
  intros Hp. inversion Hp; subst m2; clear Hp. cbn [bones heap] in *.
  split; [|split].
  - eexists F, _, D. split; [eapply bone_at_set_eq; eauto|].
    split; [rewrite (getD_i_later m1 _ F Hw Hev); exact HD|].
    cbn [position endpoint initEndpoint initPosition heap].
    split.
    + rewrite (extends_getVec3 hp he) by assumption. exact Hgp.
    + rewrite Hge.
      rewrite !(extends_getVec3 hp he)
        by (try assumption; apply extends_length in Hexp; lia).
      reflexivity.
  - intros b1 Hb1. inversion Hb1; subst b1. eexists.
    split; [eapply bone_at_set_eq; eauto|reflexivity].
  - intros j Hj. apply bone_at_set_neq; auto.
Qed.

(** The tail of [updateMesh]. *)
Lemma store_posed (m1 m2 m3 : Mesh) (bone : Z) (F : nat) (D : Mat4) (q : Quat) :
  wf_mesh m1 -> Scene.storePose m1 bone D = Ok m2 ->
  Scene.storeRotation m2 bone q = Ok m3 ->
  Scene.getD_i F m1 bone = Ok D -> Scene.getR_i F m1 bone = Ok q ->
  posed m3 bone /\
  (forall j, j <> bone -> bone_at (bones m3) j = bone_at (bones m1) j) /\
  evolves same_local m1 m3.
Proof.
  intros Hw Hp Hr HD Hq.
  pose proof (storePose_evolves _ _ _ _ Hw Hp) as Hev12.
  assert (Hw2 : wf_mesh m2) by apply Hev12.
  pose proof (storeRotation_evolves _ _ _ _ Hw2 Hr) as Hev23.
  assert (Hev : evolves same_local m1 m3)
    by (eapply evolves_trans; eauto using same_local_trans).
  destruct (storePose_placed m1 m2 bone F D Hw Hp HD)
    as ((f & b2 & D2 & Hb2 & HD2 & Hpos & Hend) & _ & Hother).
  assert (Hwb : wf_bone (heap m2) b2).
  { unfold wf_mesh in Hw2. rewrite Forall_forall in Hw2. apply Hw2.
    now apply bone_at_Some in Hb2. }
  destruct Hwb as (Hwp & Hwe & Hwip & Hwie & _).
  pose proof (bone_at_Some _ _ _ Hb2) as (Hi & _ & _).
  unfold Scene.storeRotation in Hr. rewrite Hb2 in Hr. revert Hr.
  alloc_as rr hr Hltr Hexr Hgr. intros Hr.
  inversion Hr; subst m3; clear Hr. cbn [bones heap] in *.
  split; [|split; [|exact Hev]].
  - eexists F, _, D, q. split; [eapply bone_at_set_eq; eauto|].
    split; [rewrite (getD_i_later m1 _ F Hw Hev); exact HD|].
    split; [rewrite (getR_i_later m1 _ F Hw Hev); exact Hq|].
    cbn [position endpoint rotation initEndpoint initPosition heap].
    rewrite !(extends_getVec3 (heap m2) hr) by assumption.
    rewrite (getD_i_later m1 m2 f Hw Hev12) in HD2.
    assert (D2 = D).
    { destruct (Nat.le_ge_cases f F) as [Hle|Hle].
      - apply (getD_i_mono _ _ F) in HD2; [congruence|exact Hle].
      - apply (getD_i_mono _ _ f) in HD; [congruence|exact Hle]. }
    subst D2. auto.
  - intros j Hj. rewrite bone_at_set_neq by auto. apply Hother. exact Hj.
Qed.

Lemma kept_refl (sk : list (Z * list Z)) (bone : Z) (m : Mesh) :
  wf_mesh m -> kept sk bone m m.
Proof.
  intros Hw. split; [apply evolves_refl; auto using same_local_refl|]. auto.
Qed.

Lemma kept_trans (sk : list (Z * list Z)) (bone : Z) (m1 m2 m3 : Mesh) :
  kept sk bone m1 m2 -> kept sk bone m2 m3 -> kept sk bone m1 m3.
Proof.
  intros (He1 & Hp1 & Hq1 & Hn1) (He2 & Hp2 & Hq2 & Hn2). split; [|split; [|split]].
  - eapply evolves_trans; eauto using same_local_trans.
  - auto.
  - auto.
  - intros j Hj. rewrite Hn2, Hn1; auto.
Qed.

Lemma kept_child (sk : list (Z * list Z)) (bone p c : Z) (cs : list Z) (m m' : Mesh) :
  link_at sk bone = Some (p, cs) -> In c cs ->
  kept sk c m m' -> kept sk bone m m'.
Proof.
  intros Hl Hc (He & Hp & Hq & Hn). split; [exact He|]. split; [exact Hp|].
  split; [exact Hq|]. intros j Hj. apply Hn. intros Hd. apply Hj.
  eapply descends_child; eauto.
Qed.

Lemma kept_links (sk : list (Z * list Z)) (bone : Z) (m m' : Mesh) :
  kept sk bone m m' -> links_of (bones m') = links_of (bones m).
Proof.
  intros ((_ & _ & Hbs) & _). apply Forall2_same_bind_links.
  eapply Forall2_impl; [|exact Hbs]. intros a b H. apply H.
Qed.

Lemma updateMesh_fk (sk : list (Z * list Z)) :
  forest sk = true ->
  forall fuel m bone Dp rp m',
    wf_mesh m -> links_of (bones m) = sk ->
    Scene.updateMesh fuel m bone Dp rp = Ok m' ->
    handed_down m bone Dp rp ->
    kept sk bone m m' /\ forall j, descends sk bone j -> posed m' j.
Proof.
  intros Hf. induction fuel as [|fuel IH]; intros m bone Dp rp m' Hw Hsk H Hargs;
    [discriminate|].
  rewrite updateMesh_S in H.
  destruct (bone_at (bones m) bone) as [b|] eqn:Hb; [|discriminate].
  pose proof (bone_at_Some _ _ _ Hb) as (Hi & _ & _).
  pose proof (bone_link _ _ _ Hb) as Hl. rewrite Hsk in Hl.
  apply bind_Ok in H as (Dr & HDr & H).
  apply bind_Ok in H as (m1 & Hfold & H).
  apply bind_Ok in H as (m2 & Hpose & Hrot).
  (* the transform and the rotation of this bone *)
  assert (HF : exists F, Scene.getD_i F m bone = Ok (fst Dr) /\
                         Scene.getR_i F m bone = Ok (snd Dr)).
  { unfold handed_down in Hargs.
    destruct Dp as [D|]; destruct rp as [r|]; try contradiction.
    - destruct Hargs as (b0 & F & Hb0 & Hp0 & HD & Hr).
      rewrite Hb in Hb0. inversion Hb0; subst b0.
      exists (S F). simpl. apply Z.eqb_neq in Hp0.
      rewrite Hb, Hp0, HD, Hr. simpl. inversion HDr; subst Dr. auto.
    - apply bind_Ok in HDr as (D & HD & HDr).
      apply bind_Ok in HDr as (r & Hr & HDr). inversion HDr; subst Dr.
      exists (S fuel). auto. }
  destruct HF as (F & HD & Hq).
  (* the children *)
  assert (Hkids : forall cs, (forall c, In c cs -> In c (children b)) ->
            forall mc m1',
              wf_mesh mc -> links_of (bones mc) = sk ->
              Scene.getD_i F mc bone = Ok (fst Dr) ->
              Scene.getR_i F mc bone = Ok (snd Dr) ->
              fold_left
                (fun acc child =>
                   m' <- acc ;;
                   Scene.updateMesh fuel m' child (Some (fst Dr)) (Some (snd Dr)))
                cs (Ok mc) = Ok m1' ->
              kept sk bone mc m1' /\
              forall c j, In c cs -> descends sk c j -> posed m1' j).
  { induction cs as [|c cs IHcs]; intros Hin mc m1' Hwc Hskc HDc Hqc Hfd.
    - simpl in Hfd. inversion Hfd; subst m1'.
      split; [apply kept_refl; exact Hwc|]. intros c j [].
    - simpl in Hfd.
      destruct (Scene.updateMesh fuel mc c (Some (fst Dr)) (Some (snd Dr)))
        as [mc2| |] eqn:Hc;
        try (rewrite fold_left_error in Hfd by discriminate; discriminate).
      assert (Hcin : In c (children b)) by (apply Hin; left; reflexivity).
      destruct (forest_spec sk bone _ _ Hf Hl) as [_ Hchild].
      specialize (Hchild c Hcin). unfold child_ok in Hchild.
      destruct (link_at sk c) as [[pc csc]|] eqn:Hlc; [|discriminate].
      apply Z.eqb_eq in Hchild. subst pc.
      pose proof Hlc as Hlc'. rewrite <- Hskc in Hlc'.
      apply link_bone in Hlc' as (bc & Hbc & Hlk).
      injection Hlk as Hpar _.
      destruct (IH mc c (Some (fst Dr)) (Some (snd Dr)) mc2 Hwc Hskc Hc)
        as (Hk & Hdesc).
      { exists bc, F. rewrite <- Hpar. split; [exact Hbc|].
        split; [lia|]. split; assumption. }
      assert (Hk' : kept sk bone mc mc2) by (eapply kept_child; eauto).
      pose proof Hk' as (Hev2 & _).
      destruct (IHcs (fun c' Hc' => Hin c' (or_intror Hc')) mc2 m1')
        as (Hk2 & Hdesc2); auto.
      + apply Hev2.
      + rewrite (kept_links _ _ _ _ Hk'). exact Hskc.
      + rewrite (getD_i_later mc mc2 F Hwc Hev2). exact HDc.
      + rewrite (getR_i_later mc mc2 F Hwc Hev2). exact Hqc.
      + split; [eapply kept_trans; eauto|].
        intros c' j [<-|Hc'] Hj; [|eauto].
        destruct Hk2 as (_ & Hp2 & _). apply Hp2. apply Hdesc. exact Hj. }
  destruct (Hkids (children b) (fun c H => H) m m1 Hw Hsk HD Hq Hfold)
    as (Hk1 & Hdesc1).
  pose proof Hk1 as (Hev1 & Hp1 & Hq1 & Hn1).
  assert (Hw1 : wf_mesh m1) by apply Hev1.
  (* the bone itself *)
  destruct (store_posed m1 m2 m' bone F (fst Dr) (snd Dr) Hw1 Hpose Hrot)
    as (Hposed & Hother & Hev3).
  { rewrite (getD_i_later m m1 F Hw Hev1). exact HD. }
  { rewrite (getR_i_later m m1 F Hw Hev1). exact Hq. }
  assert (Hstay : forall j, posed m1 j -> posed m' j).
  { intros j Hj. destruct (Z.eq_dec j bone) as [->|Hne]; [exact Hposed|].
    apply (posed_later m1 m' j Hw1 Hev3); auto. }
  assert (Hstay' : forall j, placed m1 j -> placed m' j).
  { intros j Hj. destruct (Z.eq_dec j bone) as [->|Hne];
      [apply posed_placed; exact Hposed|].
    apply (placed_later m1 m' j Hw1 Hev3); auto. }
  split.
  - split; [eapply evolves_trans; eauto using same_local_trans|].
    split; [auto|]. split; [auto|].
    intros j Hj. rewrite Hother, Hn1; auto.
    intros ->. apply Hj. constructor.
  - intros j Hj. inversion Hj; subst.
    + exact Hposed.
    + rewrite Hl in H. inversion H; subst. apply Hstay. eapply Hdesc1; eauto.
Qed.

(** X15: in a skeleton whose links form a forest, [updateMesh(bone, null,
    null)] returns, and afterwards the bone and every bone below it are
    posed: position, endpoint and rotation are those that the transforms
    [getD_i] and the rotations [getR_i] give, whatever they were before. *)
Theorem updateMesh_poses_subtree (m : Mesh) (bone : Z) (b : Bone) (fuel : nat) :
  wf_mesh m -> forest (links_of (bones m)) = true ->
  bone_at (bones m) bone = Some b -> (length (bones m) < fuel)%nat ->
  exists m',
    Scene.updateMesh fuel m bone None None = Ok m' /\
    forall j, descends (links_of (bones m)) bone j -> posed m' j.
Proof.
  intros Hw Hf Hb Hfuel.
  pose proof (bone_link _ _ _ Hb) as Hl.
  destruct (forest_spec _ _ _ _ Hf Hl) as [[d Hd] _].
  pose proof (depth_bound _ _ _ _ Hd) as Hdn.
  rewrite links_of_length in Hdn, Hd.
  destruct (updateMesh_terminates (links_of (bones m)) Hf fuel m bone None None d)
    as (m' & Hm' & _); auto.
  - rewrite links_of_length. exact Hd.
  - rewrite links_of_length. lia.
  - lia.
  - exists m'. split; [exact Hm'|].
    apply (updateMesh_fk (links_of (bones m)) Hf fuel m bone None None m');
      auto. exact I.
Qed.

Lemma updateMesh_outside (fuel : nat) :
  forall m bone Dp rp m',
    Scene.updateMesh fuel m bone Dp rp = Ok m' ->
    links_of (bones m') = links_of (bones m) /\
    forall j, ~ descends (links_of (bones m)) bone j ->
              bone_at (bones m') j = bone_at (bones m) j.
Proof.
  induction fuel as [|fuel IH]; intros m bone Dp rp m' H; [discriminate|].
  rewrite updateMesh_S in H.
  destruct (bone_at (bones m) bone) as [b|] eqn:Hb; [|discriminate].
  pose proof (bone_at_Some _ _ _ Hb) as (Hi & _ & _).
  pose proof (bone_link _ _ _ Hb) as Hl.
  apply bind_Ok in H as (Dr & _ & H).
  apply bind_Ok in H as (m1 & Hfold & H).
  apply bind_Ok in H as (m2 & Hpose & Hrot).
  assert (H1 : links_of (bones m1) = links_of (bones m) /\
               forall j, ~ descends (links_of (bones m)) bone j ->
                         bone_at (bones m1) j = bone_at (bones m) j).
  { apply (fold_children_ind
             (fun x => links_of (bones x) = links_of (bones m) /\
                       forall j, ~ descends (links_of (bones m)) bone j ->
                                 bone_at (bones x) j = bone_at (bones m) j)
             (fun m' c => Scene.updateMesh fuel m' c (Some (fst Dr)) (Some (snd Dr)))
             (children b)) with (m := m); auto.
    intros x c x' Hc [Hlx Hx] Hcall.
    destruct (IH _ _ _ _ _ Hcall) as [Hlx' Hx'].
    split; [congruence|]. intros j Hj. rewrite Hx', Hx; auto.
    rewrite Hlx. intros Hd. apply Hj. eapply descends_child; eauto. }
  destruct H1 as [Hl1 Hout1].
  assert (Hb1 : exists b1, bone_at (bones m1) bone = Some b1).
  { rewrite <- Hl1 in Hl. apply link_bone in Hl as (b1 & Hb1 & _). eauto. }
  destruct Hb1 as [b1 Hb1].
  unfold Scene.storePose in Hpose. rewrite Hb1 in Hpose.
  destruct (newVec3 _ _) as [rp1 hp1] in Hpose.
  destruct (newVec3 _ _) as [rp2 hp2] in Hpose.
  inversion Hpose; subst m2; clear Hpose.
  unfold Scene.storeRotation in Hrot. cbn [bones heap] in Hrot.
  rewrite (bone_at_set_eq _ _ _ _ Hb1) in Hrot.
  destruct (newQuat _ _) as [rq hq] in Hrot.
  inversion Hrot; subst m'; clear Hrot. cbn [bones heap].
  split.
  - erewrite set_bone_links;
      [|eapply bone_at_set_eq; eauto|reflexivity].
    erewrite set_bone_links; [exact Hl1|exact Hb1|reflexivity].
  - intros j Hj. assert (j <> bone) by (intros ->; apply Hj; constructor).
    rewrite !bone_at_set_neq by auto. auto.
Qed.

(** X16: [updateMesh] changes no bone outside the subtree of the bone
    it is called on: such a bone holds the same objects afterwards, with
    the same values. *)
Theorem updateMesh_leaves_the_rest
    (fuel : nat) (m m' : Mesh) (bone j : Z) (bj : Bone)
    (Dp : option Mat4) (rp : option Quat) :
  wf_mesh m ->
  Scene.updateMesh fuel m bone Dp rp = Ok m' ->
  ~ descends (links_of (bones m)) bone j ->
  bone_at (bones m) j = Some bj ->
  bone_at (bones m') j = Some bj /\ values (heap m') bj = values (heap m) bj.
Proof.
  intros Hw H Hj Hbj.
  destruct (updateMesh_outside fuel m bone Dp rp m' H) as [_ Hout].
  split; [rewrite Hout; auto|].
  destruct (updateMesh_evolves fuel m bone Dp rp m' Hw H) as (_ & He & _).
  apply extends_values; [exact He|].
  unfold wf_mesh in Hw. rewrite Forall_forall in Hw. apply Hw.
  now apply bone_at_Some in Hbj.
Qed.

(** ** The bind pose the constructor builds *)

Lemma Bone_new_T_ij (h : Heap) (l : BoneLoader) :
  T_ij (fst (Scene.Bone_constructor h (inl l))) = length (mat4s h) /\
  length (mat4s (snd (Scene.Bone_constructor h (inl l)))) = S (length (mat4s h)) /\
  isHighlight (fst (Scene.Bone_constructor h (inl l))) = false.
Proof.
  unfold Scene.Bone_constructor, newVec3, newQuat, newMat4. cbn [fst snd T_ij
    isHighlight mat4s]. rewrite length_app. simpl. repeat split. lia.
Qed.

Lemma pushBones_T_ij (ls : list BoneLoader) :
  forall h,
    map T_ij (fst (Scene.pushBones h ls)) = seq (length (mat4s h)) (length ls) /\
    length (mat4s (snd (Scene.pushBones h ls)))
    = (length (mat4s h) + length ls)%nat /\
    Forall (fun b => isHighlight b = false) (fst (Scene.pushBones h ls)).
Proof.
  induction ls as [|l ls IH]; intros h.
  - simpl. split; [reflexivity|]. split; [lia|constructor].
  - rewrite pushBones_cons.
    pose proof (Bone_new_T_ij h l) as (Ht & Hlen & Hhl).
    destruct (Scene.Bone_constructor h (inl l)) as [b h1]. cbn [fst snd] in *.
    specialize (IH h1). destruct IH as (IH1 & IH2 & IH3).
    destruct (Scene.pushBones h1 ls) as [bs h2]. cbn [fst snd] in *.
    simpl. rewrite Ht, IH1, Hlen. split; [reflexivity|].
    split; [lia|]. constructor; auto.
Qed.

Lemma translation_of_same (all : list Bone) (h h' : Heap) (b : Bone) :
  vec3s h' = vec3s h -> translation_of all h' b = translation_of all h b.
Proof.
  intros Hv. unfold translation_of, getVec3. now rewrite Hv.
Qed.

Lemma initT_ij_value (all : list Bone) (h h' : Heap) (bone : Bone) :
  Scene.initT_ij all h bone = Ok h' ->
  h' = setMat4 h (T_ij bone)
         (Mat4_translate (getMat4 h (T_ij bone)) (translation_of all h bone)).
Proof.
  unfold Scene.initT_ij, translation_of. intros H.
  apply bind_Ok in H as (t & Ht & H). inversion H; subst h'; clear H.
  destruct (parent bone =? -1)%Z.
  - inversion Ht; subst t. reflexivity.
  - destruct (bone_at all (parent bone)); [|discriminate].
    inversion Ht; subst t. reflexivity.
Qed.

Lemma initT_ij_loop_values (all todo : list Bone) :
  forall h h',
    Scene.initT_ij_loop all h todo = Ok h' ->
    NoDup (map T_ij todo) ->
    Forall (fun b => (T_ij b < length (mat4s h))%nat) todo ->
    vec3s h' = vec3s h /\ quats h' = quats h /\
    (forall b, In b todo ->
       getMat4 h' (T_ij b)
       = Mat4_translate (getMat4 h (T_ij b)) (translation_of all h b)) /\
    (forall r, ~ In r (map T_ij todo) -> getMat4 h' r = getMat4 h r).
Proof.
  induction todo as [|b todo IH]; intros h h' H Hnd Hlt; simpl in H.
  - inversion H; subst h'. repeat split; auto. intros b [].
  - apply bind_Ok in H as (h1 & H1 & H2).
    apply initT_ij_value in H1.
    inversion Hnd as [|x xs Hnotin Hnd']; subst.
    inversion Hlt as [|x xs Hb Hlt']; subst.
    assert (Hl1 : length (mat4s (setMat4 h (T_ij b)
                     (Mat4_translate (getMat4 h (T_ij b)) (translation_of all h b))))
                  = length (mat4s h)) by (simpl; apply list_set_length).
    destruct (IH _ h' H2 Hnd') as (Hv & Hq & Hin & Hout).
    { eapply Forall_impl; [|exact Hlt']. intros a Ha. rewrite Hl1. exact Ha. }
    simpl in Hv, Hq. split; [exact Hv|]. split; [exact Hq|]. split.
    + intros b' [<-|Hb'].
      * rewrite Hout by exact Hnotin. unfold getMat4, setMat4; simpl.
        apply nth_list_set_eq. exact Hb.
      * rewrite (Hin b' Hb').
        rewrite (translation_of_same all _ h b') by reflexivity.
        f_equal. unfold getMat4, setMat4; simpl.
        apply nth_list_set_neq. intros E. apply Hnotin. rewrite E.
        now apply in_map.
    + intros r Hr. rewrite Hout by (intros Hc; apply Hr; right; exact Hc).
      unfold getMat4, setMat4; simpl. apply nth_list_set_neq.
      intros E. apply Hr. left. exact E.
Qed.

Lemma Forall2_impl_In {A B : Type} (R Q : A -> B -> Prop) (l1 : list A) (l2 : list B) :
  Forall2 R l1 l2 -> (forall a b, In b l2 -> R a b -> Q a b) -> Forall2 Q l1 l2.
Proof.
  induction 1 as [|a b l1 l2 Hab _ IH]; intros H; constructor.
  - apply H; [left; reflexivity|exact Hab].
  - apply IH. intros a' b' Hb'. apply H. right. exact Hb'.
Qed.

(** What the constructor of [Mesh] builds from the loaded bones. *)
Lemma Mesh_constructor_values (h : Heap) (ls : list BoneLoader) (m : Mesh) :
  Scene.Mesh_constructor h ls = Ok m ->
  Forall2 (fun l b =>
             values (heap m) b
             = mkBoneValues (l_position l) (l_endpoint l) (l_rotation l)
                 (Mat4_translate Mat4_identity (bindOffset ls l))
                 Quat_identity (l_position l) (l_endpoint l) /\
             links b = (l_parent l, l_children l) /\
             isHighlight b = false)
          ls (bones m).
Proof.
  unfold Scene.Mesh_constructor.
  pose proof (pushBones_spec ls h) as (He & Hw & Hl).
  pose proof (pushBones_T_ij ls h) as (Ht & Hlen & Hhl).
  destruct (Scene.pushBones h ls) as [bs h1]. cbn [fst snd] in *.
  intros H. apply bind_Ok in H as (h2 & Hloop & H). inversion H; subst; clear H.
  cbn [heap bones].
  assert (Hnd : NoDup (map T_ij bs)) by (rewrite Ht; apply seq_NoDup).
  assert (Hlt : Forall (fun b => (T_ij b < length (mat4s h1))%nat) bs).
  { apply Forall_forall. intros b Hb. apply (in_map T_ij) in Hb.
    rewrite Ht in Hb. apply in_seq in Hb. lia. }
  destruct (initT_ij_loop_values bs bs h1 h2 Hloop Hnd Hlt)
    as (Hv & Hq & Hin & _).
  (* the translation of each bone, from the loaded data *)
  assert (Htr : forall l b, In b bs -> loaded h1 l b ->
            translation_of bs h1 b = bindOffset ls l).
  { intros l b Hb [Hval Hlk]. unfold translation_of, bindOffset.
    unfold links in Hlk. injection Hlk as Hp _. rewrite Hp.
    injection Hval as _ _ _ _ _ Hip _.
    destruct (l_parent l =? -1)%Z eqn:E; [exact Hip|].
    destruct (bone_at bs (l_parent l)) as [p|] eqn:Hbp.
    - apply bone_at_Some in Hbp as (_ & Hn & _).
      destruct (Forall2_nth_error (fun b l => loaded h1 l b) bs ls
                  (Z.to_nat (l_parent l)) p) as (lp & Hlp & [Hvp _]); auto.
      { clear - Hl. induction Hl; constructor; auto. }
      rewrite Hlp. injection Hvp as _ _ _ _ _ Hipp _. now rewrite Hip, Hipp.
    - exfalso. clear - Hloop Hb Hbp Hp E.
      assert (Hfail : Scene.initT_ij_loop bs h1 bs = TypeError).
      { apply initT_ij_loop_TypeError. apply Exists_exists. exists b.
        split; [exact Hb|]. rewrite Hp. split; [|exact Hbp].
        now apply Z.eqb_neq. }
      congruence. }
  apply (Forall2_impl_In (fun l b => loaded h1 l b /\ isHighlight b = false)).
  - clear - Hl Hhl. induction Hl; inversion Hhl; subst; constructor; auto.
  - intros l b Hb [Hlb Hhb]. pose proof Hlb as [Hval Hlk].
    split; [|split; [exact Hlk|exact Hhb]].
    unfold values in *. unfold getVec3, getQuat in *. rewrite Hv, Hq.
    injection Hval as Hp Hen Hr HT HR Hip Hie.
    rewrite Hp, Hen, Hr, HR, Hip, Hie. f_equal.
    rewrite (Hin b Hb), HT. f_equal. apply Htr; [exact Hb|exact Hlb].
Qed.

(** X17: what the constructor of [Mesh] builds from the loaded bones:
    every bone has the loaded position, endpoint and rotation, the loaded
    position and endpoint again as its bind pose, the identity as local
    rotation, the loaded links, no highlight, and as [T_ij] the translation
    by its bind offset: its position for a root, its position relative to
    its parent's otherwise. *)
Theorem Mesh_constructor_bind_pose (h : Heap) (ls : list BoneLoader) (m : Mesh) :
  Scene.Mesh_constructor h ls = Ok m ->
  Forall2 (fun l b =>
             values (heap m) b
             = mkBoneValues (l_position l) (l_endpoint l) (l_rotation l)
                 (Mat4_translate Mat4_identity (bindOffset ls l))
                 Quat_identity (l_position l) (l_endpoint l) /\
             links b = (l_parent l, l_children l) /\
             isHighlight b = false)
          ls (bones m).
Proof.
  exact (Mesh_constructor_values h ls m).
Qed.

Lemma fresh_bone (h : Heap) (ls : list BoneLoader) (m : Mesh) (i : Z) (l : BoneLoader) :
  Scene.Mesh_constructor h ls = Ok m ->
  (0 <= i)%Z -> nth_error ls (Z.to_nat i) = Some l ->
  exists b,
    bone_at (bones m) i = Some b /\
    values (heap m) b
    = mkBoneValues (l_position l) (l_endpoint l) (l_rotation l)
        (Mat4_translate Mat4_identity (bindOffset ls l))
        Quat_identity (l_position l) (l_endpoint l) /\
    parent b = l_parent l.
Proof.
  intros Hm Hi Hl. pose proof (Mesh_constructor_values h ls m Hm) as Hf.
  destruct (Forall2_nth_error _ _ _ _ _ Hf Hl) as (b & Hb & Hv & Hlk & _).
  exists b. split.
  - unfold bone_at. destruct (i <? 0)%Z eqn:E; [apply Z.ltb_lt in E; lia|exact Hb].
  - split; [exact Hv|]. unfold links in Hlk. now injection Hlk.
Qed.

Lemma Mat4_ext (a b : Mat4) :
  m0 a = m0 b -> m1 a = m1 b -> m2 a = m2 b -> m3 a = m3 b ->
  m4 a = m4 b -> m5 a = m5 b -> m6 a = m6 b -> m7 a = m7 b ->
  m8 a = m8 b -> m9 a = m9 b -> m10 a = m10 b -> m11 a = m11 b ->
  m12 a = m12 b -> m13 a = m13 b -> m14 a = m14 b -> m15 a = m15 b ->
  a = b.
Proof. destruct a, b; cbn [m0 m1 m2 m3 m4 m5 m6 m7 m8 m9 m10 m11 m12 m13 m14 m15]; intros; subst; reflexivity. Qed.

Lemma Mat4_translate_twice (u v : Vec3) :
  Mat4_product (Mat4_translate Mat4_identity u)
               (Mat4_translate Mat4_identity (Vec3_difference v u))
  = Mat4_translate Mat4_identity v.
Proof. destruct u, v. apply Mat4_ext; evalR; ring. Qed.

Lemma Mat4_translate_unrotated (v : Vec3) :
  Mat4_product (Mat4_translate Mat4_identity v) (Quat_toMat4 Quat_identity)
  = Mat4_translate Mat4_identity v.
Proof. destruct v. apply Mat4_ext; evalR; ring. Qed.

Lemma Quat_product_identity_l (q : Quat) : Quat_product Quat_identity q = q.
Proof. destruct q. evalR. f_equal; ring. Qed.

Lemma depth_Some_link (sk : list (Z * list Z)) (F : nat) (i : Z) (d : nat) :
  depth F sk i = Some d -> exists l, link_at sk i = Some l.
Proof.
  destruct F as [|F]; [discriminate|]. cbn [depth].
  destruct (link_at sk i) as [l|]; [eauto|discriminate].
Qed.

Lemma bind_pose_transforms_at (h : Heap) (ls : list BoneLoader) (m : Mesh) :
  Scene.Mesh_constructor h ls = Ok m ->
  forall fuel F i l d,
    depth F (links_of (bones m)) i = Some d -> (d < fuel)%nat ->
    (0 <= i)%Z -> nth_error ls (Z.to_nat i) = Some l ->
    Scene.getU_i fuel m i = Ok (Mat4_translate Mat4_identity (l_position l)) /\
    Scene.getD_i fuel m i = Ok (Mat4_translate Mat4_identity (l_position l)) /\
    Scene.getR_i fuel m i = Ok Quat_identity.
Proof.
  intros Hm. induction fuel as [|fuel IH]; intros F i l d Hd Hlt Hi Hl; [lia|].
  destruct (fresh_bone h ls m i l Hm Hi Hl) as (b & Hb & Hv & Hp).
  unfold values in Hv. injection Hv as _ _ _ HT HR Hip _.
  cbn [Scene.getU_i Scene.getD_i Scene.getR_i]. rewrite Hb, HT, HR, Hip, Hp.
  destruct F as [|F]; [discriminate|]. cbn [depth] in Hd.
  rewrite (bone_link _ _ _ Hb), Hp in Hd.
  unfold bindOffset.
  destruct (l_parent l =? -1)%Z eqn:E.
  - rewrite Mat4_translate_unrotated. auto.
  - destruct (depth F (links_of (bones m)) (l_parent l)) as [d'|] eqn:Hd';
      [|discriminate].
    cbn [option_map] in Hd. injection Hd as <-.
    assert (Hlp : exists lp, (0 <= l_parent l)%Z /\
                    nth_error ls (Z.to_nat (l_parent l)) = Some lp).
    { destruct (depth_Some_link _ _ _ _ Hd') as [lk Hlk].
      apply link_bone in Hlk as (bp & Hbp & _).
      apply bone_at_Some in Hbp as (Hpos & Hnth & _).
      split with (x := nth (Z.to_nat (l_parent l)) ls l).
      split; [exact Hpos|]. apply nth_error_nth'.
      pose proof (Mesh_constructor_values h ls m Hm) as Hf.
      apply Forall2_length in Hf. rewrite Hf.
      apply nth_error_Some. congruence. }
    destruct Hlp as (lp & Hpp & Hlp). rewrite Hlp.
    destruct (IH F (l_parent l) lp d') as (HU & HD & HRr); auto; try lia.
    rewrite HU, HD, HRr. cbn [bind].
    rewrite Mat4_translate_unrotated, Quat_product_identity_l.
    rewrite Mat4_translate_twice. auto.
Qed.

(** X18: in a skeleton as the constructor builds it, with links
    that form a forest, the transforms [getU_i] and [getD_i] of a bone are
    both the translation by the bone's loaded position, and [getR_i] is the
    identity: in the bind pose the bone's local origin is its joint. *)
Theorem bind_pose_transforms
    (h : Heap) (ls : list BoneLoader) (m : Mesh) (i : Z) (l : BoneLoader) (fuel : nat) :
  Scene.Mesh_constructor h ls = Ok m ->
  forest (links_of (bones m)) = true ->
  (0 <= i)%Z -> nth_error ls (Z.to_nat i) = Some l ->
  (length ls < fuel)%nat ->
  Scene.getU_i fuel m i = Ok (Mat4_translate Mat4_identity (l_position l)) /\
  Scene.getD_i fuel m i = Ok (Mat4_translate Mat4_identity (l_position l)) /\
  Scene.getR_i fuel m i = Ok Quat_identity.
Proof.
  intros Hm Hf Hi Hl Hfuel.
  destruct (fresh_bone h ls m i l Hm Hi Hl) as (b & Hb & _).
  pose proof (bone_link _ _ _ Hb) as Hlk.
  destruct (forest_spec _ _ _ _ Hf Hlk) as [[d Hd] _].
  pose proof (depth_bound _ _ _ _ Hd) as Hdn.
  assert (Hlen : length (links_of (bones m)) = length ls).
  { rewrite links_of_length.
    pose proof (Mesh_constructor_values h ls m Hm) as Hv.
    apply Forall2_length in Hv. auto. }
  rewrite Hlen in Hdn.
  apply (bind_pose_transforms_at h ls m Hm fuel _ i l d Hd); auto. lia.
Qed.

(** On the two-bone skeleton in its bind pose, recomputing from the root
    poses the root and its child. *)
Lemma updateMesh_poses_subtree_witness :
  exists m',
    Scene.updateMesh 3 Examples3.mesh2 0 None None = Ok m' /\
    posed m' 0 /\ posed m' 1.
Proof.
  destruct (bone_at (bones Examples3.mesh2) 0) as [b|] eqn:Hb; [|discriminate].
  destruct (updateMesh_poses_subtree Examples3.mesh2 0 b 3)
    as (m' & Hm' & Hposed).
  - exact wf_mesh_rolling.
  - exact forest_rolling.
  - exact Hb.
  - evalR. lia.
  - exists m'. split; [exact Hm'|]. split; apply Hposed.
    + constructor.
    + eapply descends_child; [reflexivity|left; reflexivity|constructor].
Defined.

(** Recomputing the child of the two-bone skeleton leaves the root as it
    was. *)
Lemma updateMesh_leaves_the_rest_witness :
  exists m' root,
    Scene.updateMesh 3 Examples3.mesh2 1 None None = Ok m' /\
    bone_at (bones Examples3.mesh2) 0 = Some root /\
    bone_at (bones m') 0 = Some root /\
    values (heap m') root = values (heap Examples3.mesh2) root.
Proof.
  destruct (bone_at (bones Examples3.mesh2) 0) as [root|] eqn:Hroot;
    [|discriminate].
  destruct (Scene.updateMesh 3 Examples3.mesh2 1 None None) as [m'| |] eqn:Hm';
    [|revert Hm'; evalR; discriminate..].
  exists m', root. split; [reflexivity|]. split; [reflexivity|].
  apply (updateMesh_leaves_the_rest 3 Examples3.mesh2 m' 1 0 root None None).
  - exact wf_mesh_rolling.
  - exact Hm'.
  - intros Hd. inversion Hd as [|i p cs c j Hl Hc _]; subst.
    revert Hl Hc. evalR. intros Hl. inversion Hl; subst. intros [].
  - exact Hroot.
Defined.

(** The two-bone skeleton: the child's [T_ij] is the translation by
    (4,6,8) - (1,2,3). *)
Lemma Mesh_constructor_bind_pose_witness :
  Forall2 (fun l b =>
             values (heap Examples3.mesh2) b
             = mkBoneValues (l_position l) (l_endpoint l) (l_rotation l)
                 (Mat4_translate Mat4_identity
                    (bindOffset [Examples2.rootL; Examples2.childL] l))
                 Quat_identity (l_position l) (l_endpoint l) /\
             links b = (l_parent l, l_children l) /\
             isHighlight b = false)
          [Examples2.rootL; Examples2.childL] (bones Examples3.mesh2).
Proof.
  apply (Mesh_constructor_bind_pose Store.empty
           [Examples2.rootL; Examples2.childL] Examples3.mesh2).
  evalR. reflexivity.
Defined.

(** In the two-bone skeleton the child's transforms are the translation by
    its position (4,6,8). *)
Lemma bind_pose_transforms_witness :
  Scene.getU_i 3 Examples3.mesh2 1
  = Ok (Mat4_translate Mat4_identity (mkVec3 4 6 8)) /\
  Scene.getD_i 3 Examples3.mesh2 1
  = Ok (Mat4_translate Mat4_identity (mkVec3 4 6 8)) /\
  Scene.getR_i 3 Examples3.mesh2 1 = Ok Quat_identity.
Proof.
  apply (bind_pose_transforms Store.empty [Examples2.rootL; Examples2.childL]
           Examples3.mesh2 1 Examples2.childL 3).
  - evalR. reflexivity.
  - exact forest_rolling.
  - lia.
  - reflexivity.
  - evalR. lia.
Defined.
